(** * taxator-tk: the RPA placement core and its helpers

    A shallow embedding of
    - [utils.hh]: [ignoreLine], [tokenizeSingleCharDelim],
      [tokenizeMultiCharDelim] and [loadMapFromFile],
    - [taxonpredictionmodelsequence.hh]: [BandFactor] and
      [RPAPredictionModel::predict],
    - the rank normalisation exercised by the taxonomy unit test,
    together with the properties stated about them. *)

From Stdlib Require Import ZArith QArith Qround List Bool Lia Lqa Ascii String.
From Stdlib Require Import Sorted Permutation.
Import ListNotations.

Local Open Scope Z_scope.

(** ** Machine integers *)

Definition INT_MAX : Z := 2147483647.
Definition INT_MIN : Z := -2147483648.
Definition UINT_MODULUS : Z := 4294967296.
Definition SIZE_MODULUS : Z := 18446744073709551616.

(** Conversion of an arbitrary integer to [int] (two's complement). *)
Definition to_int (z : Z) : Z :=
  let r := z mod UINT_MODULUS in
  if r <=? INT_MAX then r else r - UINT_MODULUS.

(** Conversion to [unsigned int]. *)
Definition to_uint (z : Z) : Z := z mod UINT_MODULUS.

(** Conversion to [std::string::size_type] (64 bit). *)
Definition to_size (z : Z) : Z := z mod SIZE_MODULUS.

(** ** utils.hh *)

Module Utils.

Definition str := list ascii.

Definition is_delim (delimiters : str) (c : ascii) : bool :=
  existsb (Ascii.eqb c) delimiters.

(** [find_in s delimiters pos]: index of the first character of [s] that
    occurs in [delimiters], where [s] starts at absolute index [pos]. *)
Fixpoint find_in (s delimiters : str) (pos : Z) : option Z :=
  match s with
  | [] => None
  | c :: s' => if is_delim delimiters c then Some pos
               else find_in s' delimiters (pos + 1)
  end.

(** [std::string::find_first_of(delimiters, lastpos)]; [None] is [npos]. *)
Definition find_first_of (s delimiters : str) (lastpos : Z) : option Z :=
  find_in (skipn (Z.to_nat lastpos) s) delimiters lastpos.

(** [value_type(str.data() + lastpos, count)]. *)
Definition make_token (s : str) (lastpos count : Z) : str :=
  firstn (Z.to_nat (to_size count)) (skipn (Z.to_nat lastpos) s).

(** The [while] loop of [tokenizeSingleCharDelim]; the result is the value
    of [lastpos] at the exit and the container.  [None]: out of fuel. *)
Fixpoint tokenize_loop (fuel : nat) (s delimiters : str) (stringlength : Z)
    (trimempty : bool) (fieldnum lastpos : Z) (tokens : list str)
    : option (Z * list str) :=
  match fuel with
  | O => None
  | S fuel' =>
    if negb (fieldnum =? 0) && (lastpos <? stringlength) then
      match find_first_of s delimiters lastpos with
      | None =>
          let pos := Z.of_nat (List.length s) in
          let tokens' :=
            if negb (pos =? lastpos) || negb trimempty
            then tokens ++ [make_token s lastpos (pos - lastpos)]
            else tokens in
          Some (pos, tokens')
      | Some pos =>
          if negb (pos =? lastpos) || negb trimempty
          then tokenize_loop fuel' s delimiters stringlength trimempty
                 (to_int (fieldnum - 1)) (pos + 1)
                 (tokens ++ [make_token s lastpos (pos - lastpos)])
          else tokenize_loop fuel' s delimiters stringlength trimempty
                 fieldnum (pos + 1) tokens
      end
    else Some (lastpos, tokens)
  end.

Definition tokenizeSingleCharDelim_fuel (fuel : nat) (s : str)
    (tokens : list str) (delimiters : str) (fieldnum : Z) (trimempty : bool)
    : option (list str) :=
  let stringlength := to_uint (Z.of_nat (List.length s)) in
  let fieldnum := if fieldnum =? 0 then to_int stringlength else fieldnum in
  match tokenize_loop fuel s delimiters stringlength trimempty fieldnum 0 tokens with
  | None => None
  | Some (lastpos, tokens') =>
      Some (tokens' ++ [make_token s lastpos (stringlength - lastpos)])
  end.

(** Every iteration that continues moves [lastpos] forward, so one more
    step than the string has characters is always enough. *)
Definition tokenizeSingleCharDelim (s : str) (tokens : list str)
    (delimiters : str) (fieldnum : Z) (trimempty : bool) : option (list str) :=
  tokenizeSingleCharDelim_fuel (S (List.length s)) s tokens delimiters
    fieldnum trimempty.

Definition of_string (x : string) : str := list_ascii_of_string x.

(** [ignoreLine]. *)
Definition ignoreLine (line : str) : bool :=
  match line with
  | [] => true
  | c :: _ => Ascii.eqb c "#"
  end.

(** [s] begins with [p]. *)
Fixpoint starts_with (p s : str) : bool :=
  match p, s with
  | [], _ => true
  | _ :: _, [] => false
  | a :: p', b :: s' => Ascii.eqb a b && starts_with p' s'
  end.

(** [find_sub s delimiters pos]: index of the first place in [s] where
    [delimiters] begins as a substring, where [s] starts at absolute index
    [pos]. *)
Fixpoint find_sub (s delimiters : str) (pos : Z) : option Z :=
  if starts_with delimiters s then Some pos
  else match s with
       | [] => None
       | _ :: s' => find_sub s' delimiters (pos + 1)
       end.

(** [std::string::find(delimiters, lastpos)]; [None] is [npos]. *)
Definition find (s delimiters : str) (lastpos : Z) : option Z :=
  if lastpos <=? Z.of_nat (List.length s)
  then find_sub (skipn (Z.to_nat lastpos) s) delimiters lastpos
  else None.

(** The [while] loop of [tokenizeMultiCharDelim]: as that of
    [tokenizeSingleCharDelim], with [find] and a step of [delimsize]. *)
Fixpoint tokenize_multi_loop (fuel : nat) (s delimiters : str)
    (stringlength delimsize : Z) (trimempty : bool) (fieldnum lastpos : Z)
    (tokens : list str) : option (Z * list str) :=
  match fuel with
  | O => None
  | S fuel' =>
    if negb (fieldnum =? 0) && (lastpos <? stringlength) then
      match find s delimiters lastpos with
      | None =>
          let pos := Z.of_nat (List.length s) in
          let tokens' :=
            if negb (pos =? lastpos) || negb trimempty
            then tokens ++ [make_token s lastpos (pos - lastpos)]
            else tokens in
          Some (pos, tokens')
      | Some pos =>
          if negb (pos =? lastpos) || negb trimempty
          then tokenize_multi_loop fuel' s delimiters stringlength delimsize
                 trimempty (to_int (fieldnum - 1)) (to_size (pos + delimsize))
                 (tokens ++ [make_token s lastpos (pos - lastpos)])
          else tokenize_multi_loop fuel' s delimiters stringlength delimsize
                 trimempty fieldnum (to_size (pos + delimsize)) tokens
      end
    else Some (lastpos, tokens)
  end.

Definition tokenizeMultiCharDelim_fuel (fuel : nat) (s : str)
    (tokens : list str) (delimiters : str) (fieldnum : Z) (trimempty : bool)
    : option (list str) :=
  let stringlength := to_uint (Z.of_nat (List.length s)) in
  let fieldnum := if fieldnum =? 0 then to_int stringlength else fieldnum in
  let delimsize := to_int (Z.of_nat (List.length delimiters)) in
  match tokenize_multi_loop fuel s delimiters stringlength delimsize trimempty
          fieldnum 0 tokens with
  | None => None
  | Some (lastpos, tokens') =>
      Some (tokens' ++ [make_token s lastpos (stringlength - lastpos)])
  end.

(** With a delimiter that is not empty every iteration that continues
    moves [lastpos] forward, and one more step than the string has
    characters is enough; with the empty delimiter [lastpos] stays where it
    is. *)
Definition tokenizeMultiCharDelim (s : str) (tokens : list str)
    (delimiters : str) (fieldnum : Z) (trimempty : bool) : option (list str) :=
  tokenizeMultiCharDelim_fuel (S (List.length s)) s tokens delimiters
    fieldnum trimempty.

End Utils.

(** ** Floats

    The C++ [float] values of the placement engine are embedded as exact
    rationals: conversion from [int] is the injection, the arithmetic is
    unrounded, there is no NaN and no infinity.  Comparisons, [std::max]
    and [std::min] are written as the C++ library defines them over [<]. *)

Definition float := Q.

Definition flt (a b : float) : bool := negb (Qle_bool b a).
Definition fle (a b : float) : bool := Qle_bool a b.

(** [std::max(a, b)] is [(a < b) ? b : a]. *)
Definition fmax (a b : float) : float := if flt a b then b else a.
(** [std::min(a, b)] is [(b < a) ? b : a]. *)
Definition fmin (a b : float) : float := if flt b a then b else a.

Definition float_of_int (z : Z) : float := inject_Z z.

(** Truncation toward zero. *)
Definition Qtrunc (q : Q) : Z := if Qle_bool 0 q then Qfloor q else Qceiling q.

(** ** Outcomes of a run *)

Inductive result (A : Type) : Type :=
| Ok (a : A)
| Undefined          (* undefined behaviour: bad index, null node, float->int out of range *)
| Failed             (* the sequence storage raised *)
| AssertionFailed    (* assert(! qgroup.empty()) *)
| OutOfFuel.
Arguments Ok {A} a.
Arguments Undefined {A}.
Arguments Failed {A}.
Arguments AssertionFailed {A}.
Arguments OutOfFuel {A}.

Definition bind {A B} (m : result A) (k : A -> result B) : result B :=
  match m with
  | Ok a => k a
  | Undefined => Undefined
  | Failed => Failed
  | AssertionFailed => AssertionFailed
  | OutOfFuel => OutOfFuel
  end.

Declare Scope result_scope.
Delimit Scope result_scope with result.
Notation "x <- m ;; k" := (bind m (fun x => k))
  (at level 61, m at next level, right associativity) : result_scope.
Notation "' p <- m ;; k" := (bind m (fun p => k))
  (at level 61, p pattern, m at next level, right associativity) : result_scope.
Local Open Scope result_scope.

(** [v[i]] on a [std::vector]: out of range is undefined behaviour. *)
Definition idx {A} (v : list A) (i : nat) : result A :=
  match nth_error v i with
  | Some a => Ok a
  | None => Undefined
  end.

(** [v[i] = x]. *)
Fixpoint upd {A} (v : list A) (i : nat) (x : A) : list A :=
  match v, i with
  | [], _ => []
  | _ :: v', O => x :: v'
  | a :: v', S i' => a :: upd v' i' x
  end.

(** A float converted to [int]: truncation, undefined out of range. *)
Definition float_to_int (q : float) : result Z :=
  let t := Qtrunc q in
  if (INT_MIN <=? t) && (t <=? INT_MAX) then Ok t else Undefined.

(** [std::set<uint>] as a strictly increasing list. *)
Fixpoint set_insert (i : nat) (s : list nat) : list nat :=
  match s with
  | [] => [i]
  | j :: s' => if (i <? j)%nat then i :: s
               else if (i =? j)%nat then s
               else j :: set_insert i s'
  end.

Definition set_erase (i : nat) (s : list nat) : list nat :=
  filter (fun j => negb (j =? i)%nat) s.

(** ** utils.hh: loadMapFromFile *)

Module UtilsFile.
Import Utils.

(** [boost::lexical_cast< T >( token )]; [None] is [bad_lexical_cast]. *)
Class LexicalCast (T : Type) := lexical_cast : str -> option T.

Definition newline : ascii := "010"%char.

(** The lines [std::getline] hands out one after the other from a stream
    that holds [content], where [line] is what was read of the current line:
    a line ends at a newline, which is dropped, or at the end of the stream;
    at the end of the stream with nothing read, [getline] fails.  A file that
    cannot be opened hands out nothing. *)
Fixpoint getlines (content line : str) : list str :=
  match content with
  | [] => match line with [] => [] | _ :: _ => [line] end
  | c :: rest =>
      if Ascii.eqb c newline then line :: getlines rest []
      else getlines rest (line ++ [c])
  end.

Section LoadMap.
Context {KeyT ValueT : Type} `{LexicalCast KeyT} `{LexicalCast ValueT}.
Variable key_eq_dec : forall a b : KeyT, {a = b} + {a <> b}.

(** [std::map< KeyT, ValueT >], by the bindings it holds. *)
Definition std_map := list (KeyT * ValueT).

Fixpoint std_map_find (m : std_map) (k : KeyT) : option ValueT :=
  match m with
  | [] => None
  | (k', v) :: m' => if key_eq_dec k k' then Some v else std_map_find m' k
  end.

(** [insert]: a key that is bound keeps its value. *)
Definition std_map_insert (m : std_map) (k : KeyT) (v : ValueT) : std_map :=
  match std_map_find m k with
  | Some _ => m
  | None => m ++ [(k, v)]
  end.

(** The body of the [while] loop for one line; the state is the map and
    the lines reported on [std::cerr]. *)
Definition load_line (SEP : str) (line : str) (st : std_map * list str)
    : result (std_map * list str) :=
  let (map_fill, cerr) := st in
  if ignoreLine line then Ok st
  else
    match tokenizeSingleCharDelim line [] SEP 2 false with
    | None => OutOfFuel
    | Some [] => Undefined                (* *field_it++ at fields.end() *)
    | Some (first :: behind) =>
        match lexical_cast first with
        | None => Ok (map_fill, cerr ++ [line])
        | Some key =>
            match behind with
            | [] => Undefined             (* *field_it at fields.end() *)
            | second :: _ =>
                match lexical_cast second with
                | None => Ok (map_fill, cerr ++ [line])
                | Some value => Ok (std_map_insert map_fill key value, cerr)
                end
            end
        end
    end.

Fixpoint load_lines (SEP : str) (lines : list str) (st : std_map * list str)
    : result (std_map * list str) :=
  match lines with
  | [] => Ok st
  | line :: lines' => st' <- load_line SEP line st ;; load_lines SEP lines' st'
  end.

(** [loadMapFromFile( filename, map_fill, SEP )] on a file that holds
    [content]. *)
Definition loadMapFromFile (content : str) (map_fill : std_map) (SEP : str)
    : result (std_map * list str) :=
  load_lines SEP (getlines content []) (map_fill, []).

End LoadMap.

End UtilsFile.

(** ** Interfaces the engine is written against *)

(** The widths of the integer types of [types.hh], which is not among the
    sources: parameters. *)
Class Types := {
  small_unsigned_int_max : nat;
  large_unsigned_int_modulus : Z;
}.

(** [TaxonomyInterface]; [node] stands for [const TaxonNode*]. *)
Class TaxonomyInterface (node : Type) := {
  node_eq_dec : forall a b : node, {a = b} + {a <> b};
  getRoot : node;
  getLCA : node -> node -> node;
  isParentOf : node -> node -> bool;
  root_pathlength : node -> nat;
}.

(** What the specification promises about the interface. *)
Class TaxonomyLaws (node : Type) `{TaxonomyInterface node} : Prop := {
  isParentOf_refl : forall a, isParentOf a a = true;
  isParentOf_trans : forall a b c,
    isParentOf a b = true -> isParentOf b c = true -> isParentOf a c = true;
  isParentOf_root : forall a, isParentOf getRoot a = true;
  getLCA_left : forall a b, isParentOf (getLCA a b) a = true;
  getLCA_right : forall a b, isParentOf (getLCA a b) b = true;
  getLCA_lowest : forall a b c,
    isParentOf c a = true -> isParentOf c b = true ->
    isParentOf c (getLCA a b) = true;
}.

(** Sequences, the aligner ([seqan::globalAlignmentScore] with
    [MyersBitVector]) and the two sequence stores. *)
Class Sequences (Seq : Type) := {
  seq_length : Seq -> Z;
  globalAlignmentScore : Seq -> Seq -> Z;
  query_getSequence : string -> Z -> Z -> option Seq;
  db_getSequence : string -> Z -> Z -> option Seq;
  db_getSequenceReverseComplement : string -> Z -> Z -> option Seq;
}.

Definition fetch {A} (o : option A) : result A :=
  match o with
  | Some a => Ok a
  | None => Failed
  end.

(** ** Records *)

Record AlignmentRecordTaxonomy (node : Type) := {
  getQueryStart : Z;
  getQueryStop : Z;
  getReferenceIdentifier : string;
  getReferenceStart : Z;
  getReferenceStop : Z;
  getScore : float;
  getIdentities : Z;
  getAlignmentLength : Z;
  getReferenceNode : node;
  isFiltered : bool;
}.
Arguments getQueryStart {node} _.
Arguments getQueryStop {node} _.
Arguments getReferenceIdentifier {node} _.
Arguments getReferenceStart {node} _.
Arguments getReferenceStop {node} _.
Arguments getScore {node} _.
Arguments getIdentities {node} _.
Arguments getAlignmentLength {node} _.
Arguments getReferenceNode {node} _.
Arguments isFiltered {node} _.

Definition filterOut {node} (r : AlignmentRecordTaxonomy node) :=
  {| getQueryStart := getQueryStart r;
     getQueryStop := getQueryStop r;
     getReferenceIdentifier := getReferenceIdentifier r;
     getReferenceStart := getReferenceStart r;
     getReferenceStop := getReferenceStop r;
     getScore := getScore r;
     getIdentities := getIdentities r;
     getAlignmentLength := getAlignmentLength r;
     getReferenceNode := getReferenceNode r;
     isFiltered := true |}.

(** Modelled from the spec: [PredictionRecord] is declared outside the
    sources at hand; its attributes are those of the data model, written
    through the setters [predict] calls.  A node that was never set is
    [None]. *)
Record PredictionRecord (node : Type) := {
  getQueryIdentifier : string;
  getQueryLength : Z;
  getQueryFeatureBegin : Z;
  getQueryFeatureEnd : Z;
  getLowerNode : option node;
  getUpperNode : option node;
  getBestReferenceTaxon : option node;
  getInterpolationValue : float;
  getSignalStrength : float;
  getAnchorsSupport : Z;
}.
Arguments getQueryIdentifier {node} _.
Arguments getQueryLength {node} _.
Arguments getQueryFeatureBegin {node} _.
Arguments getQueryFeatureEnd {node} _.
Arguments getLowerNode {node} _.
Arguments getUpperNode {node} _.
Arguments getBestReferenceTaxon {node} _.
Arguments getInterpolationValue {node} _.
Arguments getSignalStrength {node} _.
Arguments getAnchorsSupport {node} _.

Section Setters.
Context {node : Type}.
Let prec := PredictionRecord node.

Definition setQueryFeatureBegin (p : prec) (v : Z) : prec :=
  {| getQueryIdentifier := getQueryIdentifier p; getQueryLength := getQueryLength p;
     getQueryFeatureBegin := v; getQueryFeatureEnd := getQueryFeatureEnd p;
     getLowerNode := getLowerNode p; getUpperNode := getUpperNode p;
     getBestReferenceTaxon := getBestReferenceTaxon p;
     getInterpolationValue := getInterpolationValue p;
     getSignalStrength := getSignalStrength p;
     getAnchorsSupport := getAnchorsSupport p |}.

Definition setQueryFeatureEnd (p : prec) (v : Z) : prec :=
  {| getQueryIdentifier := getQueryIdentifier p; getQueryLength := getQueryLength p;
     getQueryFeatureBegin := getQueryFeatureBegin p; getQueryFeatureEnd := v;
     getLowerNode := getLowerNode p; getUpperNode := getUpperNode p;
     getBestReferenceTaxon := getBestReferenceTaxon p;
     getInterpolationValue := getInterpolationValue p;
     getSignalStrength := getSignalStrength p;
     getAnchorsSupport := getAnchorsSupport p |}.

Definition setInterpolationValue (p : prec) (v : float) : prec :=
  {| getQueryIdentifier := getQueryIdentifier p; getQueryLength := getQueryLength p;
     getQueryFeatureBegin := getQueryFeatureBegin p;
     getQueryFeatureEnd := getQueryFeatureEnd p;
     getLowerNode := getLowerNode p; getUpperNode := getUpperNode p;
     getBestReferenceTaxon := getBestReferenceTaxon p;
     getInterpolationValue := v;
     getSignalStrength := getSignalStrength p;
     getAnchorsSupport := getAnchorsSupport p |}.

Definition setSignalStrength (p : prec) (v : float) : prec :=
  {| getQueryIdentifier := getQueryIdentifier p; getQueryLength := getQueryLength p;
     getQueryFeatureBegin := getQueryFeatureBegin p;
     getQueryFeatureEnd := getQueryFeatureEnd p;
     getLowerNode := getLowerNode p; getUpperNode := getUpperNode p;
     getBestReferenceTaxon := getBestReferenceTaxon p;
     getInterpolationValue := getInterpolationValue p;
     getSignalStrength := v;
     getAnchorsSupport := getAnchorsSupport p |}.

Definition setNodeRange (p : prec) (lower upper : node) (support : Z) : prec :=
  {| getQueryIdentifier := getQueryIdentifier p; getQueryLength := getQueryLength p;
     getQueryFeatureBegin := getQueryFeatureBegin p;
     getQueryFeatureEnd := getQueryFeatureEnd p;
     getLowerNode := Some lower; getUpperNode := Some upper;
     getBestReferenceTaxon := getBestReferenceTaxon p;
     getInterpolationValue := getInterpolationValue p;
     getSignalStrength := getSignalStrength p;
     getAnchorsSupport := support |}.

Definition setBestReferenceTaxon (p : prec) (n : node) : prec :=
  {| getQueryIdentifier := getQueryIdentifier p; getQueryLength := getQueryLength p;
     getQueryFeatureBegin := getQueryFeatureBegin p;
     getQueryFeatureEnd := getQueryFeatureEnd p;
     getLowerNode := getLowerNode p; getUpperNode := getUpperNode p;
     getBestReferenceTaxon := Some n;
     getInterpolationValue := getInterpolationValue p;
     getSignalStrength := getSignalStrength p;
     getAnchorsSupport := getAnchorsSupport p |}.

End Setters.

(** The members of the base class [TaxonPredictionModel] that [predict]
    calls and that are defined outside the sources at hand. *)
Class PredictionModelBase (node : Type) := {
  initPredictionRecord :
    list (AlignmentRecordTaxonomy node) -> PredictionRecord node -> PredictionRecord node;
  setUnclassified : PredictionRecord node -> PredictionRecord node;
}.

(** ** BandFactor *)

Section BandFactor.
Context {node : Type} `{TaxonomyInterface node}.

(** [std::map< small_unsigned_int, int >]: the binding found for a key is
    the one written last. *)
Definition rank_map := list (nat * Z).

Definition map_set (m : rank_map) (k : nat) (v : Z) : rank_map := (k, v) :: m.

Fixpoint map_find (m : rank_map) (k : nat) : option Z :=
  match m with
  | [] => None
  | (k', v) :: m' => if (k =? k')%nat then Some v else map_find m' k
  end.

(** The [do { ... } while (r--)] of the disorder branch: ranks [r], [r-1],
    ..., [0]. *)
Fixpoint disorder (worstscore_per_rank : rank_map) (score : Z) (r : nat)
    (bandfactor : float) : float :=
  let bandfactor' :=
    match map_find worstscore_per_rank r with
    | Some refscore =>
        if refscore =? 0 then bandfactor
        else fmax bandfactor (float_of_int score / float_of_int refscore)%Q
    | None => bandfactor
    end in
  match r with
  | O => bandfactor'
  | S r' => disorder worstscore_per_rank score r' bandfactor'
  end.

(** The [for] loop of [setBandFactor] over [data_[1..]]. *)
Fixpoint band_loop (anchor : node) (data : list (Z * node))
    (worstscore_per_rank : rank_map) (last_rank : nat) (bandfactor : float)
    : float :=
  match data with
  | [] => bandfactor
  | (score, n) :: data' =>
      let rank := root_pathlength (getLCA n anchor) in
      if (rank =? last_rank)%nat then
        band_loop anchor data' worstscore_per_rank last_rank bandfactor
      else if (rank <? last_rank)%nat then
        band_loop anchor data' (map_set worstscore_per_rank rank score) rank
          bandfactor
      else
        band_loop anchor data' worstscore_per_rank last_rank
          (disorder worstscore_per_rank score (rank - 1) bandfactor)
  end.

Definition min_bandfactor : float := 1%Q.
Definition max_bandfactor : float := float_of_int INT_MAX.

(** [setBandFactor()]; [data_[0]] on an empty vector is undefined. *)
Definition setBandFactor (data : list (Z * node)) : result float :=
  match data with
  | [] => Undefined
  | (score, anchor) :: rest =>
      let last_rank := root_pathlength anchor in
      let bandfactor :=
        band_loop anchor rest (map_set [] last_rank score) last_rank
          min_bandfactor in
      Ok (fmin bandfactor max_bandfactor)
  end.

(** [sort()]: every entry but the first, by increasing score.  [std::sort]
    leaves the order of entries of equal score open; this is the stable
    order. *)
Fixpoint insert_by_score (x : Z * node) (l : list (Z * node)) : list (Z * node) :=
  match l with
  | [] => [x]
  | y :: l' => if fst y <? fst x then y :: insert_by_score x l' else x :: l
  end.

Definition sort_by_score (l : list (Z * node)) : list (Z * node) :=
  fold_right insert_by_score [] l.

Definition sort (data : list (Z * node)) : list (Z * node) :=
  match data with
  | [] => []
  | first :: rest => first :: sort_by_score rest
  end.

(** [addSequence(score, node)]. *)
Definition addSequence (data : list (Z * node)) (score : Z) (n : node) :=
  data ++ [(score, n)].

(** [getFactor()] on a freshly filled accumulator ([bandfactor_] is still
    [-1]). *)
Definition getFactor (data : list (Z * node)) : result float :=
  setBandFactor (sort data).

End BandFactor.

(** ** BandFactor as an object

    The accumulator with the factor it keeps once computed: [bandfactor_]
    is [-1] until [getFactor] is called for the first time. *)

Module BandFactorObject.
Section Object.
Context {node : Type} `{TaxonomyInterface node}.

Record BandFactor := {
  bandfactor_ : float;
  data_ : list (Z * node);
}.

(** The constructor; [reserve] has no effect that can be observed. *)
Definition init : BandFactor := {| bandfactor_ := (-1)%Q; data_ := [] |}.

Definition addSequence (b : BandFactor) (score : Z) (n : node) : BandFactor :=
  {| bandfactor_ := bandfactor_ b; data_ := data_ b ++ [(score, n)] |}.

(** [getFactor()]: [sort()] and [setBandFactor()] when [bandfactor_ < 0],
    and then the member. *)
Definition getFactor (b : BandFactor) : result (float * BandFactor) :=
  if flt (bandfactor_ b) 0%Q then
    let data := sort (data_ b) in
    bandfactor <- setBandFactor data ;;
    Ok (bandfactor, {| bandfactor_ := bandfactor; data_ := data |})
  else Ok (bandfactor_ b, b).

(** A run of [addSequence] calls. *)
Definition addSequences (b : BandFactor) (entries : list (Z * node)) : BandFactor :=
  fold_left (fun b e => addSequence b (fst e) (snd e)) entries b.

End Object.
End BandFactorObject.

(** ** RPAPredictionModel::predict *)

Section Predict.
Context {node Seq : Type} `{Types} `{TaxonomyInterface node} `{Sequences Seq}
        `{PredictionModelBase node}.

Let record := AlignmentRecordTaxonomy node.
Let prec := PredictionRecord node.

(** The two configuration values held by the model;
    [reeval_bandwidth_factor_] is [1 - reeval_bandwidth]. *)
Variable exclude_alignments_factor_ : float.
Variable reeval_bandwidth_factor_ : float.

Definition to_large (z : Z) : Z := z mod large_unsigned_int_modulus.

(** *** Best local score and number of unmasked records *)

Fixpoint count_unmasked (recordset : list record) (n : nat) (qmaxscore : float)
    : nat * float :=
  match recordset with
  | [] => (n, qmaxscore)
  | r :: rs =>
      if isFiltered r then count_unmasked rs n qmaxscore
      else count_unmasked rs (S n) (fmax qmaxscore (getScore r))
  end.

(** *** Score screening: [filterOut] below the threshold, [--n] *)

Fixpoint exclude_alignments (threshold : float) (recordset : list record)
    (n : nat) : list record * nat :=
  match recordset with
  | [] => ([], n)
  | r :: rs =>
      if negb (isFiltered r) && flt (getScore r) threshold then
        let (rs', n') := exclude_alignments threshold rs (Nat.pred n) in
        (filterOut r :: rs', n')
      else
        let (rs', n') := exclude_alignments threshold rs n in
        (r :: rs', n')
  end.

(** The screening block as a whole: the recordset after it, [n] and
    [qmaxscore]. *)
Definition screen (recordset : list record) : list record * nat * float :=
  let (n, qmaxscore) := count_unmasked recordset 0%nat 0%Q in
  let threshold := (qmaxscore * exclude_alignments_factor_)%Q in
  let (recordset', n') := exclude_alignments threshold recordset n in
  (recordset', n', qmaxscore).

(** Modelled from the spec: [firstUnmaskedIter] belongs to the base class
    and is missing from the sources; it is the iterator to the first record
    that is not filtered.  The result here is that record and the records
    behind it. *)
Fixpoint firstUnmaskedIter (recordset : list record)
    : option (record * list record) :=
  match recordset with
  | [] => None
  | r :: rs => if isFiltered r then firstUnmaskedIter rs else Some (r, rs)
  end.

(** *** Query range over the unmasked records behind the first *)

Fixpoint query_range (rs : list record) (qrstart qrstop : Z) : Z * Z :=
  match rs with
  | [] => (qrstart, qrstop)
  | r :: rs' =>
      if isFiltered r then query_range rs' qrstart qrstop
      else query_range rs' (Z.min (getQueryStart r) qrstart)
                           (Z.max (getQueryStop r) qrstop)
  end.

(** *** Retrieval of the reference segments *)

Definition retrieve_segment (qrstart qrstop : Z) (rec : record) : result Seq :=
  let rid := getReferenceIdentifier rec in
  let rstart := getReferenceStart rec in
  let rstop := getReferenceStop rec in
  let left_ext := to_large (getQueryStart rec - qrstart) in
  let right_ext := to_large (qrstop - getQueryStop rec) in
  if rstart <=? rstop then
    let start := if left_ext <? rstart then to_large (rstart - left_ext) else 1 in
    let stop := to_large (rstop + right_ext) in
    fetch (db_getSequence rid start stop)
  else
    let start := if right_ext <? rstop then to_large (rstop - right_ext) else 1 in
    let stop := to_large (rstart + left_ext) in
    fetch (db_getSequenceReverseComplement rid start stop).

Fixpoint retrieve_segments (qrstart qrstop : Z) (recordset : list record)
    : result (list record * list Seq) :=
  match recordset with
  | [] => Ok ([], [])
  | r :: rs =>
      if isFiltered r then retrieve_segments qrstart qrstop rs
      else
        s <- retrieve_segment qrstart qrstop r ;;
        ' (records_ordered, rrseqs_ordered) <- retrieve_segments qrstart qrstop rs ;;
        Ok (r :: records_ordered, s :: rrseqs_ordered)
  end.

(** [-seqan::globalAlignmentScore(a, b, MyersBitVector())] stored in an
    [int]. *)
Definition edit_score (a b : Seq) : Z := to_int (- globalAlignmentScore a b).

(** [std::max(length(a), length(b)) - score], a [size_t]. *)
Definition length_minus_score (a b : Seq) (score : Z) : Z :=
  to_size (Z.max (seq_length a) (seq_length b) - score).

(** *** Pass 0: re-alignment to the most similar reference segments *)

Record pass0_state := {
  p0_qgroup : list nat;
  p0_qscores : list Z;
  p0_matches : list Z;
  p0_index_best : nat;
  p0_anchors_support : Z;
  p0_lca_allnodes : node;
  p0_counter : nat;
}.

(** The three ways record [i] gets its score and matches; with them the
    new [qgroup] and [pass_0_counter]. *)
Definition pass0_score (qrseq : Seq) (qrlength : Z) (threshold : float)
    (rrseqs_ordered : list Seq) (i : nat) (rec : record) (st : pass0_state)
    : result (list nat * Z * Z * nat) :=
  if (getAlignmentLength rec =? qrlength) && (getIdentities rec =? qrlength)
  then Ok (set_insert i (p0_qgroup st), 0, getIdentities rec, p0_counter st)
  else if fle threshold (getScore rec) then
    rr <- idx rrseqs_ordered i ;;
    let score := edit_score rr qrseq in
    Ok (set_insert i (p0_qgroup st), score,
        Z.max (to_large (length_minus_score rr qrseq score)) (getIdentities rec),
        S (p0_counter st))
  else Ok (p0_qgroup st, INT_MAX, 0, p0_counter st).

Definition pass0_body (qrseq : Seq) (qrlength : Z) (threshold : float)
    (records_ordered : list record) (rrseqs_ordered : list Seq)
    (i : nat) (st : pass0_state) : result pass0_state :=
  rec <- idx records_ordered i ;;
  ' (qgroup, score, matches, counter) <-
    pass0_score qrseq qrlength threshold rrseqs_ordered i rec st ;;
  let qscores := p0_qscores st ++ [score] in
  let rmatches := p0_matches st ++ [matches] in
  best_score <- idx qscores (p0_index_best st) ;;
  best_matches <- idx rmatches (p0_index_best st) ;;
  let index_best :=
    if (score <? best_score) || ((score =? best_score) && (best_matches <? matches))
    then i else p0_index_best st in
  Ok {| p0_qgroup := qgroup;
        p0_qscores := qscores;
        p0_matches := rmatches;
        p0_index_best := index_best;
        p0_anchors_support := Z.max (p0_anchors_support st) matches;
        p0_lca_allnodes := getLCA (p0_lca_allnodes st) (getReferenceNode rec);
        p0_counter := counter |}.

(** [for (uint i = 0; i < n; ++i)], with [k = n - i] iterations to go. *)
Fixpoint pass0_loop (qrseq : Seq) (qrlength : Z) (threshold : float)
    (records_ordered : list record) (rrseqs_ordered : list Seq)
    (k i : nat) (st : pass0_state) : result pass0_state :=
  match k with
  | O => Ok st
  | S k' =>
      st' <- pass0_body qrseq qrlength threshold records_ordered rrseqs_ordered i st ;;
      pass0_loop qrseq qrlength threshold records_ordered rrseqs_ordered k' (S i) st'
  end.

(** Only the best-scoring references stay in [qgroup]; [rtax] is their
    common ancestor. *)
Fixpoint keep_best (records_ordered : list record) (qscores rmatches : list Z)
    (index_best : nat) (qgroup : list nat) (rtax : node)
    : result (list nat * node) :=
  match qgroup with
  | [] => Ok ([], rtax)
  | it :: rest =>
      s <- idx qscores it ;;
      sb <- idx qscores index_best ;;
      m <- idx rmatches it ;;
      mb <- idx rmatches index_best ;;
      if negb (s =? sb) || negb (m =? mb) then
        keep_best records_ordered qscores rmatches index_best rest rtax
      else
        rec <- idx records_ordered it ;;
        ' (kept, rtax') <- keep_best records_ordered qscores rmatches index_best
                            rest (getLCA rtax (getReferenceNode rec)) ;;
        Ok (it :: kept, rtax')
  end.

Record pass0_result := {
  r0_qgroup : list nat;
  r0_qscores : list Z;
  r0_matches : list Z;
  r0_anchors_support : Z;
  r0_lca_allnodes : node;
  r0_rtax : node;
  r0_counter : nat;
}.

Definition pass0 (n : nat) (qmaxscore : float) (qrseq : Seq) (qrlength : Z)
    (records_ordered : list record) (rrseqs_ordered : list Seq)
    : result pass0_result :=
  front <- idx records_ordered 0 ;;
  let dbalignment_score_threshold := (reeval_bandwidth_factor_ * qmaxscore)%Q in
  st <- pass0_loop qrseq qrlength dbalignment_score_threshold records_ordered
          rrseqs_ordered n 0
          {| p0_qgroup := []; p0_qscores := []; p0_matches := [];
             p0_index_best := 0; p0_anchors_support := 0;
             p0_lca_allnodes := getReferenceNode front; p0_counter := 0 |} ;;
  best <- idx records_ordered (p0_index_best st) ;;
  ' (qgroup, rtax) <- keep_best records_ordered (p0_qscores st) (p0_matches st)
                        (p0_index_best st) (p0_qgroup st) (getReferenceNode best) ;;
  match qgroup with
  | [] => AssertionFailed
  | _ :: _ =>
      Ok {| r0_qgroup := qgroup;
            r0_qscores := p0_qscores st;
            r0_matches := p0_matches st;
            r0_anchors_support := p0_anchors_support st;
            r0_lca_allnodes := p0_lca_allnodes st;
            r0_rtax := rtax;
            r0_counter := p0_counter st |}
  end.

(** *** Pass 1: alignments against the best references *)

(** What one anchor's alignment loop works on. *)
Record anchor_state := {
  a_bandfactor1 : list (Z * node);      (* data_ of the BandFactor object *)
  a_lnode : node;
  a_lscore : Z;
  a_uscore : Z;
  a_outgroup_tmp : list (nat * Z);
  a_qgroup : list nat;
  a_qscores : list Z;
  a_matches : list Z;
  a_counter : nat;                      (* pass_1_counter *)
}.

(** The score of record [i] against the anchor: zero for the anchor
    itself, reused when both are identical to the query, else computed (and
    then adopted as query score when the anchor is identical to the query);
    with it the two vectors and [pass_1_counter]. *)
Definition pass1_score (rrseqs_ordered : list Seq) (index_anchor : nat)
    (i : nat) (st : anchor_state) : result (Z * list Z * list Z * nat) :=
  if (i =? index_anchor)%nat
  then Ok (0, a_qscores st, a_matches st, a_counter st)
  else
    qi <- idx (a_qscores st) i ;;
    qa <- idx (a_qscores st) index_anchor ;;
    if (qi =? 0) && (qa =? 0)
    then Ok (qi, a_qscores st, a_matches st, a_counter st)
    else
      si <- idx rrseqs_ordered i ;;
      sa <- idx rrseqs_ordered index_anchor ;;
      let score := edit_score si sa in
      let matches := to_int (length_minus_score si sa score) in
      mi <- idx (a_matches st) i ;;
      if (qa =? 0) && negb (mi =? 0)
      then Ok (score, upd (a_qscores st) i score,
               upd (a_matches st) i (to_large matches), S (a_counter st))
      else Ok (score, a_qscores st, a_matches st, S (a_counter st)).

(** The body of the loop for record [i]. *)
Definition pass1_align_body (records_ordered : list record)
    (rrseqs_ordered : list Seq) (index_anchor : nat) (qscore : Z)
    (i : nat) (st : anchor_state) : result anchor_state :=
  rec <- idx records_ordered i ;;
  let cnode := getReferenceNode rec in
  ' (score, qscores, rmatches, counter) <-
    pass1_score rrseqs_ordered index_anchor i st ;;
  let bandfactor1 := addSequence (a_bandfactor1 st) score cnode in
  if score =? 0 then
    Ok {| a_bandfactor1 := bandfactor1;
          a_lnode := a_lnode st; a_lscore := a_lscore st; a_uscore := a_uscore st;
          a_outgroup_tmp := a_outgroup_tmp st;
          a_qgroup := set_erase i (a_qgroup st);
          a_qscores := qscores; a_matches := rmatches; a_counter := counter |}
  else if score <=? qscore then
    Ok {| a_bandfactor1 := bandfactor1;
          a_lnode := getLCA (a_lnode st) cnode;
          a_lscore := if a_lscore st <? score then score else a_lscore st;
          a_uscore := a_uscore st;
          a_outgroup_tmp := a_outgroup_tmp st;
          a_qgroup := a_qgroup st;
          a_qscores := qscores; a_matches := rmatches; a_counter := counter |}
  else
    Ok {| a_bandfactor1 := bandfactor1;
          a_lnode := a_lnode st; a_lscore := a_lscore st;
          a_uscore := if score <? a_uscore st then score else a_uscore st;
          a_outgroup_tmp := a_outgroup_tmp st ++ [(i, score)];
          a_qgroup := a_qgroup st;
          a_qscores := qscores; a_matches := rmatches; a_counter := counter |}.

(** [for(uint i = n; lnode != getRoot() && i-- > 0;)]. *)
Fixpoint pass1_align (records_ordered : list record) (rrseqs_ordered : list Seq)
    (index_anchor : nat) (qscore : Z) (i : nat) (st : anchor_state)
    : result anchor_state :=
  if node_eq_dec (a_lnode st) getRoot then Ok st
  else
    match i with
    | O => Ok st
    | S i' =>
        st' <- pass1_align_body records_ordered rrseqs_ordered index_anchor
                 qscore i' st ;;
        pass1_align records_ordered rrseqs_ordered index_anchor qscore i' st'
    end.

(** The first walk over [outgroup_tmp]: entries are erased or kept while
    [min_upper_score] is settled. *)
Fixpoint settle_min_upper_score (qscore_ex : Z) (outgroup_tmp : list (nat * Z))
    (min_upper_score : Z) : list (nat * Z) * Z :=
  match outgroup_tmp with
  | [] => ([], min_upper_score)
  | (i, score) :: rest =>
      if qscore_ex <? score then
        if min_upper_score <? score then
          settle_min_upper_score qscore_ex rest min_upper_score
        else
          let mus := if score <? min_upper_score then score else min_upper_score in
          let (kept, mus') := settle_min_upper_score qscore_ex rest mus in
          ((i, score) :: kept, mus')
      else
        let mus := if qscore_ex <? min_upper_score then score
                   else Z.max min_upper_score score in
        let (kept, mus') := settle_min_upper_score qscore_ex rest mus in
        ((i, score) :: kept, mus')
  end.

(** The second walk: the upper node and the minimal outgroup. *)
Fixpoint push_outgroup (records_ordered : list record) (rtax : node)
    (min_upper_score : Z) (outgroup_tmp : list (nat * Z))
    (unode : option node) (outgroup : list nat) (lca_root_dist_min : nat)
    : result (option node * list nat * nat) :=
  match outgroup_tmp with
  | [] => Ok (unode, outgroup, lca_root_dist_min)
  | (i, score) :: rest =>
      rec <- idx records_ordered i ;;
      let cnode := getReferenceNode rec in
      if min_upper_score <? score then
        push_outgroup records_ordered rtax min_upper_score rest unode outgroup
          lca_root_dist_min
      else
        match unode with
        | None => Undefined      (* getLCA(cnode, NULL) *)
        | Some u =>
            let unode' := Some (getLCA cnode u) in
            let lca_root_dist := root_pathlength (getLCA cnode rtax) in
            if (lca_root_dist_min <? lca_root_dist)%nat then
              push_outgroup records_ordered rtax min_upper_score rest unode'
                outgroup lca_root_dist_min
            else if (lca_root_dist <? lca_root_dist_min)%nat then
              push_outgroup records_ordered rtax min_upper_score rest unode'
                (set_insert i []) lca_root_dist
            else
              push_outgroup records_ordered rtax min_upper_score rest unode'
                (set_insert i outgroup) lca_root_dist_min
        end
  end.

Record pass1_state := {
  p1_qgroup : list nat;
  p1_qscores : list Z;
  p1_matches : list Z;
  p1_outgroup : list nat;
  p1_lca_root_dist_min : nat;
  p1_ival_global : float;
  p1_anchors_taxsig : float;
  p1_lnode_global : node;
  p1_unode_global : node;
  p1_bandfactor_max : float;
  p1_counter : nat;
}.

(** The state an anchor's alignment loop starts from: the accumulator
    holds the anchor with score 0, the lower node is [rtax]. *)
Definition anchor_start (rtax rnode : node) (qgroup : list nat)
    (qscores rmatches : list Z) (counter : nat) : anchor_state :=
  {| a_bandfactor1 := addSequence [] 0 rnode;
     a_lnode := rtax; a_lscore := 0; a_uscore := INT_MAX;
     a_outgroup_tmp := [];
     a_qgroup := qgroup;
     a_qscores := qscores; a_matches := rmatches;
     a_counter := counter |}.

(** One turn of the [do { ... } while] of pass 1. *)
Definition pass1_anchor (n : nat) (records_ordered : list record)
    (rrseqs_ordered : list Seq) (rtax : node) (st : pass1_state)
    : result pass1_state :=
  match p1_qgroup st with
  | [] => Undefined              (* *qgroup.begin() on an empty set *)
  | index_anchor :: qgroup =>
      qscore <- idx (p1_qscores st) index_anchor ;;
      anchor <- idx records_ordered index_anchor ;;
      let rnode := getReferenceNode anchor in
      a <- pass1_align records_ordered rrseqs_ordered index_anchor qscore n
             (anchor_start rtax rnode qgroup (p1_qscores st) (p1_matches st)
                (p1_counter st)) ;;
      bandfactor <- getFactor (a_bandfactor1 a) ;;
      let bandfactor_max := fmax (p1_bandfactor_max st) bandfactor in
      qscore_ex <- float_to_int (float_of_int qscore * bandfactor)%Q ;;
      let (outgroup_tmp, min_upper_score) :=
        settle_min_upper_score qscore_ex (a_outgroup_tmp a) INT_MAX in
      let lnode := a_lnode a in
      let lscore := a_lscore a in
      let unode0 := if min_upper_score =? INT_MAX then None else Some lnode in
      ' (unode1, outgroup, lca_root_dist_min) <-
        push_outgroup records_ordered rtax min_upper_score outgroup_tmp unode0
          (p1_outgroup st) (p1_lca_root_dist_min st) ;;
      let '(unode, uscore, ival) :=
        match unode1 with
        | None => (getRoot, -1, 1%Q)
        | Some u =>
            if (if node_eq_dec u lnode then false else true) && (lscore <? qscore)
            then (u, a_uscore a,
                  (float_of_int (to_int (qscore - lscore))
                   / float_of_int (to_int (a_uscore a - lscore)))%Q)
            else (u, a_uscore a, 0%Q)
        end in
      let taxsig := 0%Q in
      Ok {| p1_qgroup := a_qgroup a;
            p1_qscores := a_qscores a;
            p1_matches := a_matches a;
            p1_outgroup := outgroup;
            p1_lca_root_dist_min := lca_root_dist_min;
            p1_ival_global := fmax ival (p1_ival_global st);
            p1_anchors_taxsig := fmin taxsig (p1_anchors_taxsig st);
            p1_lnode_global := getLCA (p1_lnode_global st) lnode;
            p1_unode_global := getLCA (p1_unode_global st) unode;
            p1_bandfactor_max := bandfactor_max;
            p1_counter := a_counter a |}
  end.

(** [do { ... } while (! qgroup.empty() && lnode_global != getRoot())]. *)
Fixpoint pass1_loop (fuel : nat) (n : nat) (records_ordered : list record)
    (rrseqs_ordered : list Seq) (rtax : node) (st : pass1_state)
    : result pass1_state :=
  match fuel with
  | O => OutOfFuel
  | S fuel' =>
      st' <- pass1_anchor n records_ordered rrseqs_ordered rtax st ;;
      match p1_qgroup st' with
      | [] => Ok st'
      | _ :: _ =>
          if node_eq_dec (p1_lnode_global st') getRoot then Ok st'
          else pass1_loop fuel' n records_ordered rrseqs_ordered rtax st'
      end
  end.

(** *** Pass 2: stable upper node estimation *)

Record pass2_state := {
  p2_outgroup : list nat;
  p2_qscores : list Z;
  p2_matches : list Z;
  p2_unode_global : node;
  p2_counter : nat;
}.

(** The score of record [i] against the anchor in pass 2: zero for the
    anchor, [INT_MAX] without alignment below the upper node, else
    computed and stored. *)
Definition pass2_score (rrseqs_ordered : list Seq) (index_anchor : nat)
    (i : nat) (cnode : node) (st : pass2_state) : result (Z * list Z * nat) :=
  if (i =? index_anchor)%nat then Ok (0, p2_qscores st, p2_counter st)
  else if isParentOf (p2_unode_global st) cnode
          || (if node_eq_dec cnode (p2_unode_global st) then true else false)
  then Ok (INT_MAX, p2_qscores st, p2_counter st)
  else
    si <- idx rrseqs_ordered i ;;
    sa <- idx rrseqs_ordered index_anchor ;;
    let score := edit_score si sa in
    Ok (score, upd (p2_qscores st) i score, S (p2_counter st)).

Definition pass2_align_body (records_ordered : list record)
    (rrseqs_ordered : list Seq) (index_anchor : nat) (qscore_ex : Z)
    (i : nat) (st : pass2_state) : result pass2_state :=
  rec <- idx records_ordered i ;;
  let cnode := getReferenceNode rec in
  ' (score, qscores, counter) <-
    pass2_score rrseqs_ordered index_anchor i cnode st ;;
  let outgroup := if score =? 0 then set_erase i (p2_outgroup st)
                  else p2_outgroup st in
  let unode_global := if score <=? qscore_ex
                      then getLCA (p2_unode_global st) cnode
                      else p2_unode_global st in
  Ok {| p2_outgroup := outgroup; p2_qscores := qscores;
        p2_matches := p2_matches st; p2_unode_global := unode_global;
        p2_counter := counter |}.

(** [for (uint i = 0; i < n; ++i)], with [k = n - i] iterations to go. *)
Fixpoint pass2_align (records_ordered : list record) (rrseqs_ordered : list Seq)
    (index_anchor : nat) (qscore_ex : Z) (k i : nat) (st : pass2_state)
    : result pass2_state :=
  match k with
  | O => Ok st
  | S k' =>
      st' <- pass2_align_body records_ordered rrseqs_ordered index_anchor
               qscore_ex i st ;;
      pass2_align records_ordered rrseqs_ordered index_anchor qscore_ex k' (S i) st'
  end.

(** [if (!rrseqs_matches[index_anchor])]: the anchor was not aligned to the
    query in pass 0, so this is done now. *)
Definition pass2_align_query (qrseq : Seq) (rrseqs_ordered : list Seq)
    (index_anchor : nat) (st : pass2_state) : result pass2_state :=
  m <- idx (p2_matches st) index_anchor ;;
  if m =? 0 then
    sa <- idx rrseqs_ordered index_anchor ;;
    let score := edit_score sa qrseq in
    let matches := to_int (length_minus_score sa qrseq score) in
    Ok {| p2_outgroup := p2_outgroup st;
          p2_qscores := upd (p2_qscores st) index_anchor score;
          p2_matches := upd (p2_matches st) index_anchor (to_large matches);
          p2_unode_global := p2_unode_global st;
          p2_counter := S (p2_counter st) |}
  else Ok st.

(** One turn of [while (! outgroup.empty())]; [st] is the state after the
    anchor was taken out of [outgroup]. *)
Definition pass2_anchor (n : nat) (qrseq : Seq) (records_ordered : list record)
    (rrseqs_ordered : list Seq) (lca_allnodes : node) (bandfactor_max : float)
    (index_anchor : nat) (st : pass2_state) : result pass2_state :=
  if node_eq_dec (p2_unode_global st) lca_allnodes then Ok st
  else
    st1 <- pass2_align_query qrseq rrseqs_ordered index_anchor st ;;
    qscore <- idx (p2_qscores st1) index_anchor ;;
    qscore_ex <- float_to_int (float_of_int qscore * bandfactor_max)%Q ;;
    pass2_align records_ordered rrseqs_ordered index_anchor qscore_ex n 0 st1.

Fixpoint pass2_loop (fuel : nat) (n : nat) (qrseq : Seq)
    (records_ordered : list record) (rrseqs_ordered : list Seq)
    (lca_allnodes : node) (bandfactor_max : float) (st : pass2_state)
    : result pass2_state :=
  match p2_outgroup st with
  | [] => Ok st
  | index_anchor :: outgroup =>
      match fuel with
      | O => OutOfFuel
      | S fuel' =>
          st' <- pass2_anchor n qrseq records_ordered rrseqs_ordered lca_allnodes
                   bandfactor_max index_anchor
                   {| p2_outgroup := outgroup; p2_qscores := p2_qscores st;
                      p2_matches := p2_matches st;
                      p2_unode_global := p2_unode_global st;
                      p2_counter := p2_counter st |} ;;
          pass2_loop fuel' n qrseq records_ordered rrseqs_ordered lca_allnodes
            bandfactor_max st'
      end
  end.

(** *** The whole of [predict] *)

(** The values pass 1 starts from: lower and upper node are [rtax]. *)
Definition pass1_start (r0 : pass0_result) : pass1_state :=
  {| p1_qgroup := r0_qgroup r0;
     p1_qscores := r0_qscores r0;
     p1_matches := r0_matches r0;
     p1_outgroup := [];
     p1_lca_root_dist_min := small_unsigned_int_max;
     p1_ival_global := 0%Q;
     p1_anchors_taxsig := 1%Q;
     p1_lnode_global := r0_rtax r0;
     p1_unode_global := r0_rtax r0;
     p1_bandfactor_max := 1%Q;
     p1_counter := 0 |}.

(** The values pass 2 starts from. *)
Definition pass2_start (st1 : pass1_state) : pass2_state :=
  {| p2_outgroup := p1_outgroup st1;
     p2_qscores := p1_qscores st1;
     p2_matches := p1_matches st1;
     p2_unode_global := p1_unode_global st1;
     p2_counter := 0 |}.

(** What a run leaves behind: the recordset with its [filtered] flags, the
    prediction record, the number of alignments computed ([gcounter]) and
    the number of sequences fetched from the two stores. *)
Record prediction := {
  out_recordset : list record;
  out_prec : prec;
  out_alignments : nat;
  out_fetches : nat;
}.

Definition predict (recordset : list record) (prec0 : prec) : result prediction :=
  let prec1 := initPredictionRecord recordset prec0 in
  let qid := getQueryIdentifier prec1 in
  let '(recordset1, n, qmaxscore) := screen recordset in
  if (n =? 0)%nat then
    Ok {| out_recordset := recordset1; out_prec := setUnclassified prec1;
          out_alignments := 0; out_fetches := 0 |}
  else if (n =? 1)%nat then
    match firstUnmaskedIter recordset1 with
    | None => Undefined
    | Some (rec, _) =>
        let qrstart := getQueryStart rec in
        let qrstop := getQueryStop rec in
        let p := setQueryFeatureBegin prec1 qrstart in
        let p := setQueryFeatureEnd p qrstop in
        let p := setInterpolationValue p 1%Q in
        let p := setNodeRange p (getReferenceNode rec) getRoot (getIdentities rec) in
        let p := setBestReferenceTaxon p (getReferenceNode rec) in
        Ok {| out_recordset := recordset1; out_prec := p;
              out_alignments := 0; out_fetches := 0 |}
    end
  else
    match firstUnmaskedIter recordset1 with
    | None => Undefined
    | Some (rec, rest) =>
        let (qrstart, qrstop) :=
          query_range rest (getQueryStart rec) (getQueryStop rec) in
        let qrlength := to_large (qrstop - qrstart + 1) in
        qrseq <- fetch (query_getSequence qid qrstart qrstop) ;;
        ' (records_ordered, rrseqs_ordered) <-
          retrieve_segments qrstart qrstop recordset1 ;;
        r0 <- pass0 n qmaxscore qrseq qrlength records_ordered rrseqs_ordered ;;
        let rtax := r0_rtax r0 in
        st1 <- pass1_loop (List.length (r0_qgroup r0)) n records_ordered
                 rrseqs_ordered rtax (pass1_start r0) ;;
        st2 <- pass2_loop (List.length (p1_outgroup st1)) n qrseq records_ordered
                 rrseqs_ordered (r0_lca_allnodes r0) (p1_bandfactor_max st1)
                 (pass2_start st1) ;;
        let lnode_global := p1_lnode_global st1 in
        let unode_global := p2_unode_global st2 in
        let ival_global :=
          if node_eq_dec unode_global lnode_global then 1%Q
          else p1_ival_global st1 in
        let p := setSignalStrength prec1 (p1_anchors_taxsig st1) in
        let p := setQueryFeatureBegin p qrstart in
        let p := setQueryFeatureEnd p qrstop in
        let p := setInterpolationValue p ival_global in
        let p := setNodeRange p lnode_global unode_global (r0_anchors_support r0) in
        let p := setBestReferenceTaxon p rtax in
        Ok {| out_recordset := recordset1; out_prec := p;
              out_alignments := r0_counter r0 + p1_counter st1 + p2_counter st2;
              out_fetches := S (List.length rrseqs_ordered) |}
    end.

End Predict.

(** ** Rank normalisation of the taxonomy *)

Module RankNormalizer.

Record Annotation := {
  name : string;
  rank : string;
}.

(** Modelled from the spec: the node payload of [taxonomy.hh], which is
    not among the sources; the attributes are those of the data model that
    rank normalisation reads or writes. *)
Record TaxonData := {
  taxid : Z;
  annotation : option Annotation;
  root_pathlength : nat;
}.

(** Modelled from the spec: the taxonomy is a rooted tree of taxa. *)
#[warnings="-register-all"]
Inductive TaxonTree : Type :=
| TNode (data : TaxonData) (children : list TaxonTree).

(** Modelled from the spec: the marked ranks of [constants.hh], with their
    canonical indices 1 to 7 in this order. *)
Definition default_ranks : list string :=
  ["superkingdom"; "phylum"; "class"; "order"; "family"; "genus"; "species"]%string.

(** The canonical index of a rank: its position in the list, from 1. *)
Fixpoint canonical_index (ranks : list string) (r : string) : option nat :=
  match ranks with
  | [] => None
  | r' :: ranks' =>
      if String.eqb r r' then Some 1%nat
      else option_map S (canonical_index ranks' r)
  end.

Definition canonical_rank (ranks : list string) (d : TaxonData) : option nat :=
  match annotation d with
  | Some a => canonical_index ranks (rank a)
  | None => None
  end.

Definition is_marked (ranks : list string) (d : TaxonData) : bool :=
  match canonical_rank ranks d with
  | Some _ => true
  | None => false
  end.

(** What remains of a subtree: the subtree itself when its top node is
    marked, else the remains of its children, which so move up to the
    surviving parent. *)
Fixpoint prune (ranks : list string) (t : TaxonTree) : list TaxonTree :=
  match t with
  | TNode d children =>
      let children' := flat_map (prune ranks) children in
      if is_marked ranks d then [TNode d children'] else children'
  end.

(** Modelled from the spec: [deleteUnmarkedNodes()] of [taxonomy.hh], not
    among the sources, removes every node whose rank is not in the marked
    list, re-parenting its children to its surviving parent; the root is
    never deleted. *)
Definition deleteUnmarkedNodes (ranks : list string) (t : TaxonTree) : TaxonTree :=
  match t with
  | TNode d children => TNode d (flat_map (prune ranks) children)
  end.

Definition set_root_pathlength (d : TaxonData) (depth : nat) : TaxonData :=
  {| taxid := taxid d; annotation := annotation d; root_pathlength := depth |}.

Fixpoint set_distances_below (ranks : list string) (parent_depth : nat)
    (t : TaxonTree) : TaxonTree :=
  match t with
  | TNode d children =>
      let depth := match canonical_rank ranks d with
                   | Some k => k
                   | None => S parent_depth
                   end in
      TNode (set_root_pathlength d depth)
            (map (set_distances_below ranks depth) children)
  end.

(** Modelled from the spec: [setRankDistances(ranks)] of [taxonomy.hh], not
    among the sources, sets the [root_pathlength] of every node whose
    annotation has a canonical rank to that rank's canonical index, and of
    every other node to its parent's [root_pathlength] plus one; a root
    without canonical rank keeps its depth. *)
Definition setRankDistances (ranks : list string) (t : TaxonTree) : TaxonTree :=
  match t with
  | TNode d children =>
      let depth := match canonical_rank ranks d with
                   | Some k => k
                   | None => root_pathlength d
                   end in
      TNode (set_root_pathlength d depth)
            (map (set_distances_below ranks depth) children)
  end.

(** Every node of a tree, the root first. *)
Fixpoint nodes (t : TaxonTree) : list TaxonData :=
  match t with
  | TNode d children => d :: flat_map nodes children
  end.

Definition has_rank (d : TaxonData) (r : string) : Prop :=
  exists a, annotation d = Some a /\ rank a = r.

(** Induction over a taxonomy, with the property at hand for every child. *)
Section TreeInduction.
Variable P : TaxonTree -> Prop.
Hypothesis step : forall d children, Forall P children -> P (TNode d children).

Fixpoint TaxonTree_induction (t : TaxonTree) : P t :=
  match t with
  | TNode d children =>
      step d children
        ((fix all (l : list TaxonTree) : Forall P l :=
            match l with
            | [] => Forall_nil P
            | c :: l' => Forall_cons c (TaxonTree_induction c) (all l')
            end) children)
  end.
End TreeInduction.

(** The taxonomy after [deleteUnmarkedNodes()] and
    [setRankDistances(default_ranks)]. *)
Definition normalized (t : TaxonTree) : TaxonTree :=
  setRankDistances default_ranks (deleteUnmarkedNodes default_ranks t).

Definition taxon_data (id : Z) (n r : string) : TaxonData :=
  {| taxid := id; annotation := Some {| name := n; rank := r |};
     root_pathlength := 0 |}.

(** A lineage with two unranked nodes: root, cellular organisms (no rank),
    Bacteria (superkingdom), a group without rank, Proteobacteria (phylum),
    and Escherichia (genus) directly below the phylum. *)
Definition lineage : TaxonTree :=
  TNode (taxon_data 1 "root" "no rank")
    [TNode (taxon_data 131567 "cellular organisms" "no rank")
       [TNode (taxon_data 2 "Bacteria" "superkingdom")
          [TNode (taxon_data 3 "group" "no rank")
             [TNode (taxon_data 1224 "Proteobacteria" "phylum")
                [TNode (taxon_data 561 "Escherichia" "genus") []]]]]].

End RankNormalizer.

(** ** A small taxonomy and sequence store to run the engine on *)

Module Fixture.

Inductive taxon : Type :=
| Root | Bacteria | Proteobacteria | Ecoli | Salmonella | Firmicutes | Archaea.

Definition taxon_eq_dec (a b : taxon) : {a = b} + {a <> b}.
Proof. decide equality. Defined.

Definition parent (t : taxon) : taxon :=
  match t with
  | Root => Root
  | Bacteria => Root
  | Proteobacteria => Bacteria
  | Ecoli => Proteobacteria
  | Salmonella => Proteobacteria
  | Firmicutes => Bacteria
  | Archaea => Root
  end.

(** Nested-set bounds of a depth-first numbering. *)
Definition leftvalue (t : taxon) : Z :=
  match t with
  | Root => 1 | Bacteria => 2 | Proteobacteria => 3 | Ecoli => 4
  | Salmonella => 6 | Firmicutes => 9 | Archaea => 12
  end.

Definition rightvalue (t : taxon) : Z :=
  match t with
  | Root => 14 | Bacteria => 11 | Proteobacteria => 8 | Ecoli => 5
  | Salmonella => 7 | Firmicutes => 10 | Archaea => 13
  end.

Definition depth (t : taxon) : nat :=
  match t with
  | Root => 0 | Bacteria => 1 | Proteobacteria => 2 | Ecoli => 3
  | Salmonella => 3 | Firmicutes => 2 | Archaea => 1
  end.

(** Modelled from the spec: [isParentOf(A, B)] is true iff
    [A.leftvalue <= B.leftvalue] and [A.rightvalue >= B.rightvalue]. *)
Definition taxon_isParentOf (a b : taxon) : bool :=
  (leftvalue a <=? leftvalue b) && (rightvalue b <=? rightvalue a).

(** Modelled from the spec: [getLCA(A, B)] walks upward until the interval
    contains the other node. *)
Fixpoint walk_up (fuel : nat) (a b : taxon) : taxon :=
  if taxon_isParentOf a b then a
  else match fuel with
       | O => Root
       | S fuel' => walk_up fuel' (parent a) b
       end.

Definition taxon_getLCA (a b : taxon) : taxon := walk_up 3 a b.

#[export] Instance fixture_types : Types :=
  {| small_unsigned_int_max := 255;
     large_unsigned_int_modulus := 18446744073709551616 |}.

#[export] Instance fixture_taxonomy : TaxonomyInterface taxon :=
  {| node_eq_dec := taxon_eq_dec;
     getRoot := Root;
     getLCA := taxon_getLCA;
     isParentOf := taxon_isParentOf;
     root_pathlength := depth |}.

(** Edit distance with unit costs. *)
Fixpoint levenshtein (a b : list ascii) : nat :=
  match a with
  | [] => List.length b
  | x :: a' =>
      (fix inner (b : list ascii) : nat :=
         match b with
         | [] => List.length a
         | y :: b' =>
             Nat.min (Nat.min (S (levenshtein a' b)) (S (inner b')))
                     ((if Ascii.eqb x y then 0 else 1) + levenshtein a' b')
         end) b
  end.

Definition complement (c : ascii) : ascii :=
  if Ascii.eqb c "A" then "T"
  else if Ascii.eqb c "T" then "A"
  else if Ascii.eqb c "C" then "G"
  else if Ascii.eqb c "G" then "C"
  else c.

(** Positions [start..stop], one-based and inclusive. *)
Definition segment (s : list ascii) (start stop : Z) : option (list ascii) :=
  if (1 <=? start) && (start <=? stop) && (stop <=? Z.of_nat (List.length s))
  then Some (firstn (Z.to_nat (stop - start + 1)) (skipn (Z.to_nat (start - 1)) s))
  else None.

Definition query_sequence : list ascii := list_ascii_of_string "ACGTACGT".

Definition database : list (string * list ascii) :=
  [ ("eco1", list_ascii_of_string "ACGTACGT");
    ("eco2", list_ascii_of_string "ACGTACGT");
    ("sal1", list_ascii_of_string "ACGTACGA");
    ("fir1", list_ascii_of_string "ACGTTTGA");
    ("arc1", list_ascii_of_string "ACGTACGT");
    ("arc2", list_ascii_of_string "TTTTACGA") ]%string.

Fixpoint lookup (db : list (string * list ascii)) (id : string)
    : option (list ascii) :=
  match db with
  | [] => None
  | (k, v) :: db' => if String.eqb id k then Some v else lookup db' id
  end.

#[export] Instance fixture_sequences : Sequences (list ascii) :=
  {| seq_length := fun s => Z.of_nat (List.length s);
     globalAlignmentScore := fun a b => - Z.of_nat (levenshtein a b);
     query_getSequence := fun _ start stop => segment query_sequence start stop;
     db_getSequence := fun id start stop =>
       match lookup database id with
       | Some s => segment s start stop
       | None => None
       end;
     db_getSequenceReverseComplement := fun id start stop =>
       match lookup database id with
       | Some s => option_map (fun x => rev (map complement x)) (segment s start stop)
       | None => None
       end |}.

#[export] Instance fixture_base : PredictionModelBase taxon :=
  {| initPredictionRecord := fun _ p => p;
     setUnclassified := fun p => setBestReferenceTaxon (setNodeRange p Root Root 0) Root |}.

Definition hit (id : string) (t : taxon) (bitscore : Q) (ident : Z)
    : AlignmentRecordTaxonomy taxon :=
  {| getQueryStart := 1; getQueryStop := 8;
     getReferenceIdentifier := id;
     getReferenceStart := 1; getReferenceStop := 8;
     getScore := bitscore; getIdentities := ident; getAlignmentLength := 8;
     getReferenceNode := t; isFiltered := false |}.

Definition blank : PredictionRecord taxon :=
  {| getQueryIdentifier := "query"; getQueryLength := 8;
     getQueryFeatureBegin := 0; getQueryFeatureEnd := 0;
     getLowerNode := None; getUpperNode := None; getBestReferenceTaxon := None;
     getInterpolationValue := 0%Q; getSignalStrength := 0%Q;
     getAnchorsSupport := 0 |}.

(** An exact hit, a close relative and a distant one. *)
Definition three_hits : list (AlignmentRecordTaxonomy taxon) :=
  [ hit "eco1" Ecoli 16 8; hit "sal1" Salmonella 14 7; hit "fir1" Firmicutes 12 5 ].

(** Two exact hits in lineages that only meet at the root. *)
Definition two_lineages : list (AlignmentRecordTaxonomy taxon) :=
  [ hit "eco1" Ecoli 16 8; hit "arc1" Archaea 16 8 ].

(** An exact hit, and a short local alignment to a reference of another
    lineage whose segment over the query range is identical too. *)
Definition partial_hit : AlignmentRecordTaxonomy taxon :=
  {| getQueryStart := 1; getQueryStop := 8;
     getReferenceIdentifier := "arc1";
     getReferenceStart := 1; getReferenceStop := 8;
     getScore := 9%Q; getIdentities := 6; getAlignmentLength := 6;
     getReferenceNode := Archaea; isFiltered := false |}.

Definition identical_outside : list (AlignmentRecordTaxonomy taxon) :=
  [ hit "eco1" Ecoli 16 8; partial_hit ].

(** A close relative as best hit, and an outgroup. *)
Definition relative_and_outgroup : list (AlignmentRecordTaxonomy taxon) :=
  [ hit "sal1" Salmonella 14 7; hit "fir1" Firmicutes 12 5 ].

(** Two casts for [loadMapFromFile]: to text, which takes every token, and
    to a number, which takes the tokens made of decimal digits. *)
#[export] Instance cast_text : UtilsFile.LexicalCast Utils.str :=
  fun token => Some token.

Fixpoint digits (token : Utils.str) (value : N) : option N :=
  match token with
  | [] => Some value
  | c :: token' =>
      let d := N_of_ascii c in
      if ((48 <=? d) && (d <=? 57))%N
      then digits token' (10 * value + (d - 48))%N
      else None
  end.

#[export] Instance cast_number : UtilsFile.LexicalCast N :=
  fun token => match token with
               | [] => None
               | _ :: _ => digits token 0%N
               end.

(** A file of three lines: a comment, a binding, and a line whose value is
    no number. *)
Definition tab : ascii := "009"%char.

Definition taxid_file : Utils.str :=
  Utils.of_string "#id" ++ UtilsFile.newline
  :: Utils.of_string "eco1" ++ tab :: Utils.of_string "562" ++ UtilsFile.newline
  :: Utils.of_string "sal1" ++ tab :: Utils.of_string "x".

End Fixture.

Import Fixture.

(** ** The words the properties are stated in *)

(** One step through a computation that may fail: the case of a result. *)
Ltac bind_step H :=
  match type of H with
  | bind ?m _ = Ok _ =>
      let E := fresh "E" in
      destruct m eqn:E; cbn [bind] in H; try discriminate H
  end.

(** A run that does not end for want of fuel. *)
Definition in_fuel {A} (r : result A) : Prop := r <> OutOfFuel.

Section Vocabulary.
Context {node Seq : Type} `{Types} `{TaxonomyInterface node} `{Sequences Seq}.

Let record := AlignmentRecordTaxonomy node.

(** The records that are not filtered, in their order. *)
Definition unmasked (rs : list record) : list record :=
  filter (fun r => negb (isFiltered r)) rs.

(** What screening does to one record. *)
Definition screen_record (threshold : float) (r : record) : record :=
  if negb (isFiltered r) && flt (getScore r) threshold then filterOut r else r.

(** The recordset after the screening block. *)
Definition screened (factor : float) (rs : list record) : list record :=
  fst (fst (screen factor rs)).

(** The constructor's [reeval_bandwidth_factor_(1. - reeval_bandwidth)]. *)
Definition reeval_bandwidth_factor (reeval_bandwidth : float) : float :=
  (1 - reeval_bandwidth)%Q.

(** Every edit distance pass 0 computes is nonnegative and below
    [INT_MAX]. *)
Definition scores_in_range (qrseq : Seq) (rrseqs_ordered : list Seq) : Prop :=
  forall rr, In rr rrseqs_ordered -> 0 <= - globalAlignmentScore rr qrseq < INT_MAX.

(** What holds of the state of pass 0 before iteration [i]. *)
Record pass0_inv (threshold : float) (records_ordered : list record) (i : nat)
    (st : @pass0_state node) : Prop := {
  inv_qscores : List.length (p0_qscores st) = i;
  inv_matches : List.length (p0_matches st) = i;
  inv_best : (p0_index_best st < i)%nat \/ (i = 0%nat /\ p0_index_best st = 0%nat);
  inv_qgroup : forall j, In j (p0_qgroup st) -> (j < i)%nat;
  inv_scored : forall j s, nth_error (p0_qscores st) j = Some s -> s < INT_MAX ->
                           In j (p0_qgroup st);
  inv_minimal : forall j s sb, nth_error (p0_qscores st) j = Some s ->
                               nth_error (p0_qscores st) (p0_index_best st) = Some sb ->
                               sb <= s;
  inv_similar : forall j r s, nth_error records_ordered j = Some r ->
                              nth_error (p0_qscores st) j = Some s ->
                              fle threshold (getScore r) = true -> s < INT_MAX;
}.

(** A record an anchor's loop went through: its index, its score against
    the anchor and its reference node. *)
Definition visit : Type := nat * Z * node.

Definition visit_index (v : visit) : nat := fst (fst v).
Definition visit_score (v : visit) : Z := snd (fst v).



(** Where the score of a visited record comes from. *)
Definition score_origin (rrseqs_ordered : list Seq) (index_anchor : nat)
    (v : visit) : Prop :=
  (visit_index v = index_anchor -> visit_score v = 0)
  /\ (visit_index v <> index_anchor ->
      visit_score v = 0
      \/ exists si sa, nth_error rrseqs_ordered (visit_index v) = Some si
                       /\ nth_error rrseqs_ordered index_anchor = Some sa
                       /\ visit_score v = edit_score si sa).




(** [u] is reached from [l] by joining nodes to it with [getLCA]. *)
Definition raised_from (l u : node) : Prop :=
  exists cs, u = fold_left (fun u c => getLCA c u) cs l.

(** Between which scores an anchor's loop keeps [lscore] and [uscore]. *)
Definition scores_bracket (qscore : Z) (a : @anchor_state node) : Prop :=
  0 <= a_lscore a
  /\ ((a_outgroup_tmp a = [] /\ a_uscore a = INT_MAX)
      \/ qscore < a_uscore a <= INT_MAX).

(** *** What a run that emits a prediction keeps true

    [B] bounds the edit distances, [n] is the number of records. *)

(** Every entry the accumulator holds has a score between 0 and [B]. *)
Definition fed_in_range (B : Z) (data : list (Z * node)) : Prop :=
  Forall (fun e => 0 <= fst e <= B) data.

Definition ranks_in_range (B : Z) (m : rank_map) : Prop :=
  Forall (fun e => 0 <= snd e <= B) m.

(** A query score is an edit distance, or the mark of pass 0 for a record
    that was not aligned, which goes with zero matches. *)
Definition entry_ok (B : Z) (s m : Z) : Prop :=
  0 <= s <= B \/ (s = INT_MAX /\ m = 0).

Definition vectors_ok (B : Z) (n : nat) (qscores rmatches : list Z) : Prop :=
  List.length qscores = n /\ List.length rmatches = n
  /\ forall j s m, nth_error qscores j = Some s -> nth_error rmatches j = Some m ->
                   entry_ok B s m.

(** The records of a group have been aligned to the query. *)
Definition group_ok (B : Z) (qscores : list Z) (group : list nat) : Prop :=
  forall j, In j group -> exists s, nth_error qscores j = Some s /\ 0 <= s <= B.

Definition indices_below (n : nat) (l : list nat) : Prop :=
  Forall (fun j => (j < n)%nat) l.

Definition tmp_ok (B : Z) (n : nat) (outgroup_tmp : list (nat * Z)) : Prop :=
  Forall (fun e => (fst e < n)%nat /\ 0 <= snd e <= B) outgroup_tmp.

Definition pass0_ok (B : Z) (i : nat) (st : @pass0_state node) : Prop :=
  vectors_ok B i (p0_qscores st) (p0_matches st)
  /\ group_ok B (p0_qscores st) (p0_qgroup st).

Record anchor_ok (B : Z) (n : nat) (st : @anchor_state node) : Prop := {
  anchor_vectors : vectors_ok B n (a_qscores st) (a_matches st);
  anchor_group : group_ok B (a_qscores st) (a_qgroup st);
  anchor_fed : fed_in_range B (a_bandfactor1 st);
  anchor_fed_some : a_bandfactor1 st <> [];
  anchor_tmp : tmp_ok B n (a_outgroup_tmp st);
}.

Record pass1_ok (B : Z) (n : nat) (st : @pass1_state node) : Prop := {
  pass1_vectors : vectors_ok B n (p1_qscores st) (p1_matches st);
  pass1_group : group_ok B (p1_qscores st) (p1_qgroup st);
  pass1_outgroup : indices_below n (p1_outgroup st);
  pass1_bandfactor : (1 <= p1_bandfactor_max st <= inject_Z B)%Q;
}.

Record pass2_ok (B : Z) (n : nat) (st : @pass2_state node) : Prop := {
  pass2_vectors : vectors_ok B n (p2_qscores st) (p2_matches st);
  pass2_outgroup : indices_below n (p2_outgroup st);
}.

End Vocabulary.

Section RunConditions.
Context {node Seq : Type} `{Types} `{Sequences Seq} `{PredictionModelBase node}.

(** The two stores deliver what a run on [rs] asks them for, and the edit
    distances among the sequences delivered are at most [B]. *)
Definition stores_deliver (B : Z) (exclude_factor : float)
    (rs : list (AlignmentRecordTaxonomy node))
    (p : PredictionRecord node) : Prop :=
  forall first behind,
    firstUnmaskedIter (screened exclude_factor rs) = Some (first, behind) ->
    let range := query_range behind (getQueryStart first) (getQueryStop first) in
    exists qrseq records_ordered rrseqs_ordered,
      query_getSequence (getQueryIdentifier (initPredictionRecord rs p))
        (fst range) (snd range) = Some qrseq
      /\ retrieve_segments (fst range) (snd range) (screened exclude_factor rs)
         = Ok (records_ordered, rrseqs_ordered)
      /\ forall a b, In a (qrseq :: rrseqs_ordered) -> In b (qrseq :: rrseqs_ordered) ->
                     0 <= - globalAlignmentScore a b <= B.

End RunConditions.

(** *** The tokenizers by fields *)

Module UtilsWords.
Import Utils.

(** The part of [t] before its first delimiter character and, when there
    is one, the part behind it. *)
Fixpoint span (delimiters : str) (t : str) : str * option str :=
  match t with
  | [] => ([], None)
  | c :: t' =>
      if is_delim delimiters c then ([], Some t')
      else let (pre, post) := span delimiters t' in (c :: pre, post)
  end.

(** The part of [t] before the first place where [delimiters] begins, and,
    when there is one, the part behind that occurrence. *)
Fixpoint span_sub (delimiters : str) (t : str) : str * option str :=
  if starts_with delimiters t
  then ([], Some (skipn (List.length delimiters) t))
  else match t with
       | [] => ([], None)
       | c :: t' => let (pre, post) := span_sub delimiters t' in (c :: pre, post)
       end.

(** The loop of the tokenizers on the part of the string that is still to
    be read: the tokens pushed and the part left unread at the exit.
    [cut] tells a field from what is behind its delimiter. *)
Fixpoint fields (cut : str -> str * option str) (fuel : nat) (t : str)
    (trimempty : bool) (fieldnum : Z) : list str * str :=
  match fuel with
  | O => ([], t)
  | S fuel' =>
      if (fieldnum =? 0) || (match t with [] => true | _ => false end) then ([], t)
      else
        match cut t with
        | (pre, None) => ([t], [])
        | (pre, Some post) =>
            if (match pre with [] => false | _ => true end) || negb trimempty then
              let (l, r) := fields cut fuel' post trimempty (to_int (fieldnum - 1)) in
              (pre :: l, r)
            else fields cut fuel' post trimempty fieldnum
        end
  end.

(** What a cut is to the loop: the field, a separator of the kind [sep],
    and the rest. *)
Definition cuts (sep : str -> Prop) (cut : str -> str * option str) : Prop :=
  forall t,
    match cut t with
    | (pre, None) => True
    | (pre, Some post) => exists d, sep d /\ t = pre ++ d ++ post
    end.

(** The tokens written one behind the other, each followed by [d] but the
    last. *)
Fixpoint join (d : str) (tokens : list str) : str :=
  match tokens with
  | [] => []
  | [t] => t
  | t :: ts => t ++ d ++ join d ts
  end.

(** A token without a delimiter character. *)
Definition no_delim (delimiters : str) (token : str) : Prop :=
  forall c, In c token -> is_delim delimiters c = false.

(** The number of fields the loop starts with: [fieldnum], or the length
    of the string when [fieldnum] is 0. *)
Definition fieldnum_used (s : str) (fieldnum : Z) : Z :=
  if fieldnum =? 0 then to_int (to_uint (Z.of_nat (List.length s))) else fieldnum.

End UtilsWords.

(** *** The accumulator and the sets of indices *)

Section BandFactorWords.
Context {node : Type} `{TaxonomyInterface node}.

(** The entries, taken in this order, never come with a common ancestor
    with the anchor that is deeper than the one before: the loop of
    [setBandFactor] meets no disorder. *)
Fixpoint ranks_descend (anchor : node) (last_rank : nat) (data : list (Z * node))
    : Prop :=
  match data with
  | [] => True
  | (score, n) :: data' =>
      (root_pathlength (getLCA n anchor) <= last_rank)%nat
      /\ ranks_descend anchor (root_pathlength (getLCA n anchor)) data'
  end.

(** By increasing score. *)
Definition by_score (a b : Z * node) : Prop := fst a <= fst b.

(** [x] lies in every subtree that holds the reference nodes of all of
    [records]. *)
Definition spanned_by (records : list (AlignmentRecordTaxonomy node)) (x : node)
    : Prop :=
  forall c,
    (forall rec, In rec records -> isParentOf c (getReferenceNode rec) = true) ->
    isParentOf c x = true.

(** All records of the outgroup have their common ancestor with [rtax] at
    the depth [dist]. *)
Definition outgroup_at (records_ordered : list (AlignmentRecordTaxonomy node))
    (rtax : node) (outgroup : list nat) (dist : nat) : Prop :=
  forall j, In j outgroup ->
    exists rec, nth_error records_ordered j = Some rec
                /\ root_pathlength (getLCA (getReferenceNode rec) rtax) = dist.

End BandFactorWords.

(** A [std::set<uint>] of indices below [n]. *)
Definition index_set (n : nat) (s : list nat) : Prop :=
  StronglySorted lt s /\ Forall (fun j => (j < n)%nat) s.

(** An entry of the temporary outgroup list whose score is within the
    extended band. *)
Definition in_band (qscore_ex : Z) (e : nat * Z) : Prop := snd e <= qscore_ex.

(** * Properties *)

(** ** tokenizeSingleCharDelim *)

Module UtilsFacts.
Import Utils.

Lemma to_int_nonzero (z : Z) : 0 < z < UINT_MODULUS -> to_int z <> 0.
Proof.
  intros Hz. unfold to_int.
  rewrite Z.mod_small by lia.
  destruct (z <=? INT_MAX) eqn:E; unfold UINT_MODULUS in *; lia.
Qed.

Lemma find_in_lower_bound (s delimiters : str) :
  forall pos p, find_in s delimiters pos = Some p -> pos <= p.
Proof.
  induction s as [|c s IH]; intros pos p; simpl.
  - discriminate.
  - destruct (is_delim delimiters c).
    + intros [= <-]. lia.
    + intros Hf. apply IH in Hf. lia.
Qed.

Lemma find_in_no_delimiter (s delimiters : str) :
  (forall c, In c s -> is_delim delimiters c = false) ->
  forall pos, find_in s delimiters pos = None.
Proof.
  induction s as [|c s IH]; intros Hno pos; simpl.
  - reflexivity.
  - rewrite (Hno c) by (left; reflexivity).
    apply IH. intros c' Hc'. apply Hno. right. exact Hc'.
Qed.

(** The loop ends within the fuel, and never takes a token away. *)
Lemma tokenize_loop_total (s delimiters : str) (stringlength : Z) (trimempty : bool) :
  forall fuel fieldnum lastpos tokens,
    0 <= lastpos ->
    1 + Z.max 0 (stringlength - lastpos) <= Z.of_nat fuel ->
    exists lastpos' added,
      tokenize_loop fuel s delimiters stringlength trimempty fieldnum lastpos tokens
      = Some (lastpos', tokens ++ added).
Proof.
  induction fuel as [|fuel IH]; intros fieldnum lastpos tokens Hpos Hfuel.
  - lia.
  - simpl.
    destruct (negb (fieldnum =? 0) && (lastpos <? stringlength)) eqn:Hguard.
    + apply andb_prop in Hguard. destruct Hguard as [_ Hlt].
      apply Z.ltb_lt in Hlt.
      destruct (find_first_of s delimiters lastpos) as [pos|] eqn:Hfind.
      * apply find_in_lower_bound in Hfind.
        destruct (negb (pos =? lastpos) || negb trimempty).
        -- destruct (IH (to_int (fieldnum - 1)) (pos + 1)
                       (tokens ++ [make_token s lastpos (pos - lastpos)]))
             as (lp & added & Heq); [lia | lia |].
           exists lp, (make_token s lastpos (pos - lastpos) :: added).
           rewrite Heq. rewrite <- app_assoc. reflexivity.
        -- apply IH; lia.
      * destruct (negb (Z.of_nat (List.length s) =? lastpos) || negb trimempty).
        -- eexists. eexists. reflexivity.
        -- eexists. exists []. rewrite app_nil_r. reflexivity.
    + exists lastpos, []. rewrite app_nil_r. reflexivity.
Qed.

Lemma stringlength_le (s : str) :
  to_uint (Z.of_nat (List.length s)) <= Z.of_nat (List.length s).
Proof.
  unfold to_uint, UINT_MODULUS. apply Z.mod_le; lia.
Qed.

(** C10: [tokenizeSingleCharDelim] returns for every input, and what it
    returns is the container it was given with at least one token appended;
    for the empty string the appended tokens are exactly one empty token;
    for a non-empty string (of a length that fits [unsigned int]) without a
    delimiter character and with [fieldnum = 0], they are exactly two: the
    whole string and then an empty token. *)
Theorem tokenizeSingleCharDelim_appends (s : str) (tokens : list str)
    (delimiters : str) (fieldnum : Z) (trimempty : bool) :
  exists added,
    tokenizeSingleCharDelim s tokens delimiters fieldnum trimempty
      = Some (tokens ++ added)
    /\ (1 <= List.length added)%nat
    /\ (s = [] -> added = [[]])
    /\ (s <> [] ->
        (forall c, In c s -> is_delim delimiters c = false) ->
        fieldnum = 0 ->
        Z.of_nat (List.length s) < UINT_MODULUS ->
        added = [s; []]).
Proof.
  unfold tokenizeSingleCharDelim, tokenizeSingleCharDelim_fuel.
  set (stringlength := to_uint (Z.of_nat (List.length s))).
  set (fn := if fieldnum =? 0 then to_int stringlength else fieldnum).
  pose proof (stringlength_le s) as Hle. fold stringlength in Hle.
  destruct (tokenize_loop_total s delimiters stringlength trimempty
              (S (List.length s)) fn 0 tokens) as (lp & added & Hloop);
    [lia | lia |].
  exists (added ++ [make_token s lp (stringlength - lp)]).
  rewrite Hloop. split; [|split; [|split]].
  - rewrite app_assoc. reflexivity.
  - rewrite length_app. simpl. lia.
  - intros ->. subst stringlength. simpl in Hloop.
    destruct (negb (fn =? 0)); simpl in Hloop;
      injection Hloop as <- Hadd;
      apply (f_equal (@List.length _)) in Hadd;
      rewrite length_app in Hadd;
      destruct added; simpl in Hadd; try lia; reflexivity.
  - intros Hne Hno -> Hlen.
    assert (Hsl : stringlength = Z.of_nat (List.length s)).
    { subst stringlength. unfold to_uint. apply Z.mod_small. lia. }
    assert (Hpos : 0 < Z.of_nat (List.length s)).
    { destruct s; [contradiction|]. simpl. lia. }
    subst fn. simpl in Hloop.
    assert (Hfn : (to_int stringlength =? 0) = false).
    { apply Z.eqb_neq. apply to_int_nonzero. lia. }
    rewrite Hfn in Hloop. simpl in Hloop.
    assert (Hlt : (0 <? stringlength) = true) by (apply Z.ltb_lt; lia).
    rewrite Hlt in Hloop. unfold find_first_of in Hloop. simpl in Hloop.
    rewrite (find_in_no_delimiter s delimiters Hno) in Hloop.
    assert (Hnz : (Z.of_nat (List.length s) =? 0) = false) by (apply Z.eqb_neq; lia).
    rewrite Hnz in Hloop. simpl in Hloop.
    injection Hloop as <- Hadd. apply app_inv_head in Hadd. subst added.
    unfold make_token. simpl.
    rewrite Hsl, Z.sub_diag, Z.sub_0_r.
    unfold to_size.
    rewrite Z.mod_small by (unfold SIZE_MODULUS, UINT_MODULUS in *; lia).
    rewrite Z.mod_small by (unfold SIZE_MODULUS; lia).
    rewrite Nat2Z.id, firstn_all. reflexivity.
Qed.

(** The theorem at the string [abc] with a blank as delimiter. *)
Lemma tokenizeSingleCharDelim_appends_witness :
  tokenizeSingleCharDelim (of_string "abc") [] (of_string " ") 0 false
  = Some [of_string "abc"; []].
Proof.
  destruct (tokenizeSingleCharDelim_appends (of_string "abc") []
              (of_string " ") 0 false) as (added & Heq & _ & _ & Htwo).
  rewrite Heq. rewrite Htwo.
  - reflexivity.
  - discriminate.
  - intros c Hc. simpl in Hc.
    repeat (destruct Hc as [<- | Hc]; [reflexivity|]). contradiction.
  - reflexivity.
  - reflexivity.
Defined.

End UtilsFacts.

(** ** Floats as ordered values *)

Lemma flt_true (a b : float) : flt a b = true <-> (a < b)%Q.
Proof.
  unfold flt. rewrite negb_true_iff.
  split.
  - intros Hf. apply Qnot_le_lt. intros Hle.
    apply Qle_bool_iff in Hle. congruence.
  - intros Hlt. destruct (Qle_bool b a) eqn:E; [|reflexivity].
    apply Qle_bool_iff in E. apply Qlt_not_le in Hlt. contradiction.
Qed.

Lemma flt_false (a b : float) : flt a b = false <-> (b <= a)%Q.
Proof.
  unfold flt. rewrite negb_false_iff. apply Qle_bool_iff.
Qed.

Lemma fmax_lower (c a b : float) : (c <= a)%Q -> (c <= fmax a b)%Q.
Proof.
  intros Hc. unfold fmax. destruct (flt a b) eqn:E.
  - apply flt_true in E. apply Qlt_le_weak in E. eapply Qle_trans; eassumption.
  - exact Hc.
Qed.

Lemma fmax_upper (c a b : float) : (a <= c)%Q -> (b <= c)%Q -> (fmax a b <= c)%Q.
Proof.
  intros Ha Hb. unfold fmax. destruct (flt a b); assumption.
Qed.

Lemma fmax_lower_r (c a b : float) : (c <= b)%Q -> (c <= fmax a b)%Q.
Proof.
  intros Hc. unfold fmax. destruct (flt a b) eqn:E.
  - exact Hc.
  - apply flt_false in E. eapply Qle_trans; eassumption.
Qed.

Lemma fmin_upper (a b : float) : (fmin a b <= b)%Q.
Proof.
  unfold fmin. destruct (flt b a) eqn:E.
  - apply Qle_refl.
  - apply flt_false in E. exact E.
Qed.

Lemma fmin_lower (c a b : float) : (c <= a)%Q -> (c <= b)%Q -> (c <= fmin a b)%Q.
Proof.
  intros Ha Hb. unfold fmin. destruct (flt b a); assumption.
Qed.

(** ** BandFactor *)

Section BandFactorFacts.
Context {node : Type} `{TaxonomyInterface node}.

Lemma disorder_lower (m : rank_map) (score : Z) :
  forall r bandfactor,
    (1 <= bandfactor)%Q -> (1 <= disorder m score r bandfactor)%Q.
Proof.
  induction r as [|r IH]; intros bandfactor Hb; simpl.
  - destruct (map_find m 0) as [refscore|]; [|exact Hb].
    destruct (refscore =? 0); [exact Hb|]. apply fmax_lower. exact Hb.
  - apply IH.
    destruct (map_find m (S r)) as [refscore|]; [|exact Hb].
    destruct (refscore =? 0); [exact Hb|]. apply fmax_lower. exact Hb.
Qed.

Lemma band_loop_lower (anchor : node) :
  forall data m last_rank bandfactor,
    (1 <= bandfactor)%Q ->
    (1 <= band_loop anchor data m last_rank bandfactor)%Q.
Proof.
  induction data as [|[score n] data IH]; intros m last_rank bandfactor Hb; simpl.
  - exact Hb.
  - destruct (root_pathlength (getLCA n anchor) =? last_rank)%nat.
    + apply IH. exact Hb.
    + destruct (root_pathlength (getLCA n anchor) <? last_rank)%nat.
      * apply IH. exact Hb.
      * apply IH. apply disorder_lower. exact Hb.
Qed.

(** Whatever order the entries are in, the factor set lies between the two
    bounds. *)
Lemma setBandFactor_bounds (data : list (Z * node)) :
  data <> [] ->
  exists b, setBandFactor data = Ok b
            /\ (min_bandfactor <= b)%Q /\ (b <= max_bandfactor)%Q.
Proof.
  destruct data as [|[score anchor] rest]; [congruence|]. intros _.
  simpl. eexists. split; [reflexivity|]. split.
  - apply fmin_lower.
    + apply band_loop_lower. unfold min_bandfactor. apply Qle_refl.
    + unfold min_bandfactor, max_bandfactor, float_of_int, INT_MAX.
      unfold Qle. simpl. lia.
  - apply fmin_upper.
Qed.

Lemma sort_nonempty (data : list (Z * node)) : data <> [] -> sort data <> [].
Proof.
  destruct data; [congruence|]. simpl. discriminate.
Qed.


End BandFactorFacts.


Example getFactor_disorder :
  getFactor [(0, Fixture.Ecoli); (6, Fixture.Salmonella); (2, Fixture.Firmicutes)]
  = Ok (6 # 2)%Q.
Proof. vm_compute. reflexivity. Qed.

(** ** Score screening and the two shortcuts *)

Section ScreeningFacts.
Context {node : Type}.

Local Abbreviation record := (AlignmentRecordTaxonomy node).

Lemma count_unmasked_count (rs : list record) :
  forall n q, fst (count_unmasked rs n q) = (n + List.length (unmasked rs))%nat.
Proof.
  induction rs as [|r rs IH]; intros n q; simpl.
  - lia.
  - destruct (isFiltered r); simpl.
    + apply IH.
    + rewrite IH. lia.
Qed.

Lemma count_unmasked_lower (rs : list record) :
  forall n q, (q <= snd (count_unmasked rs n q))%Q.
Proof.
  induction rs as [|r rs IH]; intros n q; simpl.
  - apply Qle_refl.
  - destruct (isFiltered r).
    + apply IH.
    + eapply Qle_trans; [|apply IH]. apply fmax_lower. apply Qle_refl.
Qed.

(** The best score is the start value or the score of an unmasked record,
    and no unmasked record scores higher. *)
Lemma count_unmasked_attained (rs : list record) :
  forall n q,
    snd (count_unmasked rs n q) = q
    \/ exists r, In r (unmasked rs) /\ getScore r = snd (count_unmasked rs n q).
Proof.
  induction rs as [|r rs IH]; intros n q; simpl.
  - left. reflexivity.
  - destruct (isFiltered r); simpl.
    + apply IH.
    + destruct (IH (S n) (fmax q (getScore r))) as [Heq | (r' & Hin & Hr')].
      * rewrite Heq. unfold fmax. destruct (flt q (getScore r)).
        -- right. exists r. split; [left; reflexivity | reflexivity].
        -- left. reflexivity.
      * right. exists r'. split; [right; exact Hin | exact Hr'].
Qed.

Lemma exclude_alignments_records (threshold : float) (rs : list record) :
  forall n, fst (exclude_alignments threshold rs n) = map (screen_record threshold) rs.
Proof.
  induction rs as [|r rs IH]; intros n; simpl.
  - reflexivity.
  - unfold screen_record at 1.
    destruct (negb (isFiltered r) && flt (getScore r) threshold).
    + specialize (IH (Nat.pred n)).
      destruct (exclude_alignments threshold rs (Nat.pred n)). simpl in *.
      rewrite IH. reflexivity.
    + specialize (IH n).
      destruct (exclude_alignments threshold rs n). simpl in *.
      rewrite IH. reflexivity.
Qed.

Lemma exclude_alignments_count (threshold : float) (rs : list record) :
  forall n k,
    n = (k + List.length (unmasked rs))%nat ->
    snd (exclude_alignments threshold rs n)
    = (k + List.length (unmasked (map (screen_record threshold) rs)))%nat.
Proof.
  induction rs as [|r rs IH]; intros n k Hn; simpl in *.
  - lia.
  - unfold screen_record at 1.
    destruct (isFiltered r) eqn:Ef; simpl in *.
    + specialize (IH n k Hn).
      destruct (exclude_alignments threshold rs n). simpl in *.
      rewrite Ef. simpl. exact IH.
    + destruct (flt (getScore r) threshold); simpl.
      * specialize (IH (Nat.pred n) k ltac:(lia)).
        destruct (exclude_alignments threshold rs (Nat.pred n)). simpl in *.
        exact IH.
      * specialize (IH n (S k) ltac:(lia)).
        destruct (exclude_alignments threshold rs n). simpl in *.
        rewrite Ef. simpl. lia.
Qed.

(** The screening block in closed form. *)
Lemma screen_spec (factor : float) (rs : list record) :
  let qmaxscore := snd (count_unmasked rs 0 0%Q) in
  let rs' := map (screen_record (qmaxscore * factor)%Q) rs in
  screen factor rs = (rs', List.length (unmasked rs'), qmaxscore).
Proof.
  unfold screen.
  pose proof (count_unmasked_count rs 0 0%Q) as Hn.
  destruct (count_unmasked rs 0 0%Q) as [n q]. simpl in *.
  pose proof (exclude_alignments_records (q * factor)%Q rs n) as Hrs.
  pose proof (exclude_alignments_count (q * factor)%Q rs n 0 Hn) as Hc.
  destruct (exclude_alignments (q * factor)%Q rs n) as [rs' n']. simpl in *.
  subst. reflexivity.
Qed.

(** C9: screening is monotone in the exclusion factor: a record that
    screening with the larger factor leaves unfiltered is left unfiltered by
    screening with the smaller factor too (records are told apart by their
    place in the recordset). *)
Theorem screening_monotone (f1 f2 : float) (rs : list record) (i : nat) (r2 : record) :
  (f1 <= f2)%Q ->
  nth_error (screened f2 rs) i = Some r2 ->
  isFiltered r2 = false ->
  exists r1, nth_error (screened f1 rs) i = Some r1 /\ isFiltered r1 = false.
Proof.
  intros Hf Hnth Hunf. unfold screened in *.
  pose proof (screen_spec f1 rs) as H1. pose proof (screen_spec f2 rs) as H2.
  simpl in H1, H2. rewrite H1. rewrite H2 in Hnth. simpl in *.
  rewrite nth_error_map in *.
  destruct (nth_error rs i) as [r|]; [|discriminate]. simpl in *.
  injection Hnth as <-. eexists. split; [reflexivity|].
  pose proof (count_unmasked_lower rs 0 0%Q) as Hq.
  set (q := snd (count_unmasked rs 0 0%Q)) in *.
  unfold screen_record in *.
  destruct (isFiltered r) eqn:Ef; simpl in *; [congruence|].
  destruct (flt (getScore r) (q * f2)%Q) eqn:E2; [discriminate|].
  destruct (flt (getScore r) (q * f1)%Q) eqn:E1; [|exact Ef].
  exfalso. apply flt_false in E2. apply flt_true in E1.
  assert (q * f1 <= q * f2)%Q by nra.
  lra.
Qed.

Lemma firstUnmaskedIter_unmasked (rs : list record) (r : record) (rest : list record) :
  unmasked rs = r :: rest ->
  exists behind, firstUnmaskedIter rs = Some (r, behind) /\ unmasked behind = rest.
Proof.
  induction rs as [|x rs IH]; simpl.
  - discriminate.
  - destruct (isFiltered x) eqn:Ef; simpl.
    + exact IH.
    + intros [= -> <-]. exists rs. split; reflexivity.
Qed.

End ScreeningFacts.

(** The theorem on the three hits: the distant hit survives the factor
    [9/10] only if it survives [1/2]. *)
Lemma screening_monotone_witness :
  exists r1, nth_error (screened (1 # 2) three_hits) 0 = Some r1
             /\ isFiltered r1 = false.
Proof.
  apply (screening_monotone (1 # 2) (9 # 10) three_hits 0 (hit "eco1" Ecoli 16 8)).
  - unfold Qle. simpl. lia.
  - reflexivity.
  - reflexivity.
Defined.

Section ShortcutFacts.
Context {node Seq : Type} `{Types} `{TaxonomyInterface node} `{Sequences Seq}
        `{PredictionModelBase node}.
Variable exclude_factor reeval_factor : float.

Local Abbreviation record := (AlignmentRecordTaxonomy node).

(** C7: when screening leaves no record unfiltered, [predict] returns
    normally with the record [setUnclassified] makes of the initialised
    prediction record; no alignment was computed and no sequence fetched. *)
Theorem predict_no_unfiltered_record (rs : list record) (p : PredictionRecord node) :
  unmasked (screened exclude_factor rs) = [] ->
  predict exclude_factor reeval_factor rs p
  = Ok {| out_recordset := screened exclude_factor rs;
          out_prec := setUnclassified (initPredictionRecord rs p);
          out_alignments := 0;
          out_fetches := 0 |}.
Proof.
  unfold screened, predict. rewrite (screen_spec exclude_factor rs). simpl.
  intros ->. reflexivity.
Qed.

(** C1: when screening leaves exactly one record unfiltered, [predict]
    returns a prediction with that record's reference node as lower node and
    as best reference taxon, the root as upper node, interpolation value 1,
    the record's identities as support and the record's query range, and it
    computes no alignment (and fetches no sequence). *)
Theorem predict_single_record (rs : list record) (p : PredictionRecord node)
    (rec : record) :
  unmasked (screened exclude_factor rs) = [rec] ->
  exists out,
    predict exclude_factor reeval_factor rs p = Ok out
    /\ getLowerNode (out_prec out) = Some (getReferenceNode rec)
    /\ getUpperNode (out_prec out) = Some getRoot
    /\ getBestReferenceTaxon (out_prec out) = Some (getReferenceNode rec)
    /\ getInterpolationValue (out_prec out) = 1%Q
    /\ getAnchorsSupport (out_prec out) = getIdentities rec
    /\ getQueryFeatureBegin (out_prec out) = getQueryStart rec
    /\ getQueryFeatureEnd (out_prec out) = getQueryStop rec
    /\ out_alignments out = 0%nat
    /\ out_fetches out = 0%nat.
Proof.
  unfold screened, predict. rewrite (screen_spec exclude_factor rs). simpl.
  intros Hone. rewrite Hone. simpl.
  destruct (firstUnmaskedIter_unmasked _ _ _ Hone) as (behind & -> & _).
  eexists. split; [reflexivity|]. simpl. repeat split; reflexivity.
Qed.

End ShortcutFacts.

(** C7 at a recordset whose only record is filtered from the start. *)
Lemma predict_no_unfiltered_record_witness :
  predict (1 # 2) (9 # 10) [filterOut (hit "eco1" Ecoli 16 8)] blank
  = Ok {| out_recordset := [filterOut (hit "eco1" Ecoli 16 8)];
          out_prec := setUnclassified blank;
          out_alignments := 0;
          out_fetches := 0 |}.
Proof.
  exact (predict_no_unfiltered_record (1 # 2) (9 # 10)
           [filterOut (hit "eco1" Ecoli 16 8)] blank eq_refl).
Defined.

(** C1 at an exact hit and a hit whose score is below half of the best. *)
Lemma predict_single_record_witness :
  exists out,
    predict (1 # 2) (9 # 10) [hit "eco1" Ecoli 16 8; hit "fir1" Firmicutes 7 5] blank
    = Ok out
    /\ getLowerNode (out_prec out) = Some Ecoli
    /\ getUpperNode (out_prec out) = Some Root
    /\ getInterpolationValue (out_prec out) = 1%Q.
Proof.
  destruct (predict_single_record (1 # 2) (9 # 10)
              [hit "eco1" Ecoli 16 8; hit "fir1" Firmicutes 7 5] blank
              (hit "eco1" Ecoli 16 8))
    as (out & Hout & Hl & Hu & _ & Hi & _).
  - reflexivity.
  - exists out. repeat split; assumption.
Defined.

(** ** Rank normalisation *)

Module RankNormalizerFacts.
Import RankNormalizer.

Lemma canonical_rank_set (ranks : list string) (d : TaxonData) (depth : nat) :
  canonical_rank ranks (set_root_pathlength d depth) = canonical_rank ranks d.
Proof. reflexivity. Qed.

Lemma set_distances_below_depth (ranks : list string) (t : TaxonTree) :
  forall parent_depth d k,
    In d (nodes (set_distances_below ranks parent_depth t)) ->
    canonical_rank ranks d = Some k ->
    root_pathlength d = k.
Proof.
  induction t as [d0 children IH] using TaxonTree_induction.
  intros parent_depth d k Hin Hk. simpl in Hin.
  destruct Hin as [<- | Hin].
  - rewrite canonical_rank_set in Hk. rewrite Hk. reflexivity.
  - apply in_flat_map in Hin. destruct Hin as (c' & Hc' & Hd).
    apply in_map_iff in Hc'. destruct Hc' as (c & <- & Hc).
    rewrite Forall_forall in IH.
    eapply IH; eassumption.
Qed.

Lemma setRankDistances_depth (ranks : list string) (t : TaxonTree) (d : TaxonData)
    (k : nat) :
  In d (nodes (setRankDistances ranks t)) ->
  canonical_rank ranks d = Some k ->
  root_pathlength d = k.
Proof.
  destruct t as [d0 children]. simpl. intros [<- | Hin] Hk.
  - rewrite canonical_rank_set in Hk. rewrite Hk. reflexivity.
  - apply in_flat_map in Hin. destruct Hin as (c' & Hc' & Hd).
    apply in_map_iff in Hc'. destruct Hc' as (c & <- & Hc).
    eapply set_distances_below_depth; eassumption.
Qed.

Lemma has_rank_canonical (d : TaxonData) (r : string) (k : nat) :
  has_rank d r ->
  canonical_index default_ranks r = Some k ->
  canonical_rank default_ranks d = Some k.
Proof.
  intros (a & Ha & <-) Hk. unfold canonical_rank. rewrite Ha. exact Hk.
Qed.

(** C8: after [deleteUnmarkedNodes()] and [setRankDistances(ranks)] with
    the default marked ranks, a retained node whose annotation carries a
    canonical rank has that rank's canonical index as [root_pathlength]:
    superkingdom 1, phylum 2, class 3, order 4, family 5, genus 6,
    species 7. *)
Theorem normalized_depth (t : TaxonTree) (d : TaxonData) :
  In d (nodes (normalized t)) ->
  (forall r k, has_rank d r -> canonical_index default_ranks r = Some k ->
               root_pathlength d = k)
  /\ (has_rank d "superkingdom" -> root_pathlength d = 1%nat)
  /\ (has_rank d "phylum" -> root_pathlength d = 2%nat)
  /\ (has_rank d "class" -> root_pathlength d = 3%nat)
  /\ (has_rank d "order" -> root_pathlength d = 4%nat)
  /\ (has_rank d "family" -> root_pathlength d = 5%nat)
  /\ (has_rank d "genus" -> root_pathlength d = 6%nat)
  /\ (has_rank d "species" -> root_pathlength d = 7%nat).
Proof.
  intros Hin.
  assert (Hall : forall r k, has_rank d r ->
                   canonical_index default_ranks r = Some k ->
                   root_pathlength d = k).
  { intros r k Hr Hk.
    eapply setRankDistances_depth; [exact Hin|].
    eapply has_rank_canonical; eassumption. }
  split; [exact Hall|].
  repeat split; intros Hr; eapply Hall; try exact Hr; reflexivity.
Qed.

Example lineage_normalized :
  map (fun d => (taxid d, root_pathlength d)) (nodes (normalized lineage))
  = [(1, 0%nat); (2, 1%nat); (1224, 2%nat); (561, 6%nat)].
Proof. reflexivity. Qed.

(** The theorem at the genus of the lineage. *)
Lemma normalized_depth_witness :
  exists d, In d (nodes (normalized lineage))
            /\ has_rank d "genus" /\ root_pathlength d = 6%nat.
Proof.
  exists (set_root_pathlength (taxon_data 561 "Escherichia" "genus") 6).
  assert (Hin : In (set_root_pathlength (taxon_data 561 "Escherichia" "genus") 6)
                   (nodes (normalized lineage))).
  { simpl. right. right. right. left. reflexivity. }
  assert (Hr : has_rank (set_root_pathlength (taxon_data 561 "Escherichia" "genus") 6)
                 "genus").
  { eexists. split; reflexivity. }
  split; [exact Hin|]. split; [exact Hr|].
  exact (proj1 (proj2 (proj2 (proj2 (proj2 (proj2 (proj2
            (normalized_depth lineage _ Hin))))))) Hr).
Defined.

End RankNormalizerFacts.

(** ** Vectors, sets and machine integers *)

Lemma idx_ok {A} (v : list A) (i : nat) (a : A) :
  nth_error v i = Some a -> idx v i = Ok a.
Proof. unfold idx. intros ->. reflexivity. Qed.

Lemma idx_inv {A} (v : list A) (i : nat) (a : A) :
  idx v i = Ok a -> nth_error v i = Some a.
Proof. unfold idx. destruct (nth_error v i); [intros [= ->]; reflexivity | discriminate]. Qed.

Lemma idx_lt {A} (v : list A) (i : nat) :
  (i < List.length v)%nat -> exists a, idx v i = Ok a /\ nth_error v i = Some a.
Proof.
  intros Hlt. unfold idx.
  destruct (nth_error v i) as [a|] eqn:E.
  - exists a. split; reflexivity.
  - apply nth_error_None in E. lia.
Qed.

Lemma nth_error_snoc_old {A} (v : list A) (x : A) (j : nat) :
  (j < List.length v)%nat -> nth_error (v ++ [x]) j = nth_error v j.
Proof. intros Hj. apply nth_error_app1. exact Hj. Qed.

Lemma nth_error_snoc_new {A} (v : list A) (x : A) :
  nth_error (v ++ [x]) (List.length v) = Some x.
Proof. rewrite nth_error_app2 by lia. rewrite Nat.sub_diag. reflexivity. Qed.

Lemma upd_length {A} (v : list A) : forall i x, List.length (upd v i x) = List.length v.
Proof.
  induction v as [|a v IH]; intros i x; simpl.
  - reflexivity.
  - destruct i; simpl; [reflexivity | rewrite IH; reflexivity].
Qed.

Lemma set_insert_In (i : nat) (s : list nat) (j : nat) :
  In j (set_insert i s) <-> j = i \/ In j s.
Proof.
  induction s as [|k s IH]; simpl.
  - intuition.
  - destruct (i <? k)%nat; simpl; [intuition|].
    destruct (i =? k)%nat eqn:E; simpl.
    + apply Nat.eqb_eq in E. subst. intuition.
    + rewrite IH. intuition.
Qed.

Lemma set_erase_length (i : nat) (s : list nat) :
  (List.length (set_erase i s) <= List.length s)%nat.
Proof. unfold set_erase. apply filter_length_le. Qed.

Lemma to_int_range (z : Z) : INT_MIN <= to_int z <= INT_MAX.
Proof.
  unfold to_int, INT_MIN, INT_MAX, UINT_MODULUS.
  pose proof (Z.mod_pos_bound z 4294967296 ltac:(lia)).
  destruct (z mod 4294967296 <=? 2147483647) eqn:E.
  - apply Z.leb_le in E. lia.
  - apply Z.leb_gt in E. lia.
Qed.

Lemma to_int_small (z : Z) : 0 <= z <= INT_MAX -> to_int z = z.
Proof.
  unfold to_int, INT_MAX, UINT_MODULUS. intros Hz.
  rewrite Z.mod_small by lia.
  destruct (z <=? 2147483647) eqn:E; [reflexivity|].
  apply Z.leb_gt in E. lia.
Qed.

(** ** Pass 0 *)

Section Pass0Facts.
Context {node Seq : Type} `{Types} `{TaxonomyInterface node} `{Sequences Seq}.

Local Abbreviation record := (AlignmentRecordTaxonomy node).

Lemma retrieve_segments_unmasked (qrstart qrstop : Z) (rs : list record) :
  forall records_ordered rrseqs_ordered,
    retrieve_segments qrstart qrstop rs = Ok (records_ordered, rrseqs_ordered) ->
    records_ordered = unmasked rs
    /\ List.length rrseqs_ordered = List.length records_ordered.
Proof.
  induction rs as [|r rs IH]; intros ro rr; simpl.
  - intros [= <- <-]. split; reflexivity.
  - destruct (isFiltered r); simpl.
    + apply IH.
    + destruct (retrieve_segment qrstart qrstop r); simpl; try discriminate.
      destruct (retrieve_segments qrstart qrstop rs) as [[ro' rr']| | | |];
        simpl; try discriminate.
      intros [= <- <-]. destruct (IH ro' rr' eq_refl) as [-> Hlen].
      simpl. split; [reflexivity | lia].
Qed.

Lemma edit_score_range (qrseq : Seq) (rrseqs_ordered : list Seq) (rr : Seq) :
  scores_in_range qrseq rrseqs_ordered -> In rr rrseqs_ordered ->
  0 <= edit_score rr qrseq < INT_MAX.
Proof.
  intros Hs Hin. unfold edit_score. specialize (Hs rr Hin).
  rewrite to_int_small by lia. exact Hs.
Qed.

Section Loop.
Variables (qrseq : Seq) (qrlength : Z) (threshold : float).
Variables (records_ordered : list record) (rrseqs_ordered : list Seq).
Hypothesis scores_ok : scores_in_range qrseq rrseqs_ordered.
Hypothesis lengths : List.length rrseqs_ordered = List.length records_ordered.

Lemma pass0_body_inv (i : nat) (st : @pass0_state node) :
  (i < List.length records_ordered)%nat ->
  pass0_inv threshold records_ordered i st ->
  exists st',
    pass0_body qrseq qrlength threshold records_ordered rrseqs_ordered i st = Ok st'
    /\ pass0_inv threshold records_ordered (S i) st'.
Proof.
  intros Hi [Hq Hm Hb Hg Hsc Hmin Hsim].
  destruct (idx_lt records_ordered i Hi) as (rec & Hrec & Hnrec).
  destruct (idx_lt rrseqs_ordered i ltac:(lia)) as (rr & Hrr & Hnrr).
  apply nth_error_In in Hnrr.
  unfold pass0_body. rewrite Hrec. simpl.
  (* the three ways a record is scored *)
  assert (Hcase : exists qgroup score matches counter,
    pass0_score qrseq qrlength threshold rrseqs_ordered i rec st
    = Ok (qgroup, score, matches, counter)
    /\ ((qgroup = set_insert i (p0_qgroup st) /\ score < INT_MAX)
        \/ (qgroup = p0_qgroup st /\ score = INT_MAX
            /\ fle threshold (getScore rec) = false))).
  { unfold pass0_score.
    destruct ((getAlignmentLength rec =? qrlength) && (getIdentities rec =? qrlength)).
    - do 4 eexists. split; [reflexivity|]. left. split; [reflexivity|].
      unfold INT_MAX. lia.
    - destruct (fle threshold (getScore rec)) eqn:Ef.
      + rewrite Hrr. simpl. do 4 eexists. split; [reflexivity|].
        left. split; [reflexivity|].
        exact (proj2 (edit_score_range qrseq rrseqs_ordered rr scores_ok Hnrr)).
      + do 4 eexists. split; [reflexivity|]. right. repeat split; reflexivity. }
  destruct Hcase as (qgroup & score & matches & counter & -> & Hkind). simpl.
  (* the best entry so far, read after the push *)
  assert (Hbest : exists sb mb,
    nth_error (p0_qscores st ++ [score]) (p0_index_best st) = Some sb
    /\ nth_error (p0_matches st ++ [matches]) (p0_index_best st) = Some mb).
  { destruct Hb as [Hlt | [-> ->]].
    - destruct (idx_lt (p0_qscores st) (p0_index_best st) ltac:(lia)) as (sb & _ & Hsb).
      destruct (idx_lt (p0_matches st) (p0_index_best st) ltac:(lia)) as (mb & _ & Hmb).
      exists sb, mb. rewrite !nth_error_snoc_old by lia. split; assumption.
    - exists score, matches.
      destruct (p0_qscores st); [|discriminate].
      destruct (p0_matches st); [|discriminate]. split; reflexivity. }
  destruct Hbest as (sb & mb & Hsb & Hmb).
  rewrite (idx_ok _ _ _ Hsb), (idx_ok _ _ _ Hmb). simpl.
  eexists. split; [reflexivity|].
  assert (Hnew : forall j s, nth_error (p0_qscores st ++ [score]) j = Some s ->
            ((j < i)%nat /\ nth_error (p0_qscores st) j = Some s) \/ (j = i /\ s = score)).
  { intros j s Hj.
    destruct (Nat.lt_ge_cases j i) as [Hlt | Hge].
    - left. rewrite nth_error_snoc_old in Hj by lia. split; assumption.
    - right. assert (Hjlen : (j < List.length (p0_qscores st ++ [score]))%nat).
      { apply nth_error_Some. congruence. }
      rewrite length_app in Hjlen. simpl in Hjlen.
      assert (j = i) by lia. subst j. split; [reflexivity|].
      rewrite <- Hq in Hj. rewrite nth_error_snoc_new in Hj. congruence. }
  constructor; simpl.
  - rewrite length_app. simpl. lia.
  - rewrite length_app. simpl. lia.
  - left.
    destruct ((score <? sb) || ((score =? sb) && (mb <? matches))); [lia|].
    destruct Hb as [Hlt | [-> ->]]; lia.
  - intros j Hj.
    destruct Hkind as [[-> _] | [-> _]].
    + apply set_insert_In in Hj. destruct Hj as [-> | Hj]; [lia|].
      apply Hg in Hj. lia.
    + apply Hg in Hj. lia.
  - intros j s Hj Hs.
    destruct (Hnew j s Hj) as [[Hlt Hold] | [-> ->]].
    + specialize (Hsc j s Hold Hs).
      destruct Hkind as [[-> _] | [-> _]];
        [apply set_insert_In; right; exact Hsc | exact Hsc].
    + destruct Hkind as [[-> _] | [_ [-> _]]]; [|lia].
      apply set_insert_In. left. reflexivity.
  - intros j s sb' Hj Hsb'.
    destruct ((score <? sb) || ((score =? sb) && (mb <? matches))) eqn:Ecmp.
    + (* the new entry is the best *)
      pose proof (nth_error_snoc_new (p0_qscores st) score) as Hlast.
      rewrite Hq in Hlast. rewrite Hlast in Hsb'.
      injection Hsb' as <-.
      assert (Hle : score <= sb).
      { apply orb_prop in Ecmp. destruct Ecmp as [E | E].
        - apply Z.ltb_lt in E. lia.
        - apply andb_prop in E. destruct E as [E _]. apply Z.eqb_eq in E. lia. }
      destruct (Hnew j s Hj) as [[Hlt Hold] | [-> ->]]; [|lia].
      destruct Hb as [Hblt | [Hi0 Hb0]]; [|lia].
      rewrite nth_error_snoc_old in Hsb by lia.
      specialize (Hmin j s sb Hold Hsb). lia.
    + rewrite Hsb in Hsb'. injection Hsb' as <-.
      apply orb_false_elim in Ecmp. destruct Ecmp as [E _].
      apply Z.ltb_ge in E.
      destruct (Hnew j s Hj) as [[Hlt Hold] | [-> ->]]; [|lia].
      destruct Hb as [Hblt | [Hi0 Hb0]]; [|lia].
      rewrite nth_error_snoc_old in Hsb by lia.
      exact (Hmin j s sb Hold Hsb).
  - intros j r s Hr Hj Hf.
    destruct (Hnew j s Hj) as [[Hlt Hold] | [-> ->]].
    + exact (Hsim j r s Hr Hold Hf).
    + destruct Hkind as [[_ Hlt] | [_ [_ Hnf]]]; [exact Hlt|].
      rewrite Hnrec in Hr. injection Hr as <-. congruence.
Qed.

Lemma pass0_loop_inv :
  forall k i st,
    (i + k = List.length records_ordered)%nat ->
    pass0_inv threshold records_ordered i st ->
    exists st',
      pass0_loop qrseq qrlength threshold records_ordered rrseqs_ordered k i st
      = Ok st'
      /\ pass0_inv threshold records_ordered (i + k) st'.
Proof.
  induction k as [|k IH]; intros i st Hlen Hinv; simpl.
  - exists st. rewrite Nat.add_0_r. split; [reflexivity | exact Hinv].
  - destruct (pass0_body_inv i st ltac:(lia) Hinv) as (st1 & -> & Hinv1). simpl.
    destruct (IH (S i) st1 ltac:(lia) Hinv1) as (st2 & -> & Hinv2).
    exists st2. split; [reflexivity|].
    replace (i + S k)%nat with (S i + k)%nat by lia. exact Hinv2.
Qed.

(** The filter behind the loop keeps the best index when it is there. *)
Lemma keep_best_keeps (qscores rmatches : list Z) (index_best : nat) :
  (index_best < List.length qscores)%nat ->
  List.length rmatches = List.length qscores ->
  List.length qscores = List.length records_ordered ->
  forall qgroup rtax,
    (forall j, In j qgroup -> (j < List.length qscores)%nat) ->
    exists kept rtax',
      keep_best records_ordered qscores rmatches index_best qgroup rtax
      = Ok (kept, rtax')
      /\ (In index_best qgroup -> In index_best kept).
Proof.
  intros Hb Hlm Hlr.
  destruct (idx_lt qscores index_best Hb) as (sb & Hsb & _).
  destruct (idx_lt rmatches index_best ltac:(lia)) as (mb & Hmb & _).
  induction qgroup as [|it rest IH]; intros rtax Hrange; simpl.
  - do 2 eexists. split; [reflexivity|]. intros [].
  - assert (Hit : (it < List.length qscores)%nat) by (apply Hrange; left; reflexivity).
    destruct (idx_lt qscores it Hit) as (s & Hs & _).
    destruct (idx_lt rmatches it ltac:(lia)) as (m & Hm & _).
    destruct (idx_lt records_ordered it ltac:(lia)) as (rec & Hrec & _).
    rewrite Hs, Hsb, Hm, Hmb. simpl.
    destruct (negb (s =? sb) || negb (m =? mb)) eqn:Ecmp.
    + destruct (IH rtax) as (kept & rtax' & Hk & Hin).
      { intros j Hj. apply Hrange. right. exact Hj. }
      exists kept, rtax'. split; [exact Hk|].
      intros [-> | Hin']; [|exact (Hin Hin')].
      exfalso. rewrite Hs in Hsb. injection Hsb as ->.
      rewrite Hm in Hmb. injection Hmb as ->.
      rewrite !Z.eqb_refl in Ecmp. discriminate.
    + rewrite Hrec. simpl.
      destruct (IH (getLCA rtax (getReferenceNode rec))) as (kept & rtax' & Hk & Hin).
      { intros j Hj. apply Hrange. right. exact Hj. }
      rewrite Hk. simpl. exists (it :: kept), rtax'. split; [reflexivity|].
      intros [-> | Hin']; [left; reflexivity | right; exact (Hin Hin')].
Qed.

End Loop.
End Pass0Facts.

Section Pass0NonEmpty.
Context {node Seq : Type} `{Types} `{TaxonomyInterface node} `{Sequences Seq}.
Variables exclude_factor reeval_bandwidth : float.

Local Abbreviation record := (AlignmentRecordTaxonomy node).

Lemma screen_record_cases (threshold : float) (x : record) :
  (screen_record threshold x = x
   /\ (isFiltered x = true \/ flt (getScore x) threshold = false))
  \/ (isFiltered (screen_record threshold x) = true
      /\ isFiltered x = false /\ flt (getScore x) threshold = true).
Proof.
  unfold screen_record.
  destruct (isFiltered x) eqn:Ef; simpl.
  - left. split; [reflexivity | left; reflexivity].
  - destruct (flt (getScore x) threshold) eqn:Et.
    + right. repeat split; reflexivity.
    + left. split; [reflexivity | right; reflexivity].
Qed.

Lemma unmasked_screen (threshold : float) (rs : list record) :
  unmasked (map (screen_record threshold) rs)
  = filter (fun r => negb (flt (getScore r) threshold)) (unmasked rs).
Proof.
  induction rs as [|x rs IH]; simpl.
  - reflexivity.
  - destruct (screen_record_cases threshold x) as [[-> Hx] | (-> & Ef & Et)]; simpl.
    + destruct (isFiltered x) eqn:Ef; simpl; [exact IH|].
      destruct Hx as [Hx | Hx]; [discriminate|].
      rewrite Hx. simpl. rewrite IH. reflexivity.
    + rewrite Ef. simpl. rewrite Et. simpl. exact IH.
Qed.

Lemma unmasked_screen_In (threshold : float) (rs : list record) (r : record) :
  In r (unmasked (map (screen_record threshold) rs))
  <-> In r (unmasked rs) /\ flt (getScore r) threshold = false.
Proof.
  rewrite unmasked_screen, filter_In, negb_true_iff. reflexivity.
Qed.

(** After screening, some unmasked record still carries the best score. *)
Lemma best_score_survives (rs : list record) :
  (exclude_factor <= 1)%Q ->
  unmasked (screened exclude_factor rs) <> [] ->
  exists r, In r (unmasked (screened exclude_factor rs))
            /\ (snd (count_unmasked rs 0 0%Q) <= getScore r)%Q.
Proof.
  intros Hf Hne. unfold screened in *.
  pose proof (screen_spec exclude_factor rs) as Hs. simpl in Hs.
  rewrite Hs in *. simpl in *.
  pose proof (count_unmasked_lower rs 0 0%Q) as Hq0.
  set (q := snd (count_unmasked rs 0 0%Q)) in *.
  destruct (count_unmasked_attained rs 0 0%Q) as [Hzero | (r & Hin & Hr)];
    fold q in Hzero || fold q in Hr.
  - destruct (unmasked (map (screen_record (q * exclude_factor)%Q) rs))
      as [|r rest] eqn:E; [congruence|].
    exists r. split; [left; reflexivity|].
    assert (Hin : In r (unmasked (map (screen_record (q * exclude_factor)%Q) rs)))
      by (rewrite E; left; reflexivity).
    apply unmasked_screen_In in Hin. destruct Hin as [_ Hflt].
    apply flt_false in Hflt. rewrite Hzero in *. lra.
  - exists r. split.
    + apply unmasked_screen_In. split; [exact Hin|].
      apply flt_false. rewrite Hr. nra.
    + rewrite Hr. apply Qle_refl.
Qed.

(** Pass 0 runs to its end and leaves [qgroup] non-empty when some record
    reaches the threshold for re-alignment. *)
Lemma pass0_runs (reeval_factor : float) (qmaxscore : float) (qrseq : Seq)
    (qrlength : Z) (records_ordered : list record) (rrseqs_ordered : list Seq)
    (rbest : record) :
  List.length rrseqs_ordered = List.length records_ordered ->
  scores_in_range qrseq rrseqs_ordered ->
  In rbest records_ordered ->
  fle (reeval_factor * qmaxscore)%Q (getScore rbest) = true ->
  exists r0,
    pass0 reeval_factor (List.length records_ordered) qmaxscore qrseq qrlength
      records_ordered rrseqs_ordered = Ok r0
    /\ r0_qgroup r0 <> [].
Proof.
  intros Hlen Hscores Hin Hfle.
  set (threshold := (reeval_factor * qmaxscore)%Q) in *.
  assert (Hn : (1 <= List.length records_ordered)%nat).
  { destruct records_ordered; [destruct Hin | simpl; lia]. }
  unfold pass0. fold threshold.
  destruct (idx_lt records_ordered 0 ltac:(lia)) as (front & -> & _). simpl.
  destruct (pass0_loop_inv qrseq qrlength threshold records_ordered rrseqs_ordered
              Hscores Hlen (List.length records_ordered) 0
              {| p0_qgroup := []; p0_qscores := []; p0_matches := [];
                 p0_index_best := 0; p0_anchors_support := 0;
                 p0_lca_allnodes := getReferenceNode front; p0_counter := 0 |})
    as (st & -> & Hinv).
  { reflexivity. }
  { constructor; simpl; try reflexivity.
    - right. split; reflexivity.
    - intros j [].
    - intros j s Hj. destruct j; discriminate.
    - intros j s sb Hj. destruct j; discriminate.
    - intros j r s _ Hj. destruct j; discriminate. }
  simpl in Hinv. destruct Hinv as [Hq Hm Hb Hg Hsc Hmin Hsim]. simpl.
  assert (Hblt : (p0_index_best st < List.length records_ordered)%nat).
  { destruct Hb as [Hb | [Hb _]]; lia. }
  destruct (idx_lt records_ordered _ Hblt) as (best & -> & _). simpl.
  destruct (keep_best_keeps records_ordered rrseqs_ordered Hlen
              (p0_qscores st) (p0_matches st)
              (p0_index_best st) ltac:(lia) ltac:(lia) ltac:(lia)
              (p0_qgroup st) (getReferenceNode best))
    as (kept & rtax & -> & Hkeep).
  { intros j Hj. apply Hg in Hj. lia. }
  simpl.
  (* the record with the best local score was re-aligned *)
  apply In_nth_error in Hin. destruct Hin as (j & Hj).
  assert (Hjlt : (j < List.length records_ordered)%nat).
  { apply nth_error_Some. congruence. }
  destruct (idx_lt (p0_qscores st) j ltac:(lia)) as (s & _ & Hs).
  destruct (idx_lt (p0_qscores st) (p0_index_best st) ltac:(lia)) as (sb & _ & Hsb).
  pose proof (Hsim j rbest s Hj Hs Hfle) as Hslt.
  pose proof (Hmin j s sb Hs Hsb) as Hle.
  assert (Hinb : In (p0_index_best st) kept).
  { apply Hkeep. apply (Hsc _ sb Hsb). lia. }
  destruct kept as [|k kept]; [destruct Hinb|].
  eexists. split; [reflexivity|]. simpl. discriminate.
Qed.



End Pass0NonEmpty.


(** ** Pass 1: which records an anchor's loop goes through *)

Section Pass1Visits.
Context {node Seq : Type} `{Types} `{TaxonomyInterface node} `{Sequences Seq}.

Local Abbreviation record := (AlignmentRecordTaxonomy node).

Lemma pass1_score_origin (rrseqs_ordered : list Seq) (index_anchor i : nat)
    (st : @anchor_state node) (score : Z) (qscores rmatches : list Z) (counter : nat)
    (c : node) :
  pass1_score rrseqs_ordered index_anchor i st = Ok (score, qscores, rmatches, counter) ->
  score_origin rrseqs_ordered index_anchor (i, score, c).
Proof.
  unfold pass1_score, score_origin, visit_index, visit_score. simpl.
  destruct (i =? index_anchor)%nat eqn:Ei.
  - apply Nat.eqb_eq in Ei. intros [= <- _ _ _]. split; [reflexivity | congruence].
  - apply Nat.eqb_neq in Ei.
    destruct (idx (a_qscores st) i) as [qi| | | |]; simpl; try discriminate.
    destruct (idx (a_qscores st) index_anchor) as [qa| | | |]; simpl; try discriminate.
    destruct ((qi =? 0) && (qa =? 0)) eqn:Ez.
    + intros [= <- _ _ _]. apply andb_prop in Ez. destruct Ez as [Ez _].
      apply Z.eqb_eq in Ez. split; [congruence | left; exact Ez].
    + destruct (idx rrseqs_ordered i) as [si| | | |] eqn:Esi; simpl; try discriminate.
      destruct (idx rrseqs_ordered index_anchor) as [sa| | | |] eqn:Esa;
        simpl; try discriminate.
      destruct (idx (a_matches st) i) as [mi| | | |]; simpl; try discriminate.
      apply idx_inv in Esi. apply idx_inv in Esa.
      destruct ((qa =? 0) && negb (mi =? 0)); intros [= <- _ _ _];
        (split; [congruence | right; exists si, sa; repeat split; assumption]).
Qed.







End Pass1Visits.


Example identical_outside_pass0 :
  pass0 (9 # 10) 2 16%Q query_sequence 8 identical_outside
    (map list_ascii_of_string ["ACGTACGT"; "ACGTACGT"]%string)
  = Ok {| r0_qgroup := [0%nat]; r0_qscores := [0; INT_MAX]; r0_matches := [8; 0];
          r0_anchors_support := 8; r0_lca_allnodes := Root; r0_rtax := Ecoli;
          r0_counter := 0 |}.
Proof. vm_compute. reflexivity. Qed.

(** The state the loop is started from in that run is the one pass 0
    leads to. *)
Example two_lineages_pass0 :
  pass0 (9 # 10) 2 16%Q query_sequence 8 two_lineages
    (map list_ascii_of_string ["ACGTACGT"; "ACGTACGT"]%string)
  = Ok {| r0_qgroup := [0%nat; 1%nat]; r0_qscores := [0; 0]; r0_matches := [8; 8];
          r0_anchors_support := 8; r0_lca_allnodes := Root; r0_rtax := Root;
          r0_counter := 0 |}.
Proof. vm_compute. reflexivity. Qed.


Example three_hits_first_anchor :
  pass1_align three_hits
    (map list_ascii_of_string ["ACGTACGT"; "ACGTACGA"; "ACGTTTGA"]%string)
    0 0 3 (anchor_start Ecoli Ecoli [] [0; 1; 3] [8; 7; 5] 0)
  = Ok {| a_bandfactor1 := [(0, Ecoli); (3, Firmicutes); (1, Salmonella); (0, Ecoli)];
          a_lnode := Ecoli; a_lscore := 0; a_uscore := 1;
          a_outgroup_tmp := [(2%nat, 3); (1%nat, 1)];
          a_qgroup := [];
          a_qscores := [0; 1; 3]; a_matches := [8; 7; 5];
          a_counter := 2 |}.
Proof. vm_compute. reflexivity. Qed.

(** ** Pass 1 and pass 2: the node range and the interpolation value *)

Section Pass1Ranges.
Context {node Seq : Type} `{Types} `{TaxonomyInterface node} `{Sequences Seq}.
Local Abbreviation record := (AlignmentRecordTaxonomy node).

Lemma push_outgroup_raised (records_ordered : list record) (rtax : node)
    (min_upper_score : Z) :
  forall outgroup_tmp unode outgroup dist unode' outgroup' dist',
    push_outgroup records_ordered rtax min_upper_score outgroup_tmp unode
      outgroup dist = Ok (unode', outgroup', dist') ->
    match unode with
    | None => unode' = None
    | Some u => exists u', unode' = Some u' /\ raised_from u u'
    end.
Proof.
  induction outgroup_tmp as [|[i score] rest IH];
    intros unode outgroup dist unode' outgroup' dist' Hrun; simpl in Hrun.
  - injection Hrun as <- _ _. destruct unode as [u|]; [|reflexivity].
    exists u. split; [reflexivity|]. exists []. reflexivity.
  - bind_step Hrun.
    destruct (min_upper_score <? score).
    + eapply IH. exact Hrun.
    + destruct unode as [u|]; [|discriminate].
      assert (Hnext : exists og d,
                push_outgroup records_ordered rtax min_upper_score rest
                  (Some (getLCA (getReferenceNode a) u)) og d
                = Ok (unode', outgroup', dist')).
      { destruct (dist <? root_pathlength (getLCA (getReferenceNode a) rtax))%nat;
          [|destruct (root_pathlength (getLCA (getReferenceNode a) rtax) <? dist)%nat];
          eauto. }
      destruct Hnext as (og & d & Hnext).
      apply IH in Hnext. destruct Hnext as (u' & -> & cs & ->).
      exists (fold_left (fun u c => getLCA c u) cs (getLCA (getReferenceNode a) u)).
      split; [reflexivity|]. exists (getReferenceNode a :: cs). reflexivity.
Qed.

Lemma settle_nil (qscore_ex : Z) (outgroup_tmp : list (nat * Z)) (mus : Z) :
  outgroup_tmp = [] ->
  settle_min_upper_score qscore_ex outgroup_tmp mus = ([], mus).
Proof. intros ->. reflexivity. Qed.

Lemma pass1_score_range (rrseqs_ordered : list Seq) (index_anchor i : nat)
    (st : @anchor_state node) (score : Z) (qscores rmatches : list Z) (counter : nat) :
  pass1_score rrseqs_ordered index_anchor i st = Ok (score, qscores, rmatches, counter) ->
  score <= INT_MAX.
Proof.
  intros Hs.
  destruct (pass1_score_origin _ _ _ _ _ _ _ _ getRoot Hs) as [Ha Hn].
  unfold visit_index, visit_score in *. simpl in *.
  destruct (Nat.eq_dec i index_anchor) as [Heq | Hne].
  - rewrite (Ha Heq). unfold INT_MAX. lia.
  - destruct (Hn Hne) as [-> | (si & sa & _ & _ & ->)].
    + unfold INT_MAX. lia.
    + unfold edit_score. apply to_int_range.
Qed.

Lemma pass1_align_body_bracket (records_ordered : list record)
    (rrseqs_ordered : list Seq) (index_anchor : nat) (qscore : Z) (i : nat)
    (st st' : @anchor_state node) :
  pass1_align_body records_ordered rrseqs_ordered index_anchor qscore i st = Ok st' ->
  scores_bracket qscore st -> scores_bracket qscore st'.
Proof.
  unfold pass1_align_body. intros Hrun [Hl Hu].
  bind_step Hrun.
  destruct (pass1_score rrseqs_ordered index_anchor i st)
    as [[[[score qscores] rmatches] counter]| | | |] eqn:Escore;
    cbn [bind] in Hrun; try discriminate.
  apply pass1_score_range in Escore.
  destruct (score =? 0) eqn:Ez; [|destruct (score <=? qscore) eqn:El];
    injection Hrun as <-; split; simpl; try assumption.
  - destruct (a_lscore st <? score) eqn:Ecmp; [apply Z.ltb_lt in Ecmp|]; lia.
  - right. apply Z.leb_gt in El.
    destruct (score <? a_uscore st) eqn:Ecmp;
      [apply Z.ltb_lt in Ecmp | apply Z.ltb_ge in Ecmp];
      destruct Hu as [[_ Hu] | Hu]; lia.
Qed.

Lemma pass1_align_bracket (records_ordered : list record)
    (rrseqs_ordered : list Seq) (index_anchor : nat) (qscore : Z) :
  forall n (st a : @anchor_state node),
    pass1_align records_ordered rrseqs_ordered index_anchor qscore n st = Ok a ->
    scores_bracket qscore st -> scores_bracket qscore a.
Proof.
  induction n as [|n IH]; intros st a Hrun Hinv; simpl in Hrun.
  - destruct (node_eq_dec (a_lnode st) getRoot); injection Hrun as <-; exact Hinv.
  - destruct (node_eq_dec (a_lnode st) getRoot).
    + injection Hrun as <-. exact Hinv.
    + bind_step Hrun.
      eapply IH; [exact Hrun|].
      eapply pass1_align_body_bracket; eassumption.
Qed.

(** The interpolation value of one anchor. *)
Lemma anchor_ival_range (qscore lscore uscore : Z) :
  0 <= lscore -> lscore < qscore -> qscore < uscore <= INT_MAX ->
  (0 <= float_of_int (to_int (qscore - lscore))
        / float_of_int (to_int (uscore - lscore)) <= 1)%Q.
Proof.
  intros Hl Hq Hu.
  rewrite !to_int_small by lia.
  unfold float_of_int.
  assert (Ha : (0 < inject_Z (qscore - lscore))%Q).
  { rewrite <- (Zlt_Qlt 0). lia. }
  assert (Hb : (inject_Z (qscore - lscore) < inject_Z (uscore - lscore))%Q).
  { rewrite <- Zlt_Qlt. lia. }
  split.
  - apply Qle_shift_div_l; lra.
  - apply Qle_shift_div_r; lra.
Qed.

(** What one anchor contributes to the three global values. *)
Lemma pass1_anchor_contribution (n : nat) (records_ordered : list record)
    (rrseqs_ordered : list Seq) (rtax : node) (st st' : @pass1_state node) :
  pass1_anchor n records_ordered rrseqs_ordered rtax st = Ok st' ->
  exists lnode unode ival,
    p1_lnode_global st' = getLCA (p1_lnode_global st) lnode
    /\ p1_unode_global st' = getLCA (p1_unode_global st) unode
    /\ p1_ival_global st' = fmax ival (p1_ival_global st)
    /\ (unode = getRoot \/ raised_from lnode unode)
    /\ (0 <= ival <= 1)%Q.
Proof.
  unfold pass1_anchor. intros Hrun.
  destruct (p1_qgroup st) as [|index_anchor qgroup]; [discriminate|].
  bind_step Hrun. rename a into qscore.
  bind_step Hrun. rename a into anchor.
  bind_step Hrun.
  assert (Hbr : scores_bracket qscore a).
  { eapply pass1_align_bracket; [eassumption|].
    split; simpl; [lia | left; split; reflexivity]. }
  bind_step Hrun. rename a0 into bandfactor.
  bind_step Hrun. rename a0 into qscore_ex.
  destruct (settle_min_upper_score qscore_ex (a_outgroup_tmp a) INT_MAX)
    as [outgroup_tmp mus] eqn:Esettle.
  destruct (push_outgroup records_ordered rtax mus outgroup_tmp
              (if mus =? INT_MAX then None else Some (a_lnode a))
              (p1_outgroup st) (p1_lca_root_dist_min st))
    as [[[unode1 outgroup] dist]| | | |] eqn:Epush;
    cbn [bind] in Hrun; try discriminate.
  pose proof (push_outgroup_raised _ _ _ _ _ _ _ _ _ _ Epush) as Hraised.
  destruct unode1 as [u|].
  - (* an upper node was found *)
    assert (Hfrom : raised_from (a_lnode a) u /\ a_outgroup_tmp a <> []).
    { destruct (mus =? INT_MAX) eqn:Emus; [discriminate|].
      destruct Hraised as (u' & [= <-] & Hr). split; [exact Hr|].
      intros Hnil. rewrite (settle_nil _ _ _ Hnil) in Esettle.
      injection Esettle as _ <-. rewrite Z.eqb_refl in Emus. discriminate. }
    destruct Hfrom as [Hfrom Hne].
    destruct ((if node_eq_dec u (a_lnode a) then false else true)
              && (a_lscore a <? qscore)) eqn:Ecase;
      injection Hrun as <-; simpl;
      do 3 eexists; (split; [reflexivity|]); (split; [reflexivity|]);
      (split; [reflexivity|]); (split; [right; exact Hfrom|]).
    + apply andb_prop in Ecase. destruct Ecase as [_ Elt]. apply Z.ltb_lt in Elt.
      destruct Hbr as [Hl [[Hnil _] | Hu]]; [contradiction|].
      apply anchor_ival_range; assumption.
    + lra.
  - injection Hrun as <-. simpl.
    exists (a_lnode a), getRoot, 1%Q.
    repeat split; try reflexivity; [left; reflexivity | lra | lra].
Qed.

(** A property every anchor keeps is kept by the whole of pass 1. *)
Lemma pass1_loop_preserves (P : @pass1_state node -> Prop) (n : nat)
    (records_ordered : list record) (rrseqs_ordered : list Seq) (rtax : node) :
  (forall st st', pass1_anchor n records_ordered rrseqs_ordered rtax st = Ok st' ->
                  P st -> P st') ->
  forall fuel st st',
    pass1_loop fuel n records_ordered rrseqs_ordered rtax st = Ok st' ->
    P st -> P st'.
Proof.
  intros Hstep. induction fuel as [|fuel IH]; intros st st' Hrun HP; simpl in Hrun.
  - discriminate.
  - bind_step Hrun.
    assert (HPa : P a) by (eapply Hstep; eassumption).
    destruct (p1_qgroup a); [injection Hrun as <-; exact HPa|].
    destruct (node_eq_dec (p1_lnode_global a) getRoot);
      [injection Hrun as <-; exact HPa|].
    eapply IH; eassumption.
Qed.


Section WithLaws.
Context `{!TaxonomyLaws node}.

Lemma raised_from_parent (l u : node) : raised_from l u -> isParentOf u l = true.
Proof.
  intros (cs & ->). revert l.
  induction cs as [|c cs IH]; intros l; simpl.
  - apply isParentOf_refl.
  - eapply isParentOf_trans; [apply IH | apply getLCA_right].
Qed.

Lemma pass1_loop_range (n : nat) (records_ordered : list record)
    (rrseqs_ordered : list Seq) (rtax : node) (fuel : nat)
    (st st' : @pass1_state node) :
  pass1_loop fuel n records_ordered rrseqs_ordered rtax st = Ok st' ->
  isParentOf (p1_unode_global st) (p1_lnode_global st) = true ->
  isParentOf (p1_unode_global st') (p1_lnode_global st') = true.
Proof.
  apply (pass1_loop_preserves
           (fun s => isParentOf (p1_unode_global s) (p1_lnode_global s) = true)).
  intros s s' Hrun Hs.
  destruct (pass1_anchor_contribution _ _ _ _ _ _ Hrun)
    as (lnode & unode & ival & -> & -> & _ & Hup & _).
  assert (Hul : isParentOf unode lnode = true).
  { destruct Hup as [-> | Hup]; [apply isParentOf_root | apply raised_from_parent; exact Hup]. }
  apply getLCA_lowest.
  - eapply isParentOf_trans; [apply getLCA_left | exact Hs].
  - eapply isParentOf_trans; [apply getLCA_right | exact Hul].
Qed.

Lemma pass2_align_body_raises (records_ordered : list record)
    (rrseqs_ordered : list Seq) (index_anchor : nat) (qscore_ex : Z) (i : nat)
    (st st' : @pass2_state node) :
  pass2_align_body records_ordered rrseqs_ordered index_anchor qscore_ex i st = Ok st' ->
  isParentOf (p2_unode_global st') (p2_unode_global st) = true.
Proof.
  unfold pass2_align_body. intros Hrun.
  bind_step Hrun.
  destruct (pass2_score rrseqs_ordered index_anchor i (getReferenceNode a) st)
    as [[[score qscores] counter]| | | |]; cbn [bind] in Hrun; try discriminate.
  injection Hrun as <-. simpl.
  destruct (score <=? qscore_ex); [apply getLCA_left | apply isParentOf_refl].
Qed.

Lemma pass2_align_raises (records_ordered : list record)
    (rrseqs_ordered : list Seq) (index_anchor : nat) (qscore_ex : Z) :
  forall k i (st st' : @pass2_state node),
    pass2_align records_ordered rrseqs_ordered index_anchor qscore_ex k i st = Ok st' ->
    isParentOf (p2_unode_global st') (p2_unode_global st) = true.
Proof.
  induction k as [|k IH]; intros i st st' Hrun; simpl in Hrun.
  - injection Hrun as <-. apply isParentOf_refl.
  - bind_step Hrun.
    eapply isParentOf_trans; [eapply IH; exact Hrun|].
    eapply pass2_align_body_raises; eassumption.
Qed.

Lemma pass2_anchor_raises (n : nat) (qrseq : Seq) (records_ordered : list record)
    (rrseqs_ordered : list Seq) (lca_allnodes : node) (bandfactor_max : float)
    (index_anchor : nat) (st st' : @pass2_state node) :
  pass2_anchor n qrseq records_ordered rrseqs_ordered lca_allnodes bandfactor_max
    index_anchor st = Ok st' ->
  isParentOf (p2_unode_global st') (p2_unode_global st) = true.
Proof.
  unfold pass2_anchor. intros Hrun.
  destruct (node_eq_dec (p2_unode_global st) lca_allnodes).
  - injection Hrun as <-. apply isParentOf_refl.
  - bind_step Hrun. rename a into st1.
    assert (Hst1 : p2_unode_global st1 = p2_unode_global st).
    { unfold pass2_align_query in E. bind_step E.
      destruct (a =? 0).
      - bind_step E. injection E as <-. reflexivity.
      - injection E as <-. reflexivity. }
    bind_step Hrun. bind_step Hrun.
    rewrite <- Hst1. eapply pass2_align_raises. exact Hrun.
Qed.

Lemma pass2_loop_raises (n : nat) (qrseq : Seq) (records_ordered : list record)
    (rrseqs_ordered : list Seq) (lca_allnodes : node) (bandfactor_max : float) :
  forall fuel (st st' : @pass2_state node),
    pass2_loop fuel n qrseq records_ordered rrseqs_ordered lca_allnodes
      bandfactor_max st = Ok st' ->
    isParentOf (p2_unode_global st') (p2_unode_global st) = true.
Proof.
  induction fuel as [|fuel IH]; intros st st' Hrun; simpl in Hrun.
  - destruct (p2_outgroup st); [|discriminate].
    injection Hrun as <-. apply isParentOf_refl.
  - destruct (p2_outgroup st) as [|index_anchor outgroup].
    + injection Hrun as <-. apply isParentOf_refl.
    + bind_step Hrun.
      eapply isParentOf_trans; [eapply IH; exact Hrun|].
      apply pass2_anchor_raises in E. exact E.
Qed.

End WithLaws.
End Pass1Ranges.

Section PredictFacts.
Context {node Seq : Type} `{Types} `{TaxonomyInterface node} `{Sequences Seq}
        `{PredictionModelBase node}.
Variables exclude_factor reeval_factor : float.
Local Abbreviation record := (AlignmentRecordTaxonomy node).

(** The three ways [predict] comes to a prediction. *)
Lemma predict_paths (rs : list record) (p : PredictionRecord node)
    (out : @prediction node) :
  predict exclude_factor reeval_factor rs p = Ok out ->
  unmasked (screened exclude_factor rs) = []
  \/ (exists rec,
        unmasked (screened exclude_factor rs) = [rec]
        /\ getLowerNode (out_prec out) = Some (getReferenceNode rec)
        /\ getUpperNode (out_prec out) = Some getRoot
        /\ getInterpolationValue (out_prec out) = 1%Q)
  \/ (exists n qrseq records_ordered rrseqs_ordered r0 st1 st2 fuel1 fuel2,
        pass1_loop fuel1 n records_ordered rrseqs_ordered (r0_rtax r0)
          (pass1_start r0) = Ok st1
        /\ pass2_loop fuel2 n qrseq records_ordered rrseqs_ordered
             (r0_lca_allnodes r0) (p1_bandfactor_max st1) (pass2_start st1) = Ok st2
        /\ getLowerNode (out_prec out) = Some (p1_lnode_global st1)
        /\ getUpperNode (out_prec out) = Some (p2_unode_global st2)
        /\ getInterpolationValue (out_prec out)
           = if node_eq_dec (p2_unode_global st2) (p1_lnode_global st1)
             then 1%Q else p1_ival_global st1).
Proof.
  unfold predict, screened. rewrite (screen_spec exclude_factor rs). simpl.
  set (rs1 := map (screen_record
                     (snd (count_unmasked rs 0 0%Q) * exclude_factor)%Q) rs).
  destruct (unmasked rs1) as [|rec [|rec' rest]] eqn:Eun; simpl.
  - intros _. left. reflexivity.
  - intros Hrun. right. left. exists rec. split; [reflexivity|].
    destruct (firstUnmaskedIter_unmasked _ _ _ Eun) as (behind & Hfirst & _).
    rewrite Hfirst in Hrun. injection Hrun as <-. simpl.
    repeat split; reflexivity.
  - intros Hrun. right. right.
    destruct (firstUnmaskedIter rs1) as [[first behind]|]; [|discriminate].
    destruct (query_range behind (getQueryStart first) (getQueryStop first))
      as [qrstart qrstop].
    bind_step Hrun. rename a into qrseq.
    destruct (retrieve_segments qrstart qrstop rs1)
      as [[records_ordered rrseqs_ordered]| | | |];
      cbn [bind] in Hrun; try discriminate.
    bind_step Hrun. rename a into r0.
    bind_step Hrun. rename a into st1.
    bind_step Hrun. rename a into st2.
    injection Hrun as <-. simpl.
    do 9 eexists. split; [eassumption|]. split; [eassumption|].
    repeat split; reflexivity.
Qed.


(** C2: for a recordset with at least one unfiltered record, and a
    taxonomy interface that keeps its contract, the upper node of the
    emitted prediction is an ancestor of, or equal to, its lower node:
    [isParentOf(upperNode, lowerNode)] holds. *)
Theorem predict_upper_above_lower `{!TaxonomyLaws node} (rs : list record)
    (p : PredictionRecord node) (out : @prediction node) :
  predict exclude_factor reeval_factor rs p = Ok out ->
  unmasked (screened exclude_factor rs) <> [] ->
  exists lower upper,
    getLowerNode (out_prec out) = Some lower
    /\ getUpperNode (out_prec out) = Some upper
    /\ isParentOf upper lower = true.
Proof.
  intros Hrun Hne.
  destruct (predict_paths rs p out Hrun)
    as [Hnil | [(rec & _ & Hl & Hu & _)
               | (n & qrseq & ro & rr & r0 & st1 & st2 & f1 & f2
                  & H1run & H2run & Hl & Hu & _)]].
  - contradiction.
  - do 2 eexists. split; [exact Hl|]. split; [exact Hu|]. apply isParentOf_root.
  - do 2 eexists. split; [exact Hl|]. split; [exact Hu|].
    apply pass1_loop_range in H1run; [|simpl; apply isParentOf_refl].
    apply pass2_loop_raises in H2run. simpl in H2run.
    eapply isParentOf_trans; eassumption.
Qed.

End PredictFacts.

(** ** The fuel of the two loops is never used up *)

Lemma in_fuel_bind {A B} (m : result A) (k : A -> result B) :
  in_fuel m -> (forall a, m = Ok a -> in_fuel (k a)) -> in_fuel (bind m k).
Proof.
  unfold in_fuel. intros Hm Hk. destruct m; simpl; try discriminate.
  - apply Hk. reflexivity.
  - congruence.
Qed.

Lemma in_fuel_idx {A} (v : list A) (i : nat) : in_fuel (idx v i).
Proof. unfold in_fuel, idx. destruct (nth_error v i); discriminate. Qed.

Lemma in_fuel_fetch {A} (o : option A) : in_fuel (fetch o).
Proof. unfold in_fuel. destruct o; discriminate. Qed.

Lemma in_fuel_float_to_int (q : float) : in_fuel (float_to_int q).
Proof.
  unfold in_fuel, float_to_int.
  destruct ((INT_MIN <=? Qtrunc q) && (Qtrunc q <=? INT_MAX)); discriminate.
Qed.

Ltac in_fuel_step :=
  match goal with
  | |- in_fuel (bind _ _) => apply in_fuel_bind; [|intros ? ?]
  | |- in_fuel (idx _ _) => apply in_fuel_idx
  | |- in_fuel (fetch _) => apply in_fuel_fetch
  | |- in_fuel (float_to_int _) => apply in_fuel_float_to_int
  | |- in_fuel (Ok _) => discriminate
  | |- in_fuel Undefined => discriminate
  | |- in_fuel AssertionFailed => discriminate
  | |- in_fuel (if ?c then _ else _) => destruct c
  | |- in_fuel (match ?x with (_, _) => _ end) => destruct x
  | |- in_fuel (let (_, _) := ?x in _) => destruct x
  end.

Section Fuel.
Context {node Seq : Type} `{Types} `{TaxonomyInterface node} `{Sequences Seq}
        `{PredictionModelBase node}.
Local Abbreviation record := (AlignmentRecordTaxonomy node).

Lemma in_fuel_getFactor (data : list (Z * node)) : in_fuel (getFactor data).
Proof.
  unfold getFactor, setBandFactor. destruct (sort data) as [|[score anchor] rest];
    discriminate.
Qed.

Lemma in_fuel_retrieve_segments (qrstart qrstop : Z) (rs : list record) :
  in_fuel (retrieve_segments qrstart qrstop rs).
Proof.
  induction rs as [|r rs IH]; simpl.
  - discriminate.
  - destruct (isFiltered r); [exact IH|].
    apply in_fuel_bind.
    + unfold retrieve_segment. repeat in_fuel_step.
    + intros s _. apply in_fuel_bind; [exact IH|]. intros [ro rr] _. discriminate.
Qed.

Lemma in_fuel_pass0_loop (qrseq : Seq) (qrlength : Z) (threshold : float)
    (records_ordered : list record) (rrseqs_ordered : list Seq) :
  forall k i st,
    in_fuel (pass0_loop qrseq qrlength threshold records_ordered rrseqs_ordered k i st).
Proof.
  induction k as [|k IH]; intros i st; simpl.
  - discriminate.
  - apply in_fuel_bind; [|intros st' _; apply IH].
    unfold pass0_body, pass0_score. repeat in_fuel_step.
Qed.

Lemma in_fuel_keep_best (records_ordered : list record) (qscores rmatches : list Z)
    (index_best : nat) :
  forall qgroup rtax,
    in_fuel (keep_best records_ordered qscores rmatches index_best qgroup rtax).
Proof.
  induction qgroup as [|it rest IH]; intros rtax; simpl.
  - discriminate.
  - repeat in_fuel_step; try apply IH.
Qed.

Lemma in_fuel_pass0 (reeval_factor : float) (n : nat) (qmaxscore : float) (qrseq : Seq)
    (qrlength : Z) (records_ordered : list record) (rrseqs_ordered : list Seq) :
  in_fuel (pass0 reeval_factor n qmaxscore qrseq qrlength records_ordered
             rrseqs_ordered).
Proof.
  unfold pass0.
  in_fuel_step; [in_fuel_step|].
  in_fuel_step; [apply in_fuel_pass0_loop|].
  in_fuel_step; [in_fuel_step|].
  in_fuel_step; [apply in_fuel_keep_best|].
  destruct a2 as [[|j qgroup] rtax]; discriminate.
Qed.

Lemma pass0_qgroup_left (reeval_factor : float) (n : nat) (qmaxscore : float)
    (qrseq : Seq) (qrlength : Z) (records_ordered : list record)
    (rrseqs_ordered : list Seq) (r0 : @pass0_result node) :
  pass0 reeval_factor n qmaxscore qrseq qrlength records_ordered rrseqs_ordered = Ok r0 ->
  (1 <= List.length (r0_qgroup r0))%nat.
Proof.
  unfold pass0. intros Hrun.
  repeat bind_step Hrun.
  destruct a2 as [[|j qgroup] rtax]; [discriminate|].
  injection Hrun as <-. simpl. lia.
Qed.

(** An anchor's loop takes indices out of [qgroup] and puts none in. *)
Lemma pass1_align_qgroup (records_ordered : list record) (rrseqs_ordered : list Seq)
    (index_anchor : nat) (qscore : Z) :
  forall n (st a : @anchor_state node),
    pass1_align records_ordered rrseqs_ordered index_anchor qscore n st = Ok a ->
    (List.length (a_qgroup a) <= List.length (a_qgroup st))%nat.
Proof.
  induction n as [|n IH]; intros st a Hrun; simpl in Hrun.
  - destruct (node_eq_dec (a_lnode st) getRoot); injection Hrun as <-; lia.
  - destruct (node_eq_dec (a_lnode st) getRoot); [injection Hrun as <-; lia|].
    bind_step Hrun. apply IH in Hrun.
    assert (List.length (a_qgroup a0) <= List.length (a_qgroup st))%nat; [|lia].
    clear Hrun. unfold pass1_align_body in E.
    bind_step E.
    destruct (pass1_score rrseqs_ordered index_anchor n st)
      as [[[[score qscores] rmatches] counter]| | | |]; cbn [bind] in E;
      try discriminate.
    destruct (score =? 0); [|destruct (score <=? qscore)];
      injection E as <-; simpl; try lia.
    apply set_erase_length.
Qed.

Lemma in_fuel_pass1_align (records_ordered : list record) (rrseqs_ordered : list Seq)
    (index_anchor : nat) (qscore : Z) :
  forall n (st : @anchor_state node),
    in_fuel (pass1_align records_ordered rrseqs_ordered index_anchor qscore n st).
Proof.
  induction n as [|n IH]; intros st; simpl.
  - destruct (node_eq_dec (a_lnode st) getRoot); discriminate.
  - destruct (node_eq_dec (a_lnode st) getRoot); [discriminate|].
    apply in_fuel_bind; [|intros st' _; apply IH].
    unfold pass1_align_body, pass1_score. repeat in_fuel_step.
Qed.

Lemma in_fuel_push_outgroup (records_ordered : list record) (rtax : node)
    (min_upper_score : Z) :
  forall outgroup_tmp unode outgroup dist,
    in_fuel (push_outgroup records_ordered rtax min_upper_score outgroup_tmp unode
               outgroup dist).
Proof.
  induction outgroup_tmp as [|[i score] rest IH]; intros unode outgroup dist; simpl.
  - discriminate.
  - in_fuel_step; [in_fuel_step|].
    in_fuel_step; [apply IH|].
    destruct unode; [|discriminate].
    repeat in_fuel_step; apply IH.
Qed.

Lemma in_fuel_pass1_anchor (n : nat) (records_ordered : list record)
    (rrseqs_ordered : list Seq) (rtax : node) (st : @pass1_state node) :
  in_fuel (pass1_anchor n records_ordered rrseqs_ordered rtax st).
Proof.
  unfold pass1_anchor. destruct (p1_qgroup st); [discriminate|].
  in_fuel_step; [in_fuel_step|].
  in_fuel_step; [in_fuel_step|].
  in_fuel_step; [apply in_fuel_pass1_align|].
  in_fuel_step; [apply in_fuel_getFactor|].
  in_fuel_step; [in_fuel_step|].
  in_fuel_step.
  in_fuel_step; [apply in_fuel_push_outgroup|].
  destruct a4 as [[[u|] og] d]; [|discriminate].
  destruct ((if node_eq_dec u (a_lnode a1) then false else true)
            && (a_lscore a1 <? a)); discriminate.
Qed.

Lemma pass1_anchor_qgroup (n : nat) (records_ordered : list record)
    (rrseqs_ordered : list Seq) (rtax : node) (st st' : @pass1_state node) :
  pass1_anchor n records_ordered rrseqs_ordered rtax st = Ok st' ->
  (List.length (p1_qgroup st') < List.length (p1_qgroup st))%nat.
Proof.
  unfold pass1_anchor. intros Hrun.
  destruct (p1_qgroup st) as [|index_anchor qgroup]; [discriminate|].
  bind_step Hrun. bind_step Hrun. bind_step Hrun.
  apply pass1_align_qgroup in E1. simpl in E1.
  bind_step Hrun. bind_step Hrun.
  destruct (settle_min_upper_score a3 (a_outgroup_tmp a1) INT_MAX) as [tmp mus].
  bind_step Hrun. destruct a4 as [[[u|] og] d].
  - destruct ((if node_eq_dec u (a_lnode a1) then false else true)
              && (a_lscore a1 <? a));
      injection Hrun as <-; simpl; lia.
  - injection Hrun as <-. simpl. lia.
Qed.

Lemma in_fuel_pass1_loop (n : nat) (records_ordered : list record)
    (rrseqs_ordered : list Seq) (rtax : node) :
  forall fuel (st : @pass1_state node),
    (1 <= fuel)%nat -> (List.length (p1_qgroup st) <= fuel)%nat ->
    in_fuel (pass1_loop fuel n records_ordered rrseqs_ordered rtax st).
Proof.
  induction fuel as [|fuel IH]; intros st Hone Hlen; [lia|]. simpl.
  apply in_fuel_bind; [apply in_fuel_pass1_anchor|].
  intros st' Hst'. apply pass1_anchor_qgroup in Hst'.
  destruct (p1_qgroup st') as [|j qgroup] eqn:Eq; [discriminate|].
  destruct (node_eq_dec (p1_lnode_global st') getRoot); [discriminate|].
  apply IH; rewrite ?Eq; simpl in *; lia.
Qed.

Lemma in_fuel_pass2_align (records_ordered : list record) (rrseqs_ordered : list Seq)
    (index_anchor : nat) (qscore_ex : Z) :
  forall k i (st : @pass2_state node),
    in_fuel (pass2_align records_ordered rrseqs_ordered index_anchor qscore_ex k i st).
Proof.
  induction k as [|k IH]; intros i st; simpl.
  - discriminate.
  - apply in_fuel_bind; [|intros st' _; apply IH].
    unfold pass2_align_body, pass2_score. repeat in_fuel_step.
Qed.

Lemma pass2_align_outgroup (records_ordered : list record) (rrseqs_ordered : list Seq)
    (index_anchor : nat) (qscore_ex : Z) :
  forall k i (st st' : @pass2_state node),
    pass2_align records_ordered rrseqs_ordered index_anchor qscore_ex k i st = Ok st' ->
    (List.length (p2_outgroup st') <= List.length (p2_outgroup st))%nat.
Proof.
  induction k as [|k IH]; intros i st st' Hrun; simpl in Hrun.
  - injection Hrun as <-. lia.
  - bind_step Hrun. apply IH in Hrun.
    assert (List.length (p2_outgroup a) <= List.length (p2_outgroup st))%nat; [|lia].
    clear Hrun. unfold pass2_align_body in E. bind_step E.
    destruct (pass2_score rrseqs_ordered index_anchor i (getReferenceNode a0) st)
      as [[[score qscores] counter]| | | |]; cbn [bind] in E; try discriminate.
    injection E as <-. simpl.
    destruct (score =? 0); [apply set_erase_length | lia].
Qed.

Lemma in_fuel_pass2_anchor (n : nat) (qrseq : Seq) (records_ordered : list record)
    (rrseqs_ordered : list Seq) (lca_allnodes : node) (bandfactor_max : float)
    (index_anchor : nat) (st : @pass2_state node) :
  in_fuel (pass2_anchor n qrseq records_ordered rrseqs_ordered lca_allnodes
             bandfactor_max index_anchor st).
Proof.
  unfold pass2_anchor.
  destruct (node_eq_dec (p2_unode_global st) lca_allnodes); [discriminate|].
  in_fuel_step; [unfold pass2_align_query; repeat in_fuel_step|].
  in_fuel_step; [in_fuel_step|].
  in_fuel_step; [in_fuel_step|].
  apply in_fuel_pass2_align.
Qed.

Lemma pass2_anchor_outgroup (n : nat) (qrseq : Seq) (records_ordered : list record)
    (rrseqs_ordered : list Seq) (lca_allnodes : node) (bandfactor_max : float)
    (index_anchor : nat) (st st' : @pass2_state node) :
  pass2_anchor n qrseq records_ordered rrseqs_ordered lca_allnodes bandfactor_max
    index_anchor st = Ok st' ->
  (List.length (p2_outgroup st') <= List.length (p2_outgroup st))%nat.
Proof.
  unfold pass2_anchor. intros Hrun.
  destruct (node_eq_dec (p2_unode_global st) lca_allnodes);
    [injection Hrun as <-; lia|].
  bind_step Hrun. rename a into st1.
  assert (Hst1 : p2_outgroup st1 = p2_outgroup st).
  { unfold pass2_align_query in E. bind_step E.
    destruct (a =? 0).
    - bind_step E. injection E as <-. reflexivity.
    - injection E as <-. reflexivity. }
  bind_step Hrun. bind_step Hrun.
  apply pass2_align_outgroup in Hrun. rewrite Hst1 in Hrun. exact Hrun.
Qed.

Lemma in_fuel_pass2_loop (n : nat) (qrseq : Seq) (records_ordered : list record)
    (rrseqs_ordered : list Seq) (lca_allnodes : node) (bandfactor_max : float) :
  forall fuel (st : @pass2_state node),
    (List.length (p2_outgroup st) <= fuel)%nat ->
    in_fuel (pass2_loop fuel n qrseq records_ordered rrseqs_ordered lca_allnodes
               bandfactor_max st).
Proof.
  induction fuel as [|fuel IH]; intros st Hlen; simpl.
  - destruct (p2_outgroup st); [discriminate | simpl in Hlen; lia].
  - destruct (p2_outgroup st) as [|index_anchor outgroup] eqn:Eo; [discriminate|].
    apply in_fuel_bind; [apply in_fuel_pass2_anchor|].
    intros st' Hst'. apply pass2_anchor_outgroup in Hst'. simpl in *.
    apply IH. lia.
Qed.

(** The two loops of [predict] end by their own conditions: the fuel they
    are given, the sizes of [qgroup] and of [outgroup], is never used up. *)
Lemma predict_in_fuel (exclude_factor reeval_factor : float) (rs : list record)
    (p : PredictionRecord node) :
  predict exclude_factor reeval_factor rs p <> OutOfFuel.
Proof.
  change (in_fuel (predict exclude_factor reeval_factor rs p)).
  unfold predict.
  destruct (screen exclude_factor rs) as [[rs1 n] qmaxscore].
  destruct (n =? 0)%nat; [discriminate|].
  destruct (n =? 1)%nat.
  - destruct (firstUnmaskedIter rs1) as [[rec behind]|]; discriminate.
  - destruct (firstUnmaskedIter rs1) as [[rec behind]|]; [|discriminate].
    destruct (query_range behind (getQueryStart rec) (getQueryStop rec))
      as [qrstart qrstop].
    in_fuel_step; [in_fuel_step|].
    in_fuel_step; [apply in_fuel_retrieve_segments|].
    destruct a0 as [records_ordered rrseqs_ordered].
    apply in_fuel_bind; [apply in_fuel_pass0|]. intros r0 Hr0.
    apply pass0_qgroup_left in Hr0.
    apply in_fuel_bind; [apply in_fuel_pass1_loop; simpl; lia|]. intros st1 _.
    apply in_fuel_bind; [apply in_fuel_pass2_loop; simpl; lia|]. intros st2 _.
    discriminate.
Qed.

End Fuel.

(** ** When a run emits a prediction *)

Lemma float_to_int_product (B qscore : Z) (bandfactor : float) :
  1 <= B -> B * B < INT_MAX ->
  0 <= qscore <= B -> (1 <= bandfactor <= inject_Z B)%Q ->
  exists qscore_ex,
    float_to_int (float_of_int qscore * bandfactor)%Q = Ok qscore_ex
    /\ 0 <= qscore_ex < INT_MAX.
Proof.
  intros HB HBB Hq [Hb1 Hb2].
  unfold float_to_int, float_of_int.
  set (x := (inject_Z qscore * bandfactor)%Q).
  assert (Hx0 : (0 <= x)%Q).
  { unfold x. assert (0 <= inject_Z qscore)%Q by (rewrite <- (Zle_Qle 0); lia). nra. }
  assert (HxB : (x <= inject_Z (B * B))%Q).
  { unfold x. rewrite inject_Z_mult.
    assert (0 <= inject_Z qscore)%Q by (rewrite <- (Zle_Qle 0); lia).
    assert (inject_Z qscore <= inject_Z B)%Q by (rewrite <- Zle_Qle; lia).
    nra. }
  assert (Ht : Qtrunc x = Qfloor x).
  { unfold Qtrunc. apply Qle_bool_iff in Hx0. rewrite Hx0. reflexivity. }
  rewrite Ht.
  assert (Hf0 : 0 <= Qfloor x).
  { change 0 with (Qfloor 0). apply Qfloor_resp_le. exact Hx0. }
  assert (HfB : Qfloor x <= B * B).
  { rewrite <- (Qfloor_Z (B * B)). apply Qfloor_resp_le. exact HxB. }
  assert (Hin : (INT_MIN <=? Qfloor x) && (Qfloor x <=? INT_MAX) = true).
  { apply andb_true_intro. split; [apply Z.leb_le | apply Z.leb_le];
      unfold INT_MIN, INT_MAX in *; lia. }
  rewrite Hin. eexists. split; [reflexivity | lia].
Qed.

Section Emits.
Context {node Seq : Type} `{Types} `{TaxonomyInterface node} `{Sequences Seq}.
Local Abbreviation record := (AlignmentRecordTaxonomy node).

Variable B : Z.
Hypothesis B_pos : 1 <= B.
Hypothesis B_small : B * B < INT_MAX.

Lemma map_find_in_range (m : rank_map) (r : nat) (v : Z) :
  ranks_in_range B m -> map_find m r = Some v -> 0 <= v <= B.
Proof.
  induction m as [|[k w] m IH]; simpl; intros Hm Hf; [discriminate|].
  inversion Hm; subst.
  destruct (r =? k)%nat; [injection Hf as <-; assumption | auto].
Qed.

Lemma ratio_upper (score refscore : Z) :
  0 <= score <= B -> 1 <= refscore ->
  (float_of_int score / float_of_int refscore <= inject_Z B)%Q.
Proof.
  intros Hs Hr. unfold float_of_int.
  assert (0 < inject_Z refscore)%Q by (rewrite <- (Zlt_Qlt 0); lia).
  apply Qle_shift_div_r; [assumption|].
  assert (inject_Z score <= inject_Z B)%Q by (rewrite <- Zle_Qle; lia).
  assert (1 <= inject_Z refscore)%Q by (rewrite <- (Zle_Qle 1); lia).
  assert (0 <= inject_Z B)%Q by (rewrite <- (Zle_Qle 0); lia).
  nra.
Qed.

Lemma disorder_upper (m : rank_map) (score : Z) :
  ranks_in_range B m -> 0 <= score <= B ->
  forall r bandfactor,
    (bandfactor <= inject_Z B)%Q ->
    (disorder m score r bandfactor <= inject_Z B)%Q.
Proof.
  intros Hm Hs.
  assert (Hstep : forall r bandfactor, (bandfactor <= inject_Z B)%Q ->
            (match map_find m r with
             | Some refscore =>
                 if refscore =? 0 then bandfactor
                 else fmax bandfactor (float_of_int score / float_of_int refscore)
             | None => bandfactor
             end <= inject_Z B)%Q).
  { intros r bandfactor Hb.
    destruct (map_find m r) as [refscore|] eqn:Ef; [|exact Hb].
    pose proof (map_find_in_range m r refscore Hm Ef) as Hr.
    destruct (refscore =? 0) eqn:Ez; [exact Hb|].
    apply Z.eqb_neq in Ez.
    apply fmax_upper; [exact Hb | apply ratio_upper; lia]. }
  induction r as [|r IH]; intros bandfactor Hb; simpl.
  - apply Hstep. exact Hb.
  - apply IH. apply Hstep. exact Hb.
Qed.

Lemma band_loop_upper (anchor : node) :
  forall data m last_rank bandfactor,
    fed_in_range B data -> ranks_in_range B m ->
    (bandfactor <= inject_Z B)%Q ->
    (band_loop anchor data m last_rank bandfactor <= inject_Z B)%Q.
Proof.
  induction data as [|[score n] data IH]; intros m last_rank bandfactor Hd Hm Hb; simpl.
  - exact Hb.
  - inversion Hd as [|e l He Hl]; subst. simpl in He.
    destruct (root_pathlength (getLCA n anchor) =? last_rank)%nat; [apply IH; assumption|].
    destruct (root_pathlength (getLCA n anchor) <? last_rank)%nat.
    + apply IH; try assumption. constructor; [exact He | exact Hm].
    + apply IH; try assumption. apply disorder_upper; assumption.
Qed.

Lemma insert_by_score_in_range (x : Z * node) (l : list (Z * node)) :
  0 <= fst x <= B -> fed_in_range B l -> fed_in_range B (insert_by_score x l).
Proof.
  intros Hx. induction l as [|y l IH]; simpl; intros Hl.
  - constructor; [exact Hx | constructor].
  - inversion Hl as [|e l' Hy Hl']; subst.
    destruct (fst y <? fst x).
    + constructor; [exact Hy | apply IH; exact Hl'].
    + constructor; [exact Hx | exact Hl].
Qed.

Lemma sort_in_range (data : list (Z * node)) :
  fed_in_range B data -> fed_in_range B (sort data).
Proof.
  destruct data as [|first rest]; simpl; intros Hd; [constructor|].
  inversion Hd as [|e l Hfirst Hrest]; subst. constructor; [exact Hfirst|].
  clear Hd Hfirst. unfold sort_by_score.
  induction rest as [|x rest IH]; simpl; [constructor|].
  inversion Hrest as [|e l Hx Hrest']; subst.
  apply insert_by_score_in_range; [exact Hx | apply IH; exact Hrest'].
Qed.

Lemma getFactor_in_range (data : list (Z * node)) :
  data <> [] -> fed_in_range B data ->
  exists bandfactor,
    getFactor data = Ok bandfactor /\ (1 <= bandfactor <= inject_Z B)%Q.
Proof.
  intros Hne Hd.
  unfold getFactor.
  destruct (setBandFactor_bounds (sort data) (sort_nonempty data Hne))
    as (b & Hb & Hlo & _).
  exists b. split; [exact Hb|]. split; [exact Hlo|]. apply sort_in_range in Hd.
  destruct (sort data) as [|[score anchor] rest]; [discriminate|].
  simpl in Hb. injection Hb as <-.
  inversion Hd as [|e l He Hl]; subst. simpl in He.
  eapply Qle_trans.
  - unfold fmin. destruct (flt max_bandfactor _) eqn:E.
    + apply flt_true in E. apply Qlt_le_weak. exact E.
    + apply Qle_refl.
  - apply band_loop_upper; try assumption.
    + constructor; [exact He | constructor].
    + unfold min_bandfactor. rewrite <- (Zle_Qle 1). lia.
Qed.

(** *** The vectors of query scores and matches *)

Lemma nth_error_upd_same {A} (v : list A) :
  forall i x, (i < List.length v)%nat -> nth_error (upd v i x) i = Some x.
Proof.
  induction v as [|a v IH]; intros i x Hi; simpl in *; [lia|].
  destruct i; simpl; [reflexivity | apply IH; lia].
Qed.

Lemma nth_error_upd_other {A} (v : list A) :
  forall i j x, i <> j -> nth_error (upd v i x) j = nth_error v j.
Proof.
  induction v as [|a v IH]; intros i j x Hne; simpl; [reflexivity|].
  destruct i, j; simpl; try reflexivity; try congruence.
  apply IH. congruence.
Qed.

Lemma vectors_ok_upd (n : nat) (qscores rmatches : list Z) (i : nat) (s m : Z) :
  vectors_ok B n qscores rmatches -> (i < n)%nat -> 0 <= s <= B ->
  vectors_ok B n (upd qscores i s) (upd rmatches i m)
  /\ vectors_ok B n (upd qscores i s) rmatches.
Proof.
  intros (Hq & Hm & Hok) Hi Hs.
  split; (split; [rewrite upd_length; exact Hq|]);
    (split; [rewrite ?upd_length; exact Hm|]);
    intros j s' m' Hs' Hm';
    (destruct (Nat.eq_dec i j) as [<- | Hne];
     [rewrite nth_error_upd_same in Hs' by lia; injection Hs' as <-; left; exact Hs
     | rewrite nth_error_upd_other in Hs' by exact Hne;
       rewrite ?nth_error_upd_other in Hm' by exact Hne;
       eapply Hok; eassumption]).
Qed.

Lemma group_ok_upd (qscores : list Z) (group : list nat) (i : nat) (s : Z) :
  group_ok B qscores group -> 0 <= s <= B -> group_ok B (upd qscores i s) group.
Proof.
  intros Hg Hs j Hj. destruct (Hg j Hj) as (s' & Hs' & Hr).
  destruct (Nat.eq_dec i j) as [<- | Hne].
  - exists s. split; [|exact Hs]. apply nth_error_upd_same.
    apply nth_error_Some. congruence.
  - exists s'. split; [|exact Hr]. rewrite nth_error_upd_other by exact Hne. exact Hs'.
Qed.

Lemma group_ok_erase (qscores : list Z) (group : list nat) (i : nat) :
  group_ok B qscores group -> group_ok B qscores (set_erase i group).
Proof.
  intros Hg j Hj. apply Hg. unfold set_erase in Hj. apply filter_In in Hj. apply Hj.
Qed.

Lemma indices_below_insert (n i : nat) (l : list nat) :
  (i < n)%nat -> indices_below n l -> indices_below n (set_insert i l).
Proof.
  intros Hi Hl. apply Forall_forall. intros j Hj.
  apply set_insert_In in Hj. destruct Hj as [-> | Hj]; [exact Hi|].
  unfold indices_below in Hl. rewrite Forall_forall in Hl. apply Hl. exact Hj.
Qed.

Lemma indices_below_erase (n i : nat) (l : list nat) :
  indices_below n l -> indices_below n (set_erase i l).
Proof.
  intros Hl. apply Forall_forall. intros j Hj.
  unfold set_erase in Hj. apply filter_In in Hj.
  unfold indices_below in Hl. rewrite Forall_forall in Hl. apply Hl. apply Hj.
Qed.

(** *** The sequences at hand and their edit distances *)

Variables (qrseq : Seq) (records_ordered : list record) (rrseqs_ordered : list Seq).
Variable n : nat.
Hypothesis records_n : List.length records_ordered = n.
Hypothesis rrseqs_n : List.length rrseqs_ordered = n.
Hypothesis distances :
  forall a b, In a (qrseq :: rrseqs_ordered) -> In b (qrseq :: rrseqs_ordered) ->
              0 <= - globalAlignmentScore a b <= B.

Lemma edit_score_bounded (a b : Seq) :
  In a (qrseq :: rrseqs_ordered) -> In b (qrseq :: rrseqs_ordered) ->
  0 <= edit_score a b <= B.
Proof.
  intros Ha Hb. unfold edit_score. specialize (distances a b Ha Hb).
  rewrite to_int_small; [exact distances|]. nia.
Qed.

Lemma rrseq_at (i : nat) :
  (i < n)%nat ->
  exists s, idx rrseqs_ordered i = Ok s /\ In s (qrseq :: rrseqs_ordered).
Proof.
  intros Hi. destruct (idx_lt rrseqs_ordered i ltac:(lia)) as (s & Hs & Hn).
  exists s. split; [exact Hs|]. right. eapply nth_error_In. exact Hn.
Qed.


(** *** An anchor's loop *)

Lemma pass1_score_emits (index_anchor i : nat) (st : @anchor_state node) :
  (i < n)%nat -> (index_anchor < n)%nat ->
  vectors_ok B n (a_qscores st) (a_matches st) ->
  exists score qscores rmatches counter,
    pass1_score rrseqs_ordered index_anchor i st = Ok (score, qscores, rmatches, counter)
    /\ 0 <= score <= B
    /\ vectors_ok B n qscores rmatches
    /\ (forall g, group_ok B (a_qscores st) g -> group_ok B qscores g).
Proof.
  intros Hi Ha Hv. pose proof Hv as (Hq & Hm & _).
  unfold pass1_score.
  destruct (i =? index_anchor)%nat.
  { do 4 eexists. split; [reflexivity|]. repeat split; try lia; try apply Hv; auto. }
  destruct (idx_lt (a_qscores st) i ltac:(lia)) as (qi & -> & _).
  destruct (idx_lt (a_qscores st) index_anchor ltac:(lia)) as (qa & -> & _).
  cbn [bind].
  destruct ((qi =? 0) && (qa =? 0)) eqn:Ez.
  { apply andb_prop in Ez. destruct Ez as [Ez _]. apply Z.eqb_eq in Ez.
    do 4 eexists. split; [reflexivity|]. repeat split; try lia; try apply Hv; auto. }
  destruct (rrseq_at i Hi) as (si & -> & Hsi).
  destruct (rrseq_at index_anchor Ha) as (sa & -> & Hsa).
  destruct (idx_lt (a_matches st) i ltac:(lia)) as (mi & -> & _).
  cbn [bind].
  pose proof (edit_score_bounded si sa Hsi Hsa) as Hs.
  destruct ((qa =? 0) && negb (mi =? 0)).
  - do 4 eexists. split; [reflexivity|]. split; [exact Hs|]. split.
    + exact (proj1 (vectors_ok_upd n _ _ i _ _ Hv Hi Hs)).
    + intros g Hg. apply group_ok_upd; assumption.
  - do 4 eexists. split; [reflexivity|]. split; [exact Hs|]. split; [exact Hv | auto].
Qed.

Lemma pass1_align_body_emits (index_anchor : nat) (qscore : Z) (i : nat)
    (st : @anchor_state node) :
  (i < n)%nat -> (index_anchor < n)%nat -> anchor_ok B n st ->
  exists st',
    pass1_align_body records_ordered rrseqs_ordered index_anchor qscore i st = Ok st'
    /\ anchor_ok B n st'.
Proof.
  intros Hi Ha [Hv Hg Hf Hfs Ht].
  destruct (idx_lt records_ordered i ltac:(lia)) as (rec & Hrec & _).
  destruct (pass1_score_emits index_anchor i st Hi Ha Hv)
    as (score & qscores & rmatches & counter & Hscore & Hs & Hv' & Hg').
  unfold pass1_align_body. rewrite Hrec. cbn [bind]. rewrite Hscore. cbn [bind].
  assert (Hf' : fed_in_range B (addSequence (a_bandfactor1 st) score (getReferenceNode rec))).
  { unfold addSequence. apply Forall_app. split; [exact Hf|].
    constructor; [exact Hs | constructor]. }
  assert (Hfs' : addSequence (a_bandfactor1 st) score (getReferenceNode rec) <> []).
  { unfold addSequence. destruct (a_bandfactor1 st); discriminate. }
  destruct (score =? 0); [|destruct (score <=? qscore)];
    eexists; (split; [reflexivity|]); constructor; simpl; auto.
  - apply group_ok_erase. auto.
  - apply Forall_app. split; [exact Ht|]. constructor; [|constructor]. simpl. lia.
Qed.

Lemma pass1_align_emits (index_anchor : nat) (qscore : Z) :
  (index_anchor < n)%nat ->
  forall k (st : @anchor_state node),
    (k <= n)%nat -> anchor_ok B n st ->
    exists a,
      pass1_align records_ordered rrseqs_ordered index_anchor qscore k st = Ok a
      /\ anchor_ok B n a.
Proof.
  intros Ha. induction k as [|k IH]; intros st Hk Hok; simpl.
  - destruct (node_eq_dec (a_lnode st) getRoot); exists st; split;
      try reflexivity; exact Hok.
  - destruct (node_eq_dec (a_lnode st) getRoot); [exists st; split; [reflexivity | exact Hok]|].
    destruct (pass1_align_body_emits index_anchor qscore k st ltac:(lia) Ha Hok)
      as (st' & -> & Hok').
    cbn [bind]. apply IH; [lia | exact Hok'].
Qed.

(** The first walk over the temporary outgroup list. *)
Lemma settle_min_upper_score_ok (qscore_ex : Z) :
  qscore_ex < INT_MAX ->
  forall outgroup_tmp mus,
    tmp_ok B n outgroup_tmp ->
    mus = INT_MAX \/ 0 <= mus <= B ->
    tmp_ok B n (fst (settle_min_upper_score qscore_ex outgroup_tmp mus))
    /\ (0 <= mus <= B ->
        0 <= snd (settle_min_upper_score qscore_ex outgroup_tmp mus) <= B)
    /\ (snd (settle_min_upper_score qscore_ex outgroup_tmp mus) = INT_MAX ->
        fst (settle_min_upper_score qscore_ex outgroup_tmp mus) = []).
Proof.
  intros Hq. assert (HB : B < INT_MAX) by nia.
  induction outgroup_tmp as [|[i score] rest IH]; intros mus Ht Hm; simpl.
  - split; [constructor|]. split; [auto | reflexivity].
  - inversion Ht as [|e l [Hi Hs] Hrest]; subst. simpl in Hi, Hs.
    destruct (qscore_ex <? score) eqn:E1.
    + destruct (mus <? score) eqn:E2.
      * apply IH; assumption.
      * set (mus1 := if score <? mus then score else mus).
        assert (Hmus1 : 0 <= mus1 <= B).
        { unfold mus1. apply Z.ltb_ge in E2.
          destruct (score <? mus) eqn:E3; [lia|]. apply Z.ltb_ge in E3.
          destruct Hm; lia. }
        destruct (IH mus1 Hrest (or_intror Hmus1)) as (H1' & H2' & H3').
        destruct (settle_min_upper_score qscore_ex rest mus1) as [kept mus'].
        simpl in *. split; [|split].
        -- constructor; [simpl; lia | exact H1'].
        -- intros _. apply H2'. exact Hmus1.
        -- intros Heq. specialize (H2' Hmus1). lia.
    + set (mus1 := if qscore_ex <? mus then score else Z.max mus score).
      assert (Hmus1 : 0 <= mus1 <= B).
      { unfold mus1. destruct (qscore_ex <? mus) eqn:E3; [lia|].
        apply Z.ltb_ge in E3. destruct Hm; lia. }
      destruct (IH mus1 Hrest (or_intror Hmus1)) as (H1' & H2' & H3').
      destruct (settle_min_upper_score qscore_ex rest mus1) as [kept mus'].
      simpl in *. split; [|split].
      * constructor; [simpl; lia | exact H1'].
      * intros _. apply H2'. exact Hmus1.
      * intros Heq. specialize (H2' Hmus1). lia.
Qed.

(** The second walk. *)
Lemma push_outgroup_emits (rtax : node) (min_upper_score : Z) :
  forall outgroup_tmp unode outgroup dist,
    tmp_ok B n outgroup_tmp ->
    unode <> None \/ outgroup_tmp = [] ->
    indices_below n outgroup ->
    exists unode' outgroup' dist',
      push_outgroup records_ordered rtax min_upper_score outgroup_tmp unode
        outgroup dist = Ok (unode', outgroup', dist')
      /\ indices_below n outgroup'.
Proof.
  induction outgroup_tmp as [|[i score] rest IH];
    intros unode outgroup dist Ht Hu Ho; simpl.
  - do 3 eexists. split; [reflexivity | exact Ho].
  - inversion Ht as [|e l [Hi Hs] Hrest]; subst. simpl in Hi, Hs.
    destruct (idx_lt records_ordered i ltac:(lia)) as (rec & -> & _). cbn [bind].
    destruct Hu as [Hu | Hu]; [|discriminate].
    destruct unode as [u|]; [|congruence].
    destruct (min_upper_score <? score).
    + apply IH; [exact Hrest | left; discriminate | exact Ho].
    + destruct (dist <? root_pathlength (getLCA (getReferenceNode rec) rtax))%nat;
        [|destruct (root_pathlength (getLCA (getReferenceNode rec) rtax) <? dist)%nat];
        (apply IH; [exact Hrest | left; discriminate |]).
      * exact Ho.
      * constructor; [exact Hi | constructor].
      * apply indices_below_insert; assumption.
Qed.


(** *** Pass 1 *)

Lemma group_index_below (qscores rmatches : list Z) (group : list nat) (j : nat) :
  vectors_ok B n qscores rmatches -> group_ok B qscores group -> In j group ->
  (j < n)%nat.
Proof.
  intros (Hq & _ & _) Hg Hj. destruct (Hg j Hj) as (s & Hs & _).
  rewrite <- Hq. apply nth_error_Some. congruence.
Qed.

Lemma pass1_anchor_emits (rtax : node) (st : @pass1_state node) :
  pass1_ok B n st -> p1_qgroup st <> [] ->
  exists st', pass1_anchor n records_ordered rrseqs_ordered rtax st = Ok st'
              /\ pass1_ok B n st'.
Proof.
  intros [Hv Hg Ho Hb] Hne. unfold pass1_anchor.
  destruct (p1_qgroup st) as [|index_anchor qgroup] eqn:Eq; [congruence|].
  destruct (Hg index_anchor (or_introl eq_refl)) as (qscore & Hqs & Hq).
  assert (Ha : (index_anchor < n)%nat).
  { eapply group_index_below; [exact Hv | exact Hg | left; reflexivity]. }
  rewrite (idx_ok _ _ _ Hqs). cbn [bind].
  destruct (idx_lt records_ordered index_anchor ltac:(lia)) as (anchor & -> & _).
  cbn [bind].
  destruct (pass1_align_emits index_anchor qscore Ha n
              (anchor_start rtax (getReferenceNode anchor) qgroup (p1_qscores st)
                 (p1_matches st) (p1_counter st)) ltac:(lia))
    as (a & -> & [Hav Hag Haf Hafs Hat]).
  { constructor; simpl; auto.
    - intros j Hj. apply Hg. right. exact Hj.
    - constructor; [simpl; lia | constructor].
    - discriminate.
    - constructor. }
  cbn [bind].
  destruct (getFactor_in_range (a_bandfactor1 a) Hafs Haf) as (bandfactor & -> & Hbf).
  cbn [bind].
  destruct (float_to_int_product B qscore bandfactor B_pos B_small Hq Hbf)
    as (qscore_ex & -> & Hqex).
  cbn [bind].
  pose proof (settle_min_upper_score_ok qscore_ex (proj2 Hqex) (a_outgroup_tmp a)
                INT_MAX Hat (or_introl eq_refl)) as (Ht' & _ & Hnil).
  destruct (settle_min_upper_score qscore_ex (a_outgroup_tmp a) INT_MAX)
    as [outgroup_tmp mus]. simpl in Ht', Hnil.
  destruct (push_outgroup_emits rtax mus outgroup_tmp
              (if mus =? INT_MAX then None else Some (a_lnode a))
              (p1_outgroup st) (p1_lca_root_dist_min st) Ht')
    as (unode1 & outgroup & dist & -> & Ho').
  { destruct (mus =? INT_MAX) eqn:Em.
    - right. apply Hnil. apply Z.eqb_eq. exact Em.
    - left. discriminate. }
  { exact Ho. }
  cbn [bind].
  assert (Hb' : (1 <= fmax (p1_bandfactor_max st) bandfactor <= inject_Z B)%Q).
  { split; [apply fmax_lower; apply Hb | apply fmax_upper; [apply Hb | apply Hbf]]. }
  destruct unode1 as [u|].
  - destruct ((if node_eq_dec u (a_lnode a) then false else true)
              && (a_lscore a <? qscore));
      eexists; (split; [reflexivity|]); constructor; simpl; assumption.
  - eexists. split; [reflexivity|]. constructor; simpl; assumption.
Qed.

Lemma pass1_loop_emits (rtax : node) :
  forall fuel (st : @pass1_state node),
    pass1_ok B n st -> p1_qgroup st <> [] ->
    (List.length (p1_qgroup st) <= fuel)%nat ->
    exists st', pass1_loop fuel n records_ordered rrseqs_ordered rtax st = Ok st'
                /\ pass1_ok B n st'.
Proof.
  induction fuel as [|fuel IH]; intros st Hok Hne Hlen.
  - destruct (p1_qgroup st); [congruence | simpl in Hlen; lia].
  - simpl. destruct (pass1_anchor_emits rtax st Hok Hne) as (st' & Hrun & Hok').
    rewrite Hrun. cbn [bind].
    apply pass1_anchor_qgroup in Hrun.
    destruct (p1_qgroup st') as [|j qgroup] eqn:Eq;
      [exists st'; split; [reflexivity | exact Hok']|].
    destruct (node_eq_dec (p1_lnode_global st') getRoot);
      [exists st'; split; [reflexivity | exact Hok']|].
    apply IH; [exact Hok' | rewrite Eq; discriminate | rewrite Eq; simpl in *; lia].
Qed.

(** *** Pass 2 *)

Lemma pass2_align_body_emits (index_anchor : nat) (qscore_ex : Z) (i : nat)
    (st : @pass2_state node) :
  (i < n)%nat -> (index_anchor < n)%nat -> pass2_ok B n st ->
  exists st',
    pass2_align_body records_ordered rrseqs_ordered index_anchor qscore_ex i st = Ok st'
    /\ pass2_ok B n st'.
Proof.
  intros Hi Ha [Hv Ho].
  destruct (idx_lt records_ordered i ltac:(lia)) as (rec & Hrec & _).
  unfold pass2_align_body. rewrite Hrec. cbn [bind].
  assert (Hscore : exists score qscores counter,
            pass2_score rrseqs_ordered index_anchor i (getReferenceNode rec) st
            = Ok (score, qscores, counter)
            /\ vectors_ok B n qscores (p2_matches st)).
  { unfold pass2_score.
    destruct (i =? index_anchor)%nat; [do 3 eexists; split; [reflexivity | exact Hv]|].
    destruct (isParentOf (p2_unode_global st) (getReferenceNode rec)
              || (if node_eq_dec (getReferenceNode rec) (p2_unode_global st)
                  then true else false));
      [do 3 eexists; split; [reflexivity | exact Hv]|].
    destruct (rrseq_at i Hi) as (si & -> & Hsi).
    destruct (rrseq_at index_anchor Ha) as (sa & -> & Hsa).
    cbn [bind]. do 3 eexists. split; [reflexivity|].
    exact (proj2 (vectors_ok_upd n _ _ i _ 0 Hv Hi (edit_score_bounded si sa Hsi Hsa))). }
  destruct Hscore as (score & qscores & counter & -> & Hv'). cbn [bind].
  eexists. split; [reflexivity|]. constructor; simpl; [exact Hv'|].
  destruct (score =? 0); [apply indices_below_erase|]; exact Ho.
Qed.

Lemma pass2_align_emits (index_anchor : nat) (qscore_ex : Z) :
  (index_anchor < n)%nat ->
  forall k i (st : @pass2_state node),
    (i + k <= n)%nat -> pass2_ok B n st ->
    exists st',
      pass2_align records_ordered rrseqs_ordered index_anchor qscore_ex k i st = Ok st'
      /\ pass2_ok B n st'.
Proof.
  intros Ha. induction k as [|k IH]; intros i st Hk Hok; simpl.
  - exists st. split; [reflexivity | exact Hok].
  - destruct (pass2_align_body_emits index_anchor qscore_ex i st ltac:(lia) Ha Hok)
      as (st' & -> & Hok').
    cbn [bind]. apply IH; [lia | exact Hok'].
Qed.

Lemma pass2_anchor_emits (lca_allnodes : node) (bandfactor_max : float)
    (index_anchor : nat) (st : @pass2_state node) :
  (1 <= bandfactor_max <= inject_Z B)%Q ->
  (index_anchor < n)%nat -> pass2_ok B n st ->
  exists st',
    pass2_anchor n qrseq records_ordered rrseqs_ordered lca_allnodes bandfactor_max
      index_anchor st = Ok st'
    /\ pass2_ok B n st'.
Proof.
  intros Hb Ha Hok. unfold pass2_anchor.
  destruct (node_eq_dec (p2_unode_global st) lca_allnodes);
    [exists st; split; [reflexivity | exact Hok]|].
  destruct Hok as [Hv Ho]. pose proof Hv as (Hq & Hm & Hentry).
  destruct (idx_lt (p2_matches st) index_anchor ltac:(lia)) as (m & Hm1 & Hmn).
  destruct (idx_lt (p2_qscores st) index_anchor ltac:(lia)) as (s & Hs1 & Hsn).
  assert (Hquery : exists st1 qscore,
            pass2_align_query qrseq rrseqs_ordered index_anchor st = Ok st1
            /\ pass2_ok B n st1
            /\ idx (p2_qscores st1) index_anchor = Ok qscore
            /\ 0 <= qscore <= B).
  { unfold pass2_align_query. rewrite Hm1. cbn [bind].
    destruct (m =? 0) eqn:Em.
    - destruct (rrseq_at index_anchor Ha) as (sa & -> & Hsa). cbn [bind].
      pose proof (edit_score_bounded sa qrseq Hsa (or_introl eq_refl)) as Hes.
      do 2 eexists. split; [reflexivity|]. split; [|split].
      + constructor; simpl; [|exact Ho].
        exact (proj1 (vectors_ok_upd n _ _ index_anchor _ _ Hv Ha Hes)).
      + simpl. apply idx_ok. apply nth_error_upd_same. lia.
      + exact Hes.
    - exists st, s. split; [reflexivity|]. split; [constructor; assumption|].
      split; [exact Hs1|].
      destruct (Hentry index_anchor s m Hsn Hmn) as [Hr | [_ Hz]]; [exact Hr|].
      apply Z.eqb_neq in Em. contradiction. }
  destruct Hquery as (st1 & qscore & Hq1 & Hok1 & Hq2 & Hqs).
  rewrite Hq1. cbn [bind]. rewrite Hq2. cbn [bind].
  destruct (float_to_int_product B qscore bandfactor_max B_pos B_small Hqs Hb)
    as (qscore_ex & -> & _).
  cbn [bind]. apply pass2_align_emits; [exact Ha | lia | exact Hok1].
Qed.

Lemma pass2_loop_emits (lca_allnodes : node) (bandfactor_max : float) :
  (1 <= bandfactor_max <= inject_Z B)%Q ->
  forall fuel (st : @pass2_state node),
    pass2_ok B n st -> (List.length (p2_outgroup st) <= fuel)%nat ->
    exists st',
      pass2_loop fuel n qrseq records_ordered rrseqs_ordered lca_allnodes
        bandfactor_max st = Ok st'.
Proof.
  intros Hb. induction fuel as [|fuel IH]; intros st Hok Hlen; simpl.
  - destruct (p2_outgroup st); [eexists; reflexivity | simpl in Hlen; lia].
  - destruct Hok as [Hv Ho].
    destruct (p2_outgroup st) as [|index_anchor outgroup] eqn:Eo;
      [eexists; reflexivity|].
    pose proof (Forall_inv Ho) as Hj. pose proof (Forall_inv_tail Ho) as Hl.
    destruct (pass2_anchor_emits lca_allnodes bandfactor_max index_anchor
                {| p2_outgroup := outgroup; p2_qscores := p2_qscores st;
                   p2_matches := p2_matches st;
                   p2_unode_global := p2_unode_global st;
                   p2_counter := p2_counter st |} Hb Hj)
      as (st' & Hrun & Hok').
    { constructor; simpl; assumption. }
    rewrite Hrun. cbn [bind].
    apply pass2_anchor_outgroup in Hrun. simpl in Hrun, Hlen.
    apply IH; [exact Hok' | lia].
Qed.


(** *** Pass 0 hands pass 1 what it needs *)

Lemma pass0_score_kinds (qrlength : Z) (threshold : float) (i : nat) (rec : record)
    (st : @pass0_state node) (qgroup : list nat) (score matches : Z) (counter : nat) :
  (i < n)%nat ->
  pass0_score qrseq qrlength threshold rrseqs_ordered i rec st
  = Ok (qgroup, score, matches, counter) ->
  (qgroup = set_insert i (p0_qgroup st) /\ 0 <= score <= B)
  \/ (qgroup = p0_qgroup st /\ score = INT_MAX /\ matches = 0).
Proof.
  intros Hi. unfold pass0_score.
  destruct ((getAlignmentLength rec =? qrlength) && (getIdentities rec =? qrlength)).
  - intros [= <- <- _ _]. left. split; [reflexivity | lia].
  - destruct (fle threshold (getScore rec)).
    + destruct (rrseq_at i Hi) as (rr & -> & Hrr). cbn [bind].
      intros [= <- <- _ _]. left. split; [reflexivity|].
      apply edit_score_bounded; [exact Hrr | left; reflexivity].
    + intros [= <- <- <- _]. right. repeat split; reflexivity.
Qed.

Lemma pass0_body_ok (qrlength : Z) (threshold : float) (i : nat)
    (st st' : @pass0_state node) :
  (i < n)%nat ->
  pass0_body qrseq qrlength threshold records_ordered rrseqs_ordered i st = Ok st' ->
  pass0_ok B i st -> pass0_ok B (S i) st'.
Proof.
  intros Hi Hrun [(Hq & Hm & Hentry) Hg]. unfold pass0_body in Hrun.
  bind_step Hrun. rename a into rec.
  destruct (pass0_score qrseq qrlength threshold rrseqs_ordered i rec st)
    as [[[[qgroup score] matches] counter]| | | |] eqn:Escore;
    cbn [bind] in Hrun; try discriminate.
  apply (pass0_score_kinds _ _ _ _ _ _ _ _ _ Hi) in Escore.
  bind_step Hrun. bind_step Hrun. injection Hrun as <-. simpl.
  assert (Hnew : forall j s, nth_error (p0_qscores st ++ [score]) j = Some s ->
            ((j < i)%nat /\ nth_error (p0_qscores st) j = Some s) \/ (j = i /\ s = score)).
  { intros j s Hj.
    destruct (Nat.lt_ge_cases j i) as [Hlt | Hge].
    - left. rewrite nth_error_snoc_old in Hj by lia. split; assumption.
    - right. assert (Hjlen : (j < List.length (p0_qscores st ++ [score]))%nat).
      { apply nth_error_Some. congruence. }
      rewrite length_app in Hjlen. simpl in Hjlen.
      assert (j = i) by lia. subst j. split; [reflexivity|].
      pose proof (nth_error_snoc_new (p0_qscores st) score) as Hlast.
      rewrite Hq in Hlast. congruence. }
  unfold pass0_ok, vectors_ok. simpl.
  split; [split; [|split]|].
  - rewrite length_app. simpl. lia.
  - rewrite length_app. simpl. lia.
  - intros j s m Hs Hmj.
    destruct (Hnew j s Hs) as [[Hlt Hold] | [-> ->]].
    + rewrite nth_error_snoc_old in Hmj by lia. eapply Hentry; eassumption.
    + pose proof (nth_error_snoc_new (p0_matches st) matches) as Hlast.
      rewrite Hm in Hlast. rewrite Hlast in Hmj. injection Hmj as <-.
      destruct Escore as [[_ Hr] | [_ [-> ->]]]; [left; exact Hr | right; split; reflexivity].
  - intros j Hj.
    assert (Hold : forall j, In j (p0_qgroup st) ->
              exists s, nth_error (p0_qscores st ++ [score]) j = Some s /\ 0 <= s <= B).
    { intros j' Hj'. destruct (Hg j' Hj') as (s & Hs & Hr).
      exists s. split; [|exact Hr].
      rewrite nth_error_snoc_old; [exact Hs|]. apply nth_error_Some. congruence. }
    destruct Escore as [[-> Hr] | [-> _]]; [|apply Hold; exact Hj].
    apply set_insert_In in Hj. destruct Hj as [-> | Hj]; [|apply Hold; exact Hj].
    exists score. split; [|exact Hr].
    pose proof (nth_error_snoc_new (p0_qscores st) score) as Hlast.
    rewrite Hq in Hlast. exact Hlast.
Qed.

Lemma pass0_loop_ok (qrlength : Z) (threshold : float) :
  forall k i (st st' : @pass0_state node),
    (i + k <= n)%nat ->
    pass0_loop qrseq qrlength threshold records_ordered rrseqs_ordered k i st = Ok st' ->
    pass0_ok B i st -> pass0_ok B (i + k) st'.
Proof.
  induction k as [|k IH]; intros i st st' Hk Hrun Hok; simpl in Hrun.
  - injection Hrun as <-. rewrite Nat.add_0_r. exact Hok.
  - bind_step Hrun.
    replace (i + S k)%nat with (S i + k)%nat by lia.
    eapply IH; [lia | exact Hrun|].
    eapply pass0_body_ok; [|exact E | exact Hok]. lia.
Qed.

Lemma keep_best_subset (qscores rmatches : list Z) (index_best : nat) :
  forall qgroup rtax kept rtax',
    keep_best records_ordered qscores rmatches index_best qgroup rtax
    = Ok (kept, rtax') ->
    forall j, In j kept -> In j qgroup.
Proof.
  induction qgroup as [|it rest IH]; intros rtax kept rtax' Hrun j Hj; simpl in Hrun.
  - injection Hrun as <- _. destruct Hj.
  - do 4 bind_step Hrun.
    destruct (negb (a =? a0) || negb (a1 =? a2)).
    + right. eapply IH; eassumption.
    + bind_step Hrun.
      destruct (keep_best records_ordered qscores rmatches index_best rest
                  (getLCA rtax (getReferenceNode a3)))
        as [[kept' rtax'']| | | |] eqn:Ek; cbn [bind] in Hrun; try discriminate.
      injection Hrun as <- _.
      destruct Hj as [<- | Hj]; [left; reflexivity | right; eapply IH; eassumption].
Qed.

Lemma pass0_start_ok (reeval_factor qmaxscore : float) (qrlength : Z)
    (r0 : @pass0_result node) :
  pass0 reeval_factor n qmaxscore qrseq qrlength records_ordered rrseqs_ordered = Ok r0 ->
  pass1_ok B n (pass1_start r0) /\ p1_qgroup (pass1_start r0) <> [].
Proof.
  unfold pass0. intros Hrun.
  bind_step Hrun. bind_step Hrun. rename a0 into st.
  apply (pass0_loop_ok _ _ n 0 _ st ltac:(lia)) in E0.
  2:{ split; [split; [reflexivity | split; [reflexivity|]]|].
      - intros j s m Hs. destruct j; discriminate.
      - intros j []. }
  simpl in E0. destruct E0 as [Hv Hg].
  bind_step Hrun.
  destruct (keep_best records_ordered (p0_qscores st) (p0_matches st)
              (p0_index_best st) (p0_qgroup st) (getReferenceNode a0))
    as [[kept rtax]| | | |] eqn:Ek; cbn [bind] in Hrun; try discriminate.
  destruct kept as [|j kept]; [discriminate|].
  injection Hrun as <-. split; [|simpl; discriminate].
  constructor; simpl.
  - exact Hv.
  - intros j' Hj'. apply Hg. eapply keep_best_subset; eassumption.
  - constructor.
  - split; [lra|]. rewrite <- (Zle_Qle 1). exact B_pos.
Qed.

End Emits.

Section PredictEmits.
Context {node Seq : Type} `{Types} `{TaxonomyInterface node} `{Sequences Seq}
        `{PredictionModelBase node}.
Local Abbreviation record := (AlignmentRecordTaxonomy node).

(** A run emits a prediction when the stores deliver, the two factors are
    in their ranges and the edit distances are small enough for the
    widened threshold [qscore * bandfactor] to fit an [int]. *)
Theorem predict_emits (B : Z) (exclude_factor reeval_bandwidth : float)
    (rs : list record) (p : PredictionRecord node) :
  1 <= B -> B * B < INT_MAX ->
  (exclude_factor <= 1)%Q ->
  (0 <= reeval_bandwidth)%Q -> (reeval_bandwidth < 1)%Q ->
  stores_deliver B exclude_factor rs p ->
  exists out,
    predict exclude_factor (reeval_bandwidth_factor reeval_bandwidth) rs p = Ok out.
Proof.
  intros HB HBB Hf Hb0 Hb1 Hstores.
  pose proof (best_score_survives exclude_factor rs Hf) as Hbest.
  unfold stores_deliver, screened in Hstores, Hbest. unfold predict.
  rewrite (screen_spec exclude_factor rs) in *. simpl in Hstores, Hbest. simpl.
  pose proof (count_unmasked_lower rs 0 0%Q) as Hq0.
  set (qmaxscore := snd (count_unmasked rs 0 0%Q)) in *.
  set (rs1 := map (screen_record (qmaxscore * exclude_factor)%Q) rs) in *.
  destruct (unmasked rs1) as [|r [|r' rest]] eqn:Eun; simpl.
  - eexists. reflexivity.
  - destruct (firstUnmaskedIter_unmasked _ _ _ Eun) as (behind & -> & _).
    eexists. reflexivity.
  - destruct (firstUnmaskedIter_unmasked _ _ _ Eun) as (behind & Hfirst & _).
    rewrite Hfirst.
    destruct (Hstores r behind Hfirst) as (qrseq & ro & rr & Hq & Hret & Hdist).
    destruct (query_range behind (getQueryStart r) (getQueryStop r))
      as [qrstart qrstop]. simpl in Hq, Hret.
    rewrite Hq, Hret. cbn [fetch bind].
    destruct (retrieve_segments_unmasked _ _ _ _ _ Hret) as [Hro Hlen].
    destruct Hbest as (rbest & Hin & Hle); [discriminate|].
    rewrite Eun in Hro.
    assert (Hn : List.length ro = S (S (List.length rest))) by (rewrite Hro; reflexivity).
    rewrite <- Hn.
    destruct (pass0_runs (reeval_bandwidth_factor reeval_bandwidth) qmaxscore qrseq
                (to_large (qrstop - qrstart + 1)) ro rr rbest Hlen)
      as (r0 & Hr0 & _).
    { intros s Hs. specialize (Hdist s qrseq (or_intror Hs) (or_introl eq_refl)). nia. }
    { rewrite Hro. exact Hin. }
    { apply Qle_bool_iff. unfold reeval_bandwidth_factor. nra. }
    rewrite Hr0. cbn [bind].
    destruct (pass0_start_ok B HB HBB qrseq ro rr (List.length ro) eq_refl Hlen Hdist
                _ _ _ r0 Hr0) as [Hok1 Hne].
    destruct (pass1_loop_emits B HB HBB qrseq ro rr (List.length ro) eq_refl Hlen Hdist
                (r0_rtax r0) (List.length (r0_qgroup r0)) (pass1_start r0) Hok1 Hne
                ltac:(simpl; lia)) as (st1 & -> & [Hv1 _ Ho1 Hb]).
    cbn [bind].
    destruct (pass2_loop_emits B HB HBB qrseq ro rr (List.length ro) eq_refl Hlen Hdist
                (r0_lca_allnodes r0) (p1_bandfactor_max st1) Hb
                (List.length (p1_outgroup st1)) (pass2_start st1))
      as (st2 & ->).
    { constructor; simpl; assumption. }
    { simpl. lia. }
    cbn [bind]. eexists. reflexivity.
Qed.

End PredictEmits.

(** The small taxonomy keeps the contract of the interface. *)
#[export] Instance fixture_laws : TaxonomyLaws taxon.
Proof.
  constructor.
  - intros a. destruct a; reflexivity.
  - intros a b c. destruct a, b; try discriminate; destruct c;
      intros Hab Hbc; try reflexivity; discriminate.
  - intros a. destruct a; reflexivity.
  - intros a b. destruct a, b; reflexivity.
  - intros a b. destruct a, b; reflexivity.
  - intros a b c. destruct c, a; try discriminate; destruct b;
      intros Hca Hcb; try reflexivity; discriminate.
Qed.


Example relative_and_outgroup_ival :
  match predict (1 # 2) (9 # 10) relative_and_outgroup blank with
  | Ok out => Some (getLowerNode (out_prec out), getUpperNode (out_prec out),
                    getInterpolationValue (out_prec out))
  | _ => None
  end = Some (Some Salmonella, Some Bacteria, 1 # 2).
Proof. vm_compute. reflexivity. Qed.

(** C2 at the three hits: lower node Escherichia coli, upper node
    Proteobacteria. *)
Lemma predict_upper_above_lower_witness :
  exists out lower upper,
    predict (1 # 2) (9 # 10) three_hits blank = Ok out
    /\ getLowerNode (out_prec out) = Some lower
    /\ getUpperNode (out_prec out) = Some upper
    /\ isParentOf upper lower = true.
Proof.
  destruct (predict (1 # 2) (9 # 10) three_hits blank)
    as [out| | | |] eqn:Erun; try (vm_compute in Erun; discriminate Erun).
  destruct (predict_upper_above_lower (1 # 2) (9 # 10) three_hits blank out Erun)
    as (lower & upper & Hl & Hu & Hp).
  - vm_compute. discriminate.
  - exists out, lower, upper. repeat split; assumption.
Defined.

(** The run on the three hits meets the conditions under which a
    prediction is emitted, with 8 as bound of the edit distances. *)
Example three_hits_emit :
  exists out,
    predict (1 # 2) (reeval_bandwidth_factor (1 # 10)) three_hits blank = Ok out.
Proof.
  apply (predict_emits 8 (1 # 2) (1 # 10) three_hits blank).
  - lia.
  - vm_compute. reflexivity.
  - unfold Qle. simpl. lia.
  - unfold Qle. simpl. lia.
  - reflexivity.
  - intros first behind Hfirst. vm_compute in Hfirst. injection Hfirst as <- <-.
    do 3 eexists. split; [vm_compute; reflexivity|].
    split; [vm_compute; reflexivity|].
    intros a b Ha Hb. simpl in Ha, Hb.
    repeat (destruct Ha as [<- | Ha];
            [repeat (destruct Hb as [<- | Hb]; [vm_compute; split; discriminate|]);
             contradiction|]).
    contradiction.
Qed.

(** * More of the code

    The other tokenizer and the map loader of [utils.hh], the accumulator
    [BandFactor] as an object, and more of what a run of [predict] keeps
    true. *)

(** ** The tokenizers by fields *)

Module TokenizerFacts.
Import Utils UtilsWords.

Lemma find_in_span (delimiters : str) (t : str) :
  forall pos,
    match span delimiters t with
    | (pre, None) => find_in t delimiters pos = None /\ pre = t
    | (pre, Some post) =>
        find_in t delimiters pos = Some (pos + Z.of_nat (List.length pre))
        /\ exists d, is_delim delimiters d = true /\ t = pre ++ d :: post
    end.
Proof.
  induction t as [|c t IH]; intros pos; simpl.
  - split; reflexivity.
  - destruct (is_delim delimiters c) eqn:Ec.
    + simpl. split; [f_equal; lia|]. exists c. split; [exact Ec | reflexivity].
    + specialize (IH (pos + 1)).
      destruct (span delimiters t) as [pre [post|]].
      * destruct IH as [-> (d & Hd & ->)]. split.
        -- f_equal. simpl List.length. lia.
        -- exists d. split; [exact Hd | reflexivity].
      * destruct IH as [-> ->]. split; reflexivity.
Qed.

Lemma span_free (delimiters : str) (t : str) :
  forall c, In c (fst (span delimiters t)) -> is_delim delimiters c = false.
Proof.
  induction t as [|x t IH]; intros c; simpl.
  - intros [].
  - destruct (is_delim delimiters x) eqn:Ex; simpl.
    + intros [].
    + destruct (span delimiters t) as [pre post]. simpl in *.
      intros [<- | Hin]; [exact Ex | apply IH; exact Hin].
Qed.

Lemma span_cuts (delimiters : str) :
  cuts (fun d => exists c, d = [c] /\ is_delim delimiters c = true) (span delimiters).
Proof.
  intros t. pose proof (find_in_span delimiters t 0) as Hs.
  destruct (span delimiters t) as [pre [post|]]; [|exact I].
  destruct Hs as [_ (d & Hd & ->)]. exists [d]. split; [|reflexivity].
  exists d. split; [reflexivity | exact Hd].
Qed.

Lemma make_token_prefix (s pre rest : str) (k : nat) :
  Z.of_nat (List.length s) < SIZE_MODULUS ->
  skipn k s = pre ++ rest ->
  make_token s (Z.of_nat k) (Z.of_nat (k + List.length pre) - Z.of_nat k) = pre.
Proof.
  intros Hlen Hs. unfold make_token.
  assert (Hle : (List.length pre <= List.length s)%nat).
  { apply (f_equal (@List.length _)) in Hs.
    rewrite length_skipn, length_app in Hs. lia. }
  replace (Z.of_nat (k + List.length pre) - Z.of_nat k)
    with (Z.of_nat (List.length pre)) by lia.
  unfold to_size. rewrite Z.mod_small by lia.
  rewrite !Nat2Z.id, Hs.
  rewrite firstn_app, firstn_all, Nat.sub_diag. simpl. apply app_nil_r.
Qed.

Section SingleChar.
Variables (s delimiters : str) (trimempty : bool).
Hypothesis s_fits : Z.of_nat (List.length s) < SIZE_MODULUS.

Lemma tokenize_loop_fields :
  forall fuel k fieldnum tokens,
    (k <= List.length s)%nat ->
    (List.length s - k < fuel)%nat ->
    tokenize_loop fuel s delimiters (Z.of_nat (List.length s)) trimempty fieldnum
      (Z.of_nat k) tokens
    = Some (Z.of_nat (List.length s
                      - List.length (snd (fields (span delimiters) fuel (skipn k s)
                                            trimempty fieldnum))),
            tokens ++ fst (fields (span delimiters) fuel (skipn k s) trimempty fieldnum)).
Proof.
  induction fuel as [|fuel IH]; intros k fieldnum tokens Hk Hfuel; [lia|].
  cbn [tokenize_loop fields].
  destruct (fieldnum =? 0) eqn:Ef; cbn [negb andb orb].
  { cbn [fst snd]. rewrite length_skipn, app_nil_r. do 2 f_equal. lia. }
  destruct (skipn k s) as [|c t] eqn:Et.
  { assert (k = List.length s).
    { apply (f_equal (@List.length _)) in Et. rewrite length_skipn in Et.
      simpl in Et. lia. }
    subst k. rewrite Z.ltb_irrefl. cbn [fst snd List.length].
    rewrite app_nil_r. do 2 f_equal. lia. }
  assert (Hklt : (k < List.length s)%nat).
  { apply (f_equal (@List.length _)) in Et. rewrite length_skipn in Et.
    simpl in Et. lia. }
  replace (Z.of_nat k <? Z.of_nat (List.length s)) with true
    by (symmetry; apply Z.ltb_lt; lia).
  unfold find_first_of. rewrite Nat2Z.id, Et.
  pose proof (find_in_span delimiters (c :: t) (Z.of_nat k)) as Hspan.
  destruct (span delimiters (c :: t)) as [pre [post|]].
  - destruct Hspan as [-> (d & Hd & Hcut)].
    assert (Htok : make_token s (Z.of_nat k)
                     (Z.of_nat k + Z.of_nat (List.length pre) - Z.of_nat k) = pre).
    { rewrite <- Nat2Z.inj_add. eapply make_token_prefix; [exact s_fits|].
      rewrite Et. exact Hcut. }
    assert (Hpost : skipn (S (k + List.length pre)) s = post).
    { replace (S (k + List.length pre)) with (S (List.length pre) + k)%nat by lia.
      rewrite <- skipn_skipn, Et, Hcut.
      replace (pre ++ d :: post) with ((pre ++ [d]) ++ post)
        by (rewrite <- app_assoc; reflexivity).
      replace (S (List.length pre)) with (List.length (pre ++ [d]))
        by (rewrite length_app; simpl; lia).
      rewrite skipn_app, skipn_all, Nat.sub_diag. reflexivity. }
    assert (Hlen : (k + List.length pre < List.length s)%nat).
    { apply (f_equal (@List.length _)) in Et. rewrite length_skipn, Hcut in Et.
      rewrite length_app in Et. simpl in Et. lia. }
    replace (Z.of_nat k + Z.of_nat (List.length pre) + 1)
      with (Z.of_nat (S (k + List.length pre))) by lia.
    replace (Z.of_nat k + Z.of_nat (List.length pre) =? Z.of_nat k)
      with (match pre with [] => true | _ => false end)
      by (destruct pre; simpl List.length; symmetry;
          [apply Z.eqb_eq | apply Z.eqb_neq]; lia).
    replace (negb match pre with [] => true | _ :: _ => false end)
      with (match pre with [] => false | _ :: _ => true end)
      by (destruct pre; reflexivity).
    destruct ((match pre with [] => false | _ :: _ => true end) || negb trimempty).
    + rewrite IH by lia. rewrite Hpost, Htok.
      destruct (fields (span delimiters) fuel post trimempty (to_int (fieldnum - 1)))
        as [l r]. cbn [fst snd]. rewrite <- app_assoc. reflexivity.
    + rewrite IH by lia. rewrite Hpost. reflexivity.
  - destruct Hspan as [-> _].
    assert (Hne : negb (Z.of_nat (List.length s) =? Z.of_nat k) = true).
    { apply negb_true_iff, Z.eqb_neq. lia. }
    rewrite Hne. cbn [orb fst snd List.length].
    replace (Z.of_nat (List.length s) - Z.of_nat k)
      with (Z.of_nat (k + List.length (c :: t)) - Z.of_nat k).
    2:{ apply (f_equal (@List.length _)) in Et. rewrite length_skipn in Et.
        rewrite <- Et. lia. }
    rewrite (make_token_prefix s (c :: t) [] k s_fits)
      by (rewrite app_nil_r; exact Et).
    do 2 f_equal. lia.
Qed.

End SingleChar.

(** *** The loop on the part still to be read *)

Section Fields.
Variable cut : str -> str * option str.
Variable sep : str -> Prop.
Hypothesis cut_cuts : cuts sep cut.

Lemma fields_suffix :
  forall fuel t trimempty fieldnum,
    exists front, t = front ++ snd (fields cut fuel t trimempty fieldnum).
Proof.
  induction fuel as [|fuel IH]; intros t trimempty fieldnum; cbn [fields].
  - exists []. reflexivity.
  - destruct ((fieldnum =? 0) || match t with [] => true | _ => false end).
    + exists []. reflexivity.
    + pose proof (cut_cuts t) as Hc.
      destruct (cut t) as [pre [post|]].
      * destruct Hc as (d & _ & ->).
        destruct ((match pre with [] => false | _ => true end) || negb trimempty).
        -- destruct (IH post trimempty (to_int (fieldnum - 1))) as (front & Hf).
           destruct (fields cut fuel post trimempty (to_int (fieldnum - 1))) as [l r].
           cbn [snd] in *. exists (pre ++ d ++ front).
           rewrite Hf at 1. rewrite <- !app_assoc. reflexivity.
        -- destruct (IH post trimempty fieldnum) as (front & Hf).
           exists (pre ++ d ++ front).
           rewrite Hf at 1. rewrite <- !app_assoc. reflexivity.
      * exists t. cbn [snd]. rewrite app_nil_r. reflexivity.
Qed.

Lemma fields_count :
  forall fuel t trimempty fieldnum,
    0 <= fieldnum <= INT_MAX ->
    Z.of_nat (List.length (fst (fields cut fuel t trimempty fieldnum))) <= fieldnum.
Proof.
  induction fuel as [|fuel IH]; intros t trimempty fieldnum Hf; cbn [fields].
  - simpl. lia.
  - destruct (fieldnum =? 0) eqn:E0; cbn [orb].
    + simpl. lia.
    + apply Z.eqb_neq in E0.
      destruct t as [|c t]; [simpl; lia|].
      destruct (cut (c :: t)) as [pre [post|]].
      * destruct ((match pre with [] => false | _ => true end) || negb trimempty).
        -- specialize (IH post trimempty (to_int (fieldnum - 1))).
           rewrite to_int_small in IH by lia. rewrite to_int_small by lia.
           destruct (fields cut fuel post trimempty (fieldnum - 1)) as [l r].
           cbn [fst List.length] in *. lia.
        -- apply IH. lia.
      * simpl. lia.
Qed.

Lemma fields_trimmed :
  forall fuel t fieldnum,
    Forall (fun token => token <> []) (fst (fields cut fuel t true fieldnum)).
Proof.
  induction fuel as [|fuel IH]; intros t fieldnum; cbn [fields].
  - constructor.
  - destruct (fieldnum =? 0); cbn [orb]; [constructor|].
    destruct t as [|c t]; [constructor|].
    destruct (cut (c :: t)) as [pre [post|]].
    + destruct pre as [|x pre]; cbn [orb negb].
      * apply IH.
      * specialize (IH post (to_int (fieldnum - 1))).
        destruct (fields cut fuel post true (to_int (fieldnum - 1))) as [l r].
        cbn [fst] in *. constructor; [discriminate | exact IH].
    + cbn [fst]. constructor; [discriminate | constructor].
Qed.

Lemma fields_some :
  forall fuel t fieldnum,
    t <> [] -> fieldnum <> 0 ->
    fst (fields cut (S fuel) t false fieldnum) <> [].
Proof.
  intros fuel t fieldnum Ht Hf. cbn [fields].
  apply Z.eqb_neq in Hf. rewrite Hf. cbn [orb].
  destruct t as [|c t]; [congruence|].
  destruct (cut (c :: t)) as [pre [post|]].
  - rewrite orb_true_r.
    destruct (fields cut fuel post false (to_int (fieldnum - 1))) as [l r].
    discriminate.
  - discriminate.
Qed.

(** A property of every field the cut hands out is a property of every
    token the loop pushes. *)
Lemma fields_all (P : str -> Prop) :
  (forall t, P (fst (cut t))) ->
  (forall t, snd (cut t) = None -> fst (cut t) = t) ->
  forall fuel t trimempty fieldnum,
    Forall P (fst (fields cut fuel t trimempty fieldnum)).
Proof.
  intros Hfield Hwhole.
  induction fuel as [|fuel IH]; intros t trimempty fieldnum; cbn [fields].
  - constructor.
  - destruct ((fieldnum =? 0) || match t with [] => true | _ => false end);
      [constructor|].
    pose proof (Hfield t) as Hp. pose proof (Hwhole t) as Hw.
    destruct (cut t) as [pre [post|]]; cbn [fst snd] in *.
    + destruct ((match pre with [] => false | _ => true end) || negb trimempty).
      * specialize (IH post trimempty (to_int (fieldnum - 1))).
        destruct (fields cut fuel post trimempty (to_int (fieldnum - 1))) as [l r].
        cbn [fst] in *. constructor; assumption.
      * apply IH.
    + rewrite <- (Hw eq_refl). constructor; [exact Hp | constructor].
Qed.

(** With as many fields allowed as the string has characters, and a
    separator that is never empty, nothing is left unread. *)
Lemma fields_all_read :
  (forall d, sep d -> d <> []) ->
  forall fuel t trimempty fieldnum,
    (List.length t < fuel)%nat ->
    Z.of_nat (List.length t) <= fieldnum <= INT_MAX ->
    snd (fields cut fuel t trimempty fieldnum) = [].
Proof.
  intros Hsep.
  induction fuel as [|fuel IH]; intros t trimempty fieldnum Hfuel Hf; [lia|].
  cbn [fields].
  destruct t as [|c t]; [rewrite orb_true_r; reflexivity|].
  rewrite orb_false_r.
  destruct (fieldnum =? 0) eqn:E0; [apply Z.eqb_eq in E0; simpl in Hf; lia|].
  pose proof (cut_cuts (c :: t)) as Hc.
  destruct (cut (c :: t)) as [pre [post|]]; [|reflexivity].
  destruct Hc as (d & Hd & Hcut).
  assert (Hshort : (List.length post < List.length (c :: t))%nat).
  { rewrite Hcut, !length_app.
    specialize (Hsep d Hd). destruct d; [congruence|]. simpl. lia. }
  destruct ((match pre with [] => false | _ => true end) || negb trimempty).
  - specialize (IH post trimempty (to_int (fieldnum - 1))).
    rewrite to_int_small in IH by lia. rewrite to_int_small by lia.
    destruct (fields cut fuel post trimempty (fieldnum - 1)) as [l r].
    cbn [snd] in *. apply IH; lia.
  - apply IH; lia.
Qed.

End Fields.

Lemma join_snoc (d : str) (l : list str) (r : str) :
  join d (l ++ [r]) = List.concat (map (fun x => x ++ d) l) ++ r.
Proof.
  induction l as [|x l IH]; [reflexivity|].
  cbn [app map List.concat]. rewrite <- !app_assoc, <- IH.
  destruct l; reflexivity.
Qed.

(** Without trimming, and with one separator [d], the tokens joined by [d]
    are what was to be read, with one more [d] behind it when the loop ended
    on a field without separator. *)
Lemma fields_join (cut : str -> str * option str) (d : str) :
  cuts (eq d) cut ->
  forall fuel t fieldnum,
    let (l, r) := fields cut fuel t false fieldnum in
    join d (l ++ [r]) = t \/ (r = [] /\ join d (l ++ [r]) = t ++ d).
Proof.
  intros Hcut.
  induction fuel as [|fuel IH]; intros t fieldnum; cbn [fields].
  - left. reflexivity.
  - destruct ((fieldnum =? 0) || match t with [] => true | _ => false end);
      [left; reflexivity|].
    pose proof (Hcut t) as Hc.
    destruct (cut t) as [pre [post|]].
    + destruct Hc as (d' & <- & ->). rewrite orb_true_r.
      specialize (IH post (to_int (fieldnum - 1))).
      destruct (fields cut fuel post false (to_int (fieldnum - 1))) as [l r].
      rewrite join_snoc in *. cbn [map List.concat].
      destruct IH as [IH | [-> IH]].
      * left. rewrite <- !app_assoc. rewrite IH. reflexivity.
      * right. split; [reflexivity|]. rewrite <- !app_assoc.
        rewrite app_nil_r in *. rewrite IH. reflexivity.
    + right. split; [reflexivity|]. simpl. rewrite app_nil_r. reflexivity.
Qed.

(** *** tokenizeSingleCharDelim by its fields *)

Lemma tokenizeSingleCharDelim_fields (s : str) (tokens : list str)
    (delimiters : str) (fieldnum : Z) (trimempty : bool) :
  Z.of_nat (List.length s) < UINT_MODULUS ->
  tokenizeSingleCharDelim s tokens delimiters fieldnum trimempty
  = let (l, r) := fields (span delimiters) (S (List.length s)) s trimempty
                    (fieldnum_used s fieldnum) in
    Some (tokens ++ l ++ [r]).
Proof.
  intros Hlen.
  assert (Hsize : Z.of_nat (List.length s) < SIZE_MODULUS)
    by (unfold UINT_MODULUS, SIZE_MODULUS in *; lia).
  unfold tokenizeSingleCharDelim, tokenizeSingleCharDelim_fuel, fieldnum_used.
  assert (Hsl : to_uint (Z.of_nat (List.length s)) = Z.of_nat (List.length s)).
  { unfold to_uint. apply Z.mod_small. lia. }
  rewrite Hsl.
  set (fn := if fieldnum =? 0 then to_int (Z.of_nat (List.length s)) else fieldnum).
  pose proof (tokenize_loop_fields s delimiters trimempty Hsize (S (List.length s)) 0
                fn tokens ltac:(lia) ltac:(lia)) as Hloop.
  change (Z.of_nat 0) with 0 in Hloop. rewrite Hloop. clear Hloop.
  change (skipn 0 s) with s.
  destruct (fields_suffix (span delimiters) _ (span_cuts delimiters)
              (S (List.length s)) s trimempty fn) as (front & Hfront).
  destruct (fields (span delimiters) (S (List.length s)) s trimempty fn) as [l r].
  cbn [fst snd] in *.
  rewrite <- app_assoc. do 3 f_equal.
  pose proof (f_equal (@List.length _) Hfront) as Hlenf.
  rewrite length_app in Hlenf.
  replace (Z.of_nat (List.length s) - Z.of_nat (List.length s - List.length r))
    with (Z.of_nat (List.length s - List.length r + List.length r)
          - Z.of_nat (List.length s - List.length r)) by lia.
  f_equal. apply (make_token_prefix s r [] _ Hsize).
  rewrite app_nil_r.
  replace (List.length s - List.length r)%nat with (List.length front) by lia.
  rewrite Hfront, skipn_app, skipn_all, Nat.sub_diag. reflexivity.
Qed.


Lemma fields_span_characters (delimiters : str) :
  forall fuel t trimempty fieldnum,
    let (l, r) := fields (span delimiters) fuel t trimempty fieldnum in
    filter (fun c => negb (is_delim delimiters c)) (List.concat l ++ r)
    = filter (fun c => negb (is_delim delimiters c)) t.
Proof.
  induction fuel as [|fuel IH]; intros t trimempty fieldnum; cbn [fields].
  - reflexivity.
  - destruct ((fieldnum =? 0) || match t with [] => true | _ => false end);
      [reflexivity|].
    pose proof (find_in_span delimiters t 0) as Hs.
    destruct (span delimiters t) as [pre [post|]].
    + destruct Hs as [_ (d & Hd & ->)].
      assert (Hcut : filter (fun c => negb (is_delim delimiters c)) (pre ++ d :: post)
                     = filter (fun c => negb (is_delim delimiters c)) pre
                       ++ filter (fun c => negb (is_delim delimiters c)) post).
      { rewrite filter_app. simpl. rewrite Hd. reflexivity. }
      rewrite Hcut.
      destruct ((match pre with [] => false | _ => true end) || negb trimempty) eqn:Ep.
      * specialize (IH post trimempty (to_int (fieldnum - 1))).
        destruct (fields (span delimiters) fuel post trimempty (to_int (fieldnum - 1)))
          as [l r].
        cbn [List.concat]. rewrite <- app_assoc, filter_app, IH. reflexivity.
      * specialize (IH post trimempty fieldnum).
        destruct (fields (span delimiters) fuel post trimempty fieldnum) as [l r].
        rewrite IH.
        destruct pre; [reflexivity | discriminate].
    + simpl. rewrite !app_nil_r. reflexivity.
Qed.

Lemma span_one_cuts (d : ascii) : cuts (eq [d]) (span [d]).
Proof.
  intros t. pose proof (span_cuts [d] t) as Hc.
  destruct (span [d] t) as [pre [post|]]; [|exact I].
  destruct Hc as (x & (c & -> & Hc) & ->).
  exists [c]. split; [|reflexivity].
  unfold is_delim in Hc. simpl in Hc. rewrite orb_false_r in Hc.
  apply Ascii.eqb_eq in Hc. subst. reflexivity.
Qed.

Lemma fieldnum_used_nonzero (s : str) (fieldnum : Z) :
  s <> [] -> Z.of_nat (List.length s) < UINT_MODULUS ->
  fieldnum_used s fieldnum <> 0.
Proof.
  intros Hs Hlen. unfold fieldnum_used.
  destruct (fieldnum =? 0) eqn:E; [|apply Z.eqb_neq; exact E].
  apply UtilsFacts.to_int_nonzero. unfold to_uint.
  rewrite Z.mod_small by lia.
  destruct s; [congruence|]. simpl List.length in *. lia.
Qed.

(** A line that is not empty yields at least two tokens when nothing is
    trimmed. *)
Lemma tokenizeSingleCharDelim_two (s : str) (delimiters : str) (fieldnum : Z) :
  s <> [] -> Z.of_nat (List.length s) < UINT_MODULUS ->
  exists first second others,
    tokenizeSingleCharDelim s [] delimiters fieldnum false
    = Some (first :: second :: others).
Proof.
  intros Hs Hlen.
  rewrite (tokenizeSingleCharDelim_fields s [] delimiters fieldnum false Hlen).
  pose proof (fields_some (span delimiters) (List.length s) s
                (fieldnum_used s fieldnum) Hs (fieldnum_used_nonzero s fieldnum Hs Hlen))
    as Hsome.
  destruct (fields (span delimiters) (S (List.length s)) s false
              (fieldnum_used s fieldnum)) as [l r].
  cbn [fst] in Hsome. destruct l as [|x l]; [congruence|].
  destruct l as [|y l].
  - exists x, r, []. reflexivity.
  - exists x, y, (l ++ [r]). reflexivity.
Qed.

(** X1: of the tokens [tokenizeSingleCharDelim] appends, every one but the
    last is free of delimiter characters, and with [trimempty] none of them
    is empty (the input is of a length that fits [unsigned int]). *)
Theorem tokenizeSingleCharDelim_clean_fields (s : str) (tokens : list str)
    (delimiters : str) (fieldnum : Z) (trimempty : bool) :
  Z.of_nat (List.length s) < UINT_MODULUS ->
  exists before last,
    tokenizeSingleCharDelim s tokens delimiters fieldnum trimempty
    = Some (tokens ++ before ++ [last])
    /\ Forall (no_delim delimiters) before
    /\ (trimempty = true -> Forall (fun token => token <> []) before).
Proof.
  intros Hlen.
  rewrite (tokenizeSingleCharDelim_fields s tokens delimiters fieldnum trimempty Hlen).
  pose proof (fields_all (span delimiters) (no_delim delimiters)
                (span_free delimiters)) as Hfree.
  pose proof (fields_trimmed (span delimiters) (S (List.length s)) s
                (fieldnum_used s fieldnum)) as Htrim.
  specialize (Hfree ltac:(intros t Hn; pose proof (find_in_span delimiters t 0) as Hs;
                          destruct (span delimiters t) as [pre [post|]];
                          [discriminate | apply Hs])
                    (S (List.length s)) s trimempty (fieldnum_used s fieldnum)).
  destruct (fields (span delimiters) (S (List.length s)) s trimempty
              (fieldnum_used s fieldnum)) as [l r] eqn:Ef.
  exists l, r. split; [reflexivity|]. split; [exact Hfree|].
  intros ->. rewrite Ef in Htrim. exact Htrim.
Qed.

Lemma tokenizeSingleCharDelim_clean_fields_witness :
  exists before last,
    tokenizeSingleCharDelim (of_string "a,,b c") [] (of_string ", ") 0 true
    = Some ([] ++ before ++ [last])
    /\ Forall (no_delim (of_string ", ")) before
    /\ (true = true -> Forall (fun token => token <> []) before).
Proof.
  apply (tokenizeSingleCharDelim_clean_fields (of_string "a,,b c") []
           (of_string ", ") 0 true).
  reflexivity.
Defined.

(** X2: [tokenizeSingleCharDelim] loses and adds no character but
    delimiters: the characters of the appended tokens that are not
    delimiters are those of the input, in the same order. *)
Theorem tokenizeSingleCharDelim_keeps_characters (s : str) (tokens : list str)
    (delimiters : str) (fieldnum : Z) (trimempty : bool) :
  Z.of_nat (List.length s) < UINT_MODULUS ->
  exists added,
    tokenizeSingleCharDelim s tokens delimiters fieldnum trimempty
    = Some (tokens ++ added)
    /\ filter (fun c => negb (is_delim delimiters c)) (List.concat added)
       = filter (fun c => negb (is_delim delimiters c)) s.
Proof.
  intros Hlen.
  rewrite (tokenizeSingleCharDelim_fields s tokens delimiters fieldnum trimempty Hlen).
  pose proof (fields_span_characters delimiters (S (List.length s)) s trimempty
                (fieldnum_used s fieldnum)) as Hc.
  destruct (fields (span delimiters) (S (List.length s)) s trimempty
              (fieldnum_used s fieldnum)) as [l r].
  exists (l ++ [r]). split; [reflexivity|].
  rewrite concat_app. simpl. rewrite app_nil_r. exact Hc.
Qed.

Lemma tokenizeSingleCharDelim_keeps_characters_witness :
  exists added,
    tokenizeSingleCharDelim (of_string "k=v;w") [] (of_string "=;") 1 false
    = Some ([] ++ added)
    /\ filter (fun c => negb (is_delim (of_string "=;") c)) (List.concat added)
       = filter (fun c => negb (is_delim (of_string "=;") c)) (of_string "k=v;w").
Proof.
  apply (tokenizeSingleCharDelim_keeps_characters (of_string "k=v;w") []
           (of_string "=;") 1 false).
  reflexivity.
Defined.

(** X3: with one delimiter character [d] and without trimming, the
    appended tokens joined by [d] are the input again, or the input with one
    more [d] behind it (when the input ends in a field that no delimiter
    closes). *)
Theorem tokenizeSingleCharDelim_join (s : str) (tokens : list str) (d : ascii)
    (fieldnum : Z) :
  Z.of_nat (List.length s) < UINT_MODULUS ->
  exists added,
    tokenizeSingleCharDelim s tokens [d] fieldnum false = Some (tokens ++ added)
    /\ (join [d] added = s \/ join [d] added = s ++ [d]).
Proof.
  intros Hlen.
  rewrite (tokenizeSingleCharDelim_fields s tokens [d] fieldnum false Hlen).
  pose proof (fields_join (span [d]) [d] (span_one_cuts d) (S (List.length s)) s
                (fieldnum_used s fieldnum)) as Hj.
  destruct (fields (span [d]) (S (List.length s)) s false (fieldnum_used s fieldnum))
    as [l r].
  exists (l ++ [r]). split; [reflexivity|].
  destruct Hj as [Hj | [_ Hj]]; [left | right]; exact Hj.
Qed.

Lemma tokenizeSingleCharDelim_join_witness :
  exists added,
    tokenizeSingleCharDelim (of_string "a b  c") [] [" "%char] 0 false
    = Some ([] ++ added)
    /\ (join [" "%char] added = of_string "a b  c"
        \/ join [" "%char] added = of_string "a b  c" ++ [" "%char]).
Proof.
  apply (tokenizeSingleCharDelim_join (of_string "a b  c") [] " "%char 0).
  reflexivity.
Defined.

(** X4: with a positive [fieldnum], [tokenizeSingleCharDelim] appends at
    most [fieldnum + 1] tokens: at most [fieldnum] fields and the rest of
    the input. *)
Theorem tokenizeSingleCharDelim_fieldnum (s : str) (tokens : list str)
    (delimiters : str) (fieldnum : Z) (trimempty : bool) :
  Z.of_nat (List.length s) < UINT_MODULUS ->
  0 < fieldnum <= INT_MAX ->
  exists added,
    tokenizeSingleCharDelim s tokens delimiters fieldnum trimempty
    = Some (tokens ++ added)
    /\ Z.of_nat (List.length added) <= fieldnum + 1.
Proof.
  intros Hlen Hf.
  rewrite (tokenizeSingleCharDelim_fields s tokens delimiters fieldnum trimempty Hlen).
  unfold fieldnum_used.
  replace (fieldnum =? 0) with false by (symmetry; apply Z.eqb_neq; lia).
  pose proof (fields_count (span delimiters) (S (List.length s)) s trimempty fieldnum
                ltac:(lia)) as Hc.
  destruct (fields (span delimiters) (S (List.length s)) s trimempty fieldnum) as [l r].
  exists (l ++ [r]). split; [reflexivity|].
  cbn [fst] in Hc. rewrite length_app. simpl List.length. lia.
Qed.

Lemma tokenizeSingleCharDelim_fieldnum_witness :
  exists added,
    tokenizeSingleCharDelim (of_string "a b c d") [] (of_string " ") 2 false
    = Some ([] ++ added)
    /\ Z.of_nat (List.length added) <= 2 + 1.
Proof.
  apply (tokenizeSingleCharDelim_fieldnum (of_string "a b c d") [] (of_string " ")
           2 false).
  - reflexivity.
  - unfold INT_MAX. lia.
Defined.

(** X5: called with [fieldnum = 0] (the default), [tokenizeSingleCharDelim]
    reads the whole input, so that the token it appends last is always the
    empty one. *)
Theorem tokenizeSingleCharDelim_default_last (s : str) (tokens : list str)
    (delimiters : str) (trimempty : bool) :
  Z.of_nat (List.length s) <= INT_MAX ->
  exists before,
    tokenizeSingleCharDelim s tokens delimiters 0 trimempty
    = Some (tokens ++ before ++ [[]]).
Proof.
  intros Hlen.
  assert (Hfit : Z.of_nat (List.length s) < UINT_MODULUS)
    by (unfold INT_MAX, UINT_MODULUS in *; lia).
  rewrite (tokenizeSingleCharDelim_fields s tokens delimiters 0 trimempty Hfit).
  unfold fieldnum_used. simpl (0 =? 0).
  assert (Hfn : to_int (to_uint (Z.of_nat (List.length s))) = Z.of_nat (List.length s)).
  { unfold to_uint. rewrite Z.mod_small by lia. apply to_int_small. lia. }
  rewrite Hfn.
  pose proof (fields_all_read (span delimiters) _ (span_cuts delimiters)
                ltac:(intros d (c & -> & _); discriminate)
                (S (List.length s)) s trimempty (Z.of_nat (List.length s))
                ltac:(lia) ltac:(lia)) as Hr.
  destruct (fields (span delimiters) (S (List.length s)) s trimempty
              (Z.of_nat (List.length s))) as [l r].
  cbn [snd] in Hr. subst r. exists l. reflexivity.
Qed.

Lemma tokenizeSingleCharDelim_default_last_witness :
  exists before,
    tokenizeSingleCharDelim (of_string "a b") [] (of_string " ") 0 false
    = Some ([] ++ before ++ [[]]).
Proof.
  apply (tokenizeSingleCharDelim_default_last (of_string "a b") [] (of_string " ") false).
  unfold INT_MAX. simpl. lia.
Defined.


(** *** tokenizeMultiCharDelim *)

Lemma starts_with_app (p s : str) :
  starts_with p s = true -> s = p ++ skipn (List.length p) s.
Proof.
  revert s. induction p as [|a p IH]; intros s; simpl.
  - reflexivity.
  - destruct s as [|b s]; [discriminate|].
    intros Hs. apply andb_prop in Hs. destruct Hs as [Hab Hs].
    apply Ascii.eqb_eq in Hab. subst b. simpl. f_equal. apply IH. exact Hs.
Qed.

Lemma find_sub_span (delimiters : str) (t : str) :
  forall pos,
    match span_sub delimiters t with
    | (pre, None) => find_sub t delimiters pos = None /\ pre = t
    | (pre, Some post) =>
        find_sub t delimiters pos = Some (pos + Z.of_nat (List.length pre))
        /\ t = pre ++ delimiters ++ post
    end.
Proof.
  induction t as [|c t IH]; intros pos.
  - cbn [span_sub find_sub].
    destruct (starts_with delimiters []) eqn:Es.
    + split; [f_equal; simpl; lia|]. apply starts_with_app in Es. exact Es.
    + split; reflexivity.
  - cbn [span_sub find_sub].
    destruct (starts_with delimiters (c :: t)) eqn:Es.
    + split; [f_equal; simpl; lia|]. apply starts_with_app in Es. exact Es.
    + specialize (IH (pos + 1)).
      destruct (span_sub delimiters t) as [pre [post|]].
      * destruct IH as [-> ->]. split; [f_equal; simpl List.length; lia | reflexivity].
      * destruct IH as [-> ->]. split; reflexivity.
Qed.

Lemma span_sub_cuts (delimiters : str) : cuts (eq delimiters) (span_sub delimiters).
Proof.
  intros t. pose proof (find_sub_span delimiters t 0) as Hs.
  destruct (span_sub delimiters t) as [pre [post|]]; [|exact I].
  destruct Hs as [_ ->]. exists delimiters. split; reflexivity.
Qed.

(** One delimiter character: [find] is [find_first_of]. *)
Lemma find_sub_one (d : ascii) (t : str) :
  forall pos, find_sub t [d] pos = find_in t [d] pos.
Proof.
  induction t as [|c t IH]; intros pos; cbn [find_sub find_in starts_with].
  - reflexivity.
  - unfold is_delim. cbn [existsb]. rewrite orb_false_r, andb_true_r.
    rewrite (Ascii.eqb_sym d c).
    destruct (Ascii.eqb c d); [reflexivity | apply IH].
Qed.

Lemma tokenize_multi_loop_one (s : str) (d : ascii) (trimempty : bool) :
  Z.of_nat (List.length s) < SIZE_MODULUS ->
  forall fuel fieldnum lastpos tokens,
    0 <= lastpos ->
    tokenize_multi_loop fuel s [d] (to_uint (Z.of_nat (List.length s))) 1 trimempty
      fieldnum lastpos tokens
    = tokenize_loop fuel s [d] (to_uint (Z.of_nat (List.length s))) trimempty
        fieldnum lastpos tokens.
Proof.
  intros Hsize.
  induction fuel as [|fuel IH]; intros fieldnum lastpos tokens Hpos; [reflexivity|].
  cbn [tokenize_multi_loop tokenize_loop].
  destruct (negb (fieldnum =? 0) && (lastpos <? to_uint (Z.of_nat (List.length s))))
    eqn:Eg; [|reflexivity].
  apply andb_prop in Eg. destruct Eg as [_ Elt]. apply Z.ltb_lt in Elt.
  pose proof (UtilsFacts.stringlength_le s) as Hle.
  unfold find, find_first_of.
  replace (lastpos <=? Z.of_nat (List.length s)) with true
    by (symmetry; apply Z.leb_le; lia).
  rewrite find_sub_one.
  destruct (find_in (skipn (Z.to_nat lastpos) s) [d] lastpos) as [pos|] eqn:Ef;
    [|reflexivity].
  assert (Hrange : lastpos <= pos < Z.of_nat (List.length s)).
  { pose proof (find_in_span [d] (skipn (Z.to_nat lastpos) s) lastpos) as Hs.
    destruct (span [d] (skipn (Z.to_nat lastpos) s)) as [pre [post|]].
    - destruct Hs as [Hs (c & _ & Hcut)]. rewrite Hs in Ef. injection Ef as <-.
      apply (f_equal (@List.length _)) in Hcut.
      rewrite length_skipn, length_app in Hcut. simpl in Hcut. lia.
    - destruct Hs as [Hs _]. congruence. }
  assert (Hstep : to_size (pos + 1) = pos + 1).
  { unfold to_size. apply Z.mod_small. lia. }
  rewrite Hstep.
  destruct (negb (pos =? lastpos) || negb trimempty); apply IH; lia.
Qed.

(** X6: with a delimiter of one character the two tokenizers agree,
    whatever the other arguments (and the fuel) are. *)
Theorem tokenizeMultiCharDelim_one_character (fuel : nat) (s : str)
    (tokens : list str) (d : ascii) (fieldnum : Z) (trimempty : bool) :
  Z.of_nat (List.length s) < SIZE_MODULUS ->
  tokenizeMultiCharDelim_fuel fuel s tokens [d] fieldnum trimempty
  = tokenizeSingleCharDelim_fuel fuel s tokens [d] fieldnum trimempty.
Proof.
  intros Hsize.
  unfold tokenizeMultiCharDelim_fuel, tokenizeSingleCharDelim_fuel.
  change (to_int (Z.of_nat (List.length [d]))) with 1.
  rewrite tokenize_multi_loop_one by (assumption || lia). reflexivity.
Qed.

Lemma tokenizeMultiCharDelim_one_character_witness :
  tokenizeMultiCharDelim_fuel 6 (of_string "a,b,c") [] [","%char] 0 false
  = tokenizeSingleCharDelim_fuel 6 (of_string "a,b,c") [] [","%char] 0 false.
Proof.
  apply (tokenizeMultiCharDelim_one_character 6 (of_string "a,b,c") [] ","%char 0 false).
  reflexivity.
Defined.

Lemma find_empty (s : str) (lastpos : Z) :
  0 <= lastpos <= Z.of_nat (List.length s) -> find s [] lastpos = Some lastpos.
Proof.
  intros Hl. unfold find.
  replace (lastpos <=? Z.of_nat (List.length s)) with true
    by (symmetry; apply Z.leb_le; lia).
  destruct (skipn (Z.to_nat lastpos) s); reflexivity.
Qed.

(** X7: on the empty delimiter with [trimempty], [tokenizeMultiCharDelim]
    does not come to an end when the input is not empty: every iteration
    finds the delimiter at [lastpos], pushes nothing and leaves [lastpos]
    and [fieldnum] as they were. *)
Theorem tokenizeMultiCharDelim_empty_delimiter_loops (fuel : nat) (s : str)
    (tokens : list str) (fieldnum : Z) :
  s <> [] -> Z.of_nat (List.length s) < UINT_MODULUS ->
  tokenizeMultiCharDelim_fuel fuel s tokens [] fieldnum true = None.
Proof.
  intros Hs Hlen. unfold tokenizeMultiCharDelim_fuel.
  assert (Hsl : to_uint (Z.of_nat (List.length s)) = Z.of_nat (List.length s)).
  { unfold to_uint. apply Z.mod_small. lia. }
  pose proof (fieldnum_used_nonzero s fieldnum Hs Hlen) as Hfn.
  unfold fieldnum_used in Hfn.
  set (fn := if fieldnum =? 0 then to_int (to_uint (Z.of_nat (List.length s)))
             else fieldnum) in *.
  rewrite Hsl. change (to_int (Z.of_nat (List.length (@nil ascii)))) with 0.
  assert (Hloop : tokenize_multi_loop fuel s [] (Z.of_nat (List.length s)) 0 true
                    fn 0 tokens = None).
  { induction fuel as [|fuel IH]; [reflexivity|].
    cbn [tokenize_multi_loop].
    apply Z.eqb_neq in Hfn. rewrite Hfn.
    replace (0 <? Z.of_nat (List.length s)) with true
      by (symmetry; apply Z.ltb_lt; destruct s; [congruence | simpl List.length; lia]).
    cbn [negb andb]. rewrite find_empty by lia.
    cbn [Z.eqb negb orb]. exact IH. }
  rewrite Hloop. reflexivity.
Qed.

Lemma tokenizeMultiCharDelim_empty_delimiter_loops_witness :
  tokenizeMultiCharDelim_fuel 1000 (of_string "abc") [] [] 0 true = None.
Proof.
  apply (tokenizeMultiCharDelim_empty_delimiter_loops 1000 (of_string "abc") [] 0).
  - discriminate.
  - reflexivity.
Defined.

Section MultiChar.
Variables (s delimiters : str) (trimempty : bool).
Hypothesis s_fits : Z.of_nat (List.length s) <= INT_MAX.
Hypothesis some_delimiter : delimiters <> [].

Lemma tokenize_multi_loop_fields :
  forall fuel k fieldnum tokens,
    (k <= List.length s)%nat ->
    (List.length s - k < fuel)%nat ->
    tokenize_multi_loop fuel s delimiters (Z.of_nat (List.length s))
      (to_int (Z.of_nat (List.length delimiters))) trimempty fieldnum
      (Z.of_nat k) tokens
    = Some (Z.of_nat (List.length s
                      - List.length (snd (fields (span_sub delimiters) fuel (skipn k s)
                                            trimempty fieldnum))),
            tokens ++ fst (fields (span_sub delimiters) fuel (skipn k s) trimempty
                             fieldnum)).
Proof.
  assert (Hsize : Z.of_nat (List.length s) < SIZE_MODULUS)
    by (unfold INT_MAX, SIZE_MODULUS in *; lia).
  induction fuel as [|fuel IH]; intros k fieldnum tokens Hk Hfuel; [lia|].
  cbn [tokenize_multi_loop fields].
  destruct (fieldnum =? 0) eqn:Ef; cbn [negb andb orb].
  { cbn [fst snd]. rewrite length_skipn, app_nil_r. do 2 f_equal. lia. }
  destruct (skipn k s) as [|c t] eqn:Et.
  { assert (k = List.length s).
    { apply (f_equal (@List.length _)) in Et. rewrite length_skipn in Et.
      simpl in Et. lia. }
    subst k. rewrite Z.ltb_irrefl. cbn [fst snd List.length].
    rewrite app_nil_r. do 2 f_equal. lia. }
  assert (Hklt : (k < List.length s)%nat).
  { apply (f_equal (@List.length _)) in Et. rewrite length_skipn in Et.
    simpl in Et. lia. }
  replace (Z.of_nat k <? Z.of_nat (List.length s)) with true
    by (symmetry; apply Z.ltb_lt; lia).
  unfold find.
  replace (Z.of_nat k <=? Z.of_nat (List.length s)) with true
    by (symmetry; apply Z.leb_le; lia).
  rewrite Nat2Z.id, Et.
  pose proof (find_sub_span delimiters (c :: t) (Z.of_nat k)) as Hspan.
  destruct (span_sub delimiters (c :: t)) as [pre [post|]].
  - destruct Hspan as [-> Hcut].
    assert (Htok : make_token s (Z.of_nat k)
                     (Z.of_nat k + Z.of_nat (List.length pre) - Z.of_nat k) = pre).
    { rewrite <- Nat2Z.inj_add. eapply make_token_prefix; [exact Hsize|].
      rewrite Et. exact Hcut. }
    assert (Hlen : (k + List.length pre + List.length delimiters <= List.length s)%nat).
    { apply (f_equal (@List.length _)) in Et. rewrite length_skipn, Hcut in Et.
      rewrite !length_app in Et. lia. }
    assert (Hd : (0 < List.length delimiters)%nat).
    { destruct delimiters; [congruence | simpl; lia]. }
    assert (Hpost : skipn (k + List.length pre + List.length delimiters) s = post).
    { replace (k + List.length pre + List.length delimiters)%nat
        with (List.length (pre ++ delimiters) + k)%nat by (rewrite length_app; lia).
      rewrite <- skipn_skipn, Et, Hcut, app_assoc.
      rewrite skipn_app, skipn_all, Nat.sub_diag. reflexivity. }
    rewrite to_int_small by lia.
    assert (Hstep : to_size (Z.of_nat k + Z.of_nat (List.length pre)
                             + Z.of_nat (List.length delimiters))
                    = Z.of_nat (k + List.length pre + List.length delimiters)).
    { unfold to_size. rewrite Z.mod_small by lia. lia. }
    rewrite Hstep.
    replace (Z.of_nat k + Z.of_nat (List.length pre) =? Z.of_nat k)
      with (match pre with [] => true | _ => false end)
      by (destruct pre; simpl List.length; symmetry;
          [apply Z.eqb_eq | apply Z.eqb_neq]; lia).
    replace (negb match pre with [] => true | _ :: _ => false end)
      with (match pre with [] => false | _ :: _ => true end)
      by (destruct pre; reflexivity).
    destruct ((match pre with [] => false | _ :: _ => true end) || negb trimempty).
    + rewrite <- (to_int_small (Z.of_nat (List.length delimiters))) by lia.
      rewrite IH by lia. rewrite Hpost, Htok.
      destruct (fields (span_sub delimiters) fuel post trimempty (to_int (fieldnum - 1)))
        as [l r]. cbn [fst snd]. rewrite <- app_assoc. reflexivity.
    + rewrite <- (to_int_small (Z.of_nat (List.length delimiters))) by lia.
      rewrite IH by lia. rewrite Hpost. reflexivity.
  - destruct Hspan as [-> _].
    assert (Hne : negb (Z.of_nat (List.length s) =? Z.of_nat k) = true).
    { apply negb_true_iff, Z.eqb_neq. lia. }
    rewrite Hne. cbn [orb fst snd List.length].
    replace (Z.of_nat (List.length s) - Z.of_nat k)
      with (Z.of_nat (k + List.length (c :: t)) - Z.of_nat k).
    2:{ apply (f_equal (@List.length _)) in Et. rewrite length_skipn in Et.
        rewrite <- Et. lia. }
    rewrite (make_token_prefix s (c :: t) [] k Hsize)
      by (rewrite app_nil_r; exact Et).
    do 2 f_equal. lia.
Qed.

Lemma tokenizeMultiCharDelim_fields (tokens : list str) (fieldnum : Z) :
  tokenizeMultiCharDelim s tokens delimiters fieldnum trimempty
  = let (l, r) := fields (span_sub delimiters) (S (List.length s)) s trimempty
                    (fieldnum_used s fieldnum) in
    Some (tokens ++ l ++ [r]).
Proof.
  assert (Hsize : Z.of_nat (List.length s) < SIZE_MODULUS)
    by (unfold INT_MAX, SIZE_MODULUS in *; lia).
  unfold tokenizeMultiCharDelim, tokenizeMultiCharDelim_fuel, fieldnum_used.
  assert (Hsl : to_uint (Z.of_nat (List.length s)) = Z.of_nat (List.length s)).
  { unfold to_uint. apply Z.mod_small. unfold INT_MAX, UINT_MODULUS in *. lia. }
  rewrite Hsl.
  set (fn := if fieldnum =? 0 then to_int (Z.of_nat (List.length s)) else fieldnum).
  pose proof (tokenize_multi_loop_fields (S (List.length s)) 0
                fn tokens ltac:(lia) ltac:(lia)) as Hloop.
  change (Z.of_nat 0) with 0 in Hloop. rewrite Hloop. clear Hloop.
  change (skipn 0 s) with s.
  destruct (fields_suffix (span_sub delimiters) _ (span_sub_cuts delimiters)
              (S (List.length s)) s trimempty fn) as (front & Hfront).
  destruct (fields (span_sub delimiters) (S (List.length s)) s trimempty fn) as [l r].
  cbn [fst snd] in *.
  rewrite <- app_assoc. do 3 f_equal.
  pose proof (f_equal (@List.length _) Hfront) as Hlenf.
  rewrite length_app in Hlenf.
  replace (Z.of_nat (List.length s) - Z.of_nat (List.length s - List.length r))
    with (Z.of_nat (List.length s - List.length r + List.length r)
          - Z.of_nat (List.length s - List.length r)) by lia.
  f_equal. apply (make_token_prefix s r [] _ Hsize).
  rewrite app_nil_r.
  replace (List.length s - List.length r)%nat with (List.length front) by lia.
  rewrite Hfront, skipn_app, skipn_all, Nat.sub_diag. reflexivity.
Qed.

End MultiChar.

(** X8: with a delimiter that is not empty and without trimming,
    [tokenizeMultiCharDelim] comes to an end, and the appended tokens joined
    by the delimiter are the input again, or the input with one more
    delimiter behind it. *)
Theorem tokenizeMultiCharDelim_join (s : str) (tokens : list str)
    (delimiters : str) (fieldnum : Z) :
  Z.of_nat (List.length s) <= INT_MAX ->
  delimiters <> [] ->
  exists added,
    tokenizeMultiCharDelim s tokens delimiters fieldnum false = Some (tokens ++ added)
    /\ (join delimiters added = s \/ join delimiters added = s ++ delimiters).
Proof.
  intros Hlen Hd.
  rewrite (tokenizeMultiCharDelim_fields s delimiters false Hlen Hd tokens fieldnum).
  pose proof (fields_join (span_sub delimiters) delimiters (span_sub_cuts delimiters)
                (S (List.length s)) s (fieldnum_used s fieldnum)) as Hj.
  destruct (fields (span_sub delimiters) (S (List.length s)) s false
              (fieldnum_used s fieldnum)) as [l r].
  exists (l ++ [r]). split; [reflexivity|].
  destruct Hj as [Hj | [_ Hj]]; [left | right]; exact Hj.
Qed.

Lemma tokenizeMultiCharDelim_join_witness :
  exists added,
    tokenizeMultiCharDelim (of_string "a::b:c::") [] (of_string "::") 0 false
    = Some ([] ++ added)
    /\ (join (of_string "::") added = of_string "a::b:c::"
        \/ join (of_string "::") added = of_string "a::b:c::" ++ of_string "::").
Proof.
  apply (tokenizeMultiCharDelim_join (of_string "a::b:c::") [] (of_string "::") 0).
  - unfold INT_MAX. simpl. lia.
  - discriminate.
Defined.

End TokenizerFacts.

(** ** loadMapFromFile *)

Module LoadMapFacts.
Import Utils UtilsFile UtilsWords TokenizerFacts.

Lemma getlines_length (content : str) :
  forall line l,
    In l (getlines content line) ->
    (List.length l <= List.length line + List.length content)%nat.
Proof.
  induction content as [|c rest IH]; intros line l; cbn [getlines].
  - destruct line; [intros [] | intros [<- | []]; simpl; lia].
  - destruct (Ascii.eqb c newline).
    + intros [<- | Hin]; [simpl; lia|].
      apply IH in Hin. simpl in *. lia.
    + intros Hin. apply IH in Hin. rewrite length_app in Hin. simpl in *. lia.
Qed.

Lemma getlines_app (c1 c2 : str) :
  forall line,
    getlines (c1 ++ newline :: c2) line
    = getlines (c1 ++ [newline]) line ++ getlines c2 [].
Proof.
  induction c1 as [|c c1 IH]; intros line; cbn [app getlines].
  - rewrite Ascii.eqb_refl. reflexivity.
  - destruct (Ascii.eqb c newline).
    + rewrite IH. reflexivity.
    + apply IH.
Qed.

Section LoadMapFacts.
Context {KeyT ValueT : Type} `{LexicalCast KeyT} `{LexicalCast ValueT}.
Variable key_eq_dec : forall a b : KeyT, {a = b} + {a <> b}.

Local Abbreviation smap := (@std_map KeyT ValueT).

Lemma std_map_find_app (m m' : smap) (k : KeyT) :
  std_map_find key_eq_dec (m ++ m') k
  = match std_map_find key_eq_dec m k with
    | Some v => Some v
    | None => std_map_find key_eq_dec m' k
    end.
Proof.
  induction m as [|[k' v'] m IH]; simpl.
  - reflexivity.
  - destruct (key_eq_dec k k'); [reflexivity | exact IH].
Qed.

(** [insert] and then [find]. *)
Lemma std_map_find_insert (m : smap) (k k' : KeyT) (v : ValueT) :
  std_map_find key_eq_dec (std_map_insert key_eq_dec m k v) k'
  = match std_map_find key_eq_dec m k' with
    | Some old => Some old
    | None => if key_eq_dec k' k then Some v else None
    end.
Proof.
  unfold std_map_insert.
  destruct (std_map_find key_eq_dec m k) as [old|] eqn:Ek.
  - destruct (std_map_find key_eq_dec m k') as [old'|] eqn:Ek'; [reflexivity|].
    destruct (key_eq_dec k' k) as [-> | _]; [congruence | reflexivity].
  - rewrite std_map_find_app. simpl.
    destruct (std_map_find key_eq_dec m k'); reflexivity.
Qed.

(** What a line does: nothing, a report, or an [insert]. *)
Lemma load_line_cases (SEP line : str) (m : smap) (cerr : list str) :
  Z.of_nat (List.length line) < UINT_MODULUS ->
  load_line key_eq_dec SEP line (m, cerr) = Ok (m, cerr)
  \/ load_line key_eq_dec SEP line (m, cerr) = Ok (m, cerr ++ [line])
  \/ exists k v, load_line key_eq_dec SEP line (m, cerr)
                 = Ok (std_map_insert key_eq_dec m k v, cerr).
Proof.
  intros Hlen. unfold load_line.
  destruct (ignoreLine line) eqn:Ei; [left; reflexivity|].
  assert (Hne : line <> []) by (intros ->; discriminate).
  destruct (tokenizeSingleCharDelim_two line SEP 2 Hne Hlen)
    as (first & second & others & ->).
  destruct (lexical_cast first) as [k|]; [|right; left; reflexivity].
  destruct (lexical_cast second) as [v|]; [|right; left; reflexivity].
  right. right. exists k, v. reflexivity.
Qed.

Lemma load_lines_cases (SEP : str) :
  forall lines (m : smap) (cerr : list str),
    Forall (fun line => Z.of_nat (List.length line) < UINT_MODULUS) lines ->
    exists m' reported,
      load_lines key_eq_dec SEP lines (m, cerr) = Ok (m', cerr ++ reported)
      /\ (forall k v, std_map_find key_eq_dec m k = Some v ->
                      std_map_find key_eq_dec m' k = Some v)
      /\ (forall cerr0, load_lines key_eq_dec SEP lines (m, cerr0)
                        = Ok (m', cerr0 ++ reported)).
Proof.
  induction lines as [|line lines IH]; intros m cerr Hall; cbn [load_lines].
  - exists m, []. rewrite app_nil_r. split; [reflexivity|].
    split; [auto|]. intros cerr0. rewrite app_nil_r. reflexivity.
  - pose proof (Forall_inv Hall) as Hline. apply Forall_inv_tail in Hall.
    assert (Hstep : exists m1 rep1,
               (forall cerr0, load_line key_eq_dec SEP line (m, cerr0)
                              = Ok (m1, cerr0 ++ rep1))
               /\ (forall k v, std_map_find key_eq_dec m k = Some v ->
                               std_map_find key_eq_dec m1 k = Some v)).
    { unfold load_line.
      destruct (ignoreLine line) eqn:Ei.
      { exists m, []. split; [intros; rewrite app_nil_r; reflexivity | auto]. }
      assert (Hne : line <> []) by (intros ->; discriminate).
      destruct (tokenizeSingleCharDelim_two line SEP 2 Hne Hline)
        as (first & second & others & ->).
      destruct (lexical_cast first) as [k|];
        [|exists m, [line]; split; [reflexivity | auto]].
      destruct (lexical_cast second) as [v|];
        [|exists m, [line]; split; [reflexivity | auto]].
      exists (std_map_insert key_eq_dec m k v), [].
      split; [intros; rewrite app_nil_r; reflexivity|].
      intros k' v' Hk'. rewrite std_map_find_insert, Hk'. reflexivity. }
    destruct Hstep as (m1 & rep1 & Hline1 & Hkeep1).
    destruct (IH m1 (cerr ++ rep1) Hall) as (m2 & rep2 & _ & Hkeep2 & Hany).
    exists m2, (rep1 ++ rep2). split; [|split].
    + rewrite Hline1. cbn [bind]. rewrite Hany, app_assoc. reflexivity.
    + intros k v Hk. apply Hkeep2, Hkeep1, Hk.
    + intros cerr0. rewrite Hline1. cbn [bind]. rewrite Hany, app_assoc. reflexivity.
Qed.

Lemma getlines_fit (content : str) :
  Z.of_nat (List.length content) < UINT_MODULUS ->
  Forall (fun line => Z.of_nat (List.length line) < UINT_MODULUS) (getlines content []).
Proof.
  intros Hlen. apply Forall_forall. intros l Hin.
  apply getlines_length in Hin. simpl in Hin. lia.
Qed.

(** X9: [loadMapFromFile] reads every file to its end: on every line that
    is not skipped the tokenizer yields the two fields the loop
    dereferences, so the iterator never runs past the end of the field
    list, and a field that cannot be cast is reported, not raised (the file
    is shorter than [UINT_MAX] characters). *)
Theorem loadMapFromFile_returns (content : str) (map_fill : smap) (SEP : str) :
  Z.of_nat (List.length content) < UINT_MODULUS ->
  exists map_filled reported,
    loadMapFromFile key_eq_dec content map_fill SEP = Ok (map_filled, reported).
Proof.
  intros Hlen. unfold loadMapFromFile.
  destruct (load_lines_cases SEP (getlines content []) map_fill []
              (getlines_fit content Hlen)) as (m' & rep & Hrun & _).
  exists m', rep. exact Hrun.
Qed.

(** X10: [loadMapFromFile] never changes a binding: a key that is bound in
    the map, before the call or by an earlier line, keeps its value. *)
Theorem loadMapFromFile_keeps_bindings (content : str) (map_fill : smap)
    (SEP : str) (k : KeyT) (v : ValueT) :
  Z.of_nat (List.length content) < UINT_MODULUS ->
  std_map_find key_eq_dec map_fill k = Some v ->
  exists map_filled reported,
    loadMapFromFile key_eq_dec content map_fill SEP = Ok (map_filled, reported)
    /\ std_map_find key_eq_dec map_filled k = Some v.
Proof.
  intros Hlen Hk. unfold loadMapFromFile.
  destruct (load_lines_cases SEP (getlines content []) map_fill []
              (getlines_fit content Hlen)) as (m' & rep & Hrun & Hkeep & _).
  exists m', rep. split; [exact Hrun | apply Hkeep; exact Hk].
Qed.

Lemma span_field (delimiters kt vt : str) (sep : ascii) :
  no_delim delimiters kt -> is_delim delimiters sep = true ->
  span delimiters (kt ++ sep :: vt) = (kt, Some vt).
Proof.
  intros Hk Hsep. induction kt as [|c kt IH]; simpl.
  - rewrite Hsep. reflexivity.
  - rewrite (Hk c) by (left; reflexivity).
    rewrite IH; [reflexivity|]. intros x Hx. apply Hk. right. exact Hx.
Qed.

Lemma span_whole (delimiters vt : str) :
  no_delim delimiters vt -> span delimiters vt = (vt, None).
Proof.
  intros Hv. induction vt as [|c vt IH]; simpl.
  - reflexivity.
  - rewrite (Hv c) by (left; reflexivity).
    rewrite IH; [reflexivity|]. intros x Hx. apply Hv. right. exact Hx.
Qed.

(** The fields of a line made of a key, a separator and a value. *)
Lemma tokenize_key_value (SEP kt vt : str) (sep : ascii) :
  Z.of_nat (List.length (kt ++ sep :: vt)) < UINT_MODULUS ->
  no_delim SEP kt -> no_delim SEP vt -> is_delim SEP sep = true ->
  exists others,
    tokenizeSingleCharDelim (kt ++ sep :: vt) [] SEP 2 false
    = Some (kt :: vt :: others).
Proof.
  intros Hlen Hk Hv Hsep.
  rewrite (tokenizeSingleCharDelim_fields _ [] SEP 2 false Hlen).
  unfold fieldnum_used. cbn [Z.eqb fields orb].
  replace (match kt ++ sep :: vt with [] => true | _ :: _ => false end) with false
    by (destruct kt; reflexivity).
  rewrite (span_field SEP kt vt sep Hk Hsep). rewrite orb_true_r.
  change (to_int (2 - 1)) with 1.
  assert (Hfuel : exists fuel, List.length (kt ++ sep :: vt) = S fuel).
  { rewrite length_app. simpl. exists (List.length kt + List.length vt)%nat. lia. }
  destruct Hfuel as (fuel & ->). cbn [fields Z.eqb orb].
  destruct vt as [|c vt].
  - exists []. reflexivity.
  - rewrite (span_whole SEP (c :: vt) Hv). exists [[]]. reflexivity.
Qed.

(** X11: a line made of a key text, a separator character and a value
    text, both free of separators and both accepted by [lexical_cast], binds
    the key to the value, unless the key is bound already: then the line
    changes nothing.  Nothing is reported. *)
Theorem load_line_binds (SEP kt vt : str) (sep : ascii) (k : KeyT) (v : ValueT)
    (map_fill : smap) (cerr : list str) :
  Z.of_nat (List.length (kt ++ sep :: vt)) < UINT_MODULUS ->
  ignoreLine (kt ++ sep :: vt) = false ->
  no_delim SEP kt -> no_delim SEP vt -> is_delim SEP sep = true ->
  lexical_cast kt = Some k -> lexical_cast vt = Some v ->
  exists map_filled,
    load_line key_eq_dec SEP (kt ++ sep :: vt) (map_fill, cerr) = Ok (map_filled, cerr)
    /\ std_map_find key_eq_dec map_filled k
       = match std_map_find key_eq_dec map_fill k with
         | Some old => Some old
         | None => Some v
         end
    /\ forall k', k' <> k ->
         std_map_find key_eq_dec map_filled k' = std_map_find key_eq_dec map_fill k'.
Proof.
  intros Hlen Hi Hk Hv Hsep Hck Hcv. unfold load_line. rewrite Hi.
  destruct (tokenize_key_value SEP kt vt sep Hlen Hk Hv Hsep) as (others & ->).
  rewrite Hck, Hcv. eexists. split; [reflexivity|]. split.
  - rewrite std_map_find_insert.
    destruct (key_eq_dec k k); [reflexivity | congruence].
  - intros k' Hne. rewrite std_map_find_insert.
    destruct (std_map_find key_eq_dec map_fill k'); [reflexivity|].
    destruct (key_eq_dec k' k); [contradiction | reflexivity].
Qed.

Lemma load_line_reports (SEP line : str) (m m' : smap) (cerr cerr' : list str) :
  load_line key_eq_dec SEP line (m, cerr) = Ok (m', cerr') ->
  exists reported,
    cerr' = cerr ++ reported
    /\ forall cerr0, load_line key_eq_dec SEP line (m, cerr0)
                     = Ok (m', cerr0 ++ reported).
Proof.
  unfold load_line.
  destruct (ignoreLine line).
  { intros [= <- <-]. exists []. split; [rewrite app_nil_r; reflexivity|].
    intros cerr0. rewrite app_nil_r. reflexivity. }
  destruct (tokenizeSingleCharDelim line [] SEP 2 false) as [[|first behind]|];
    try discriminate.
  destruct (lexical_cast first) as [k|].
  - destruct behind as [|second others]; [discriminate|].
    destruct (lexical_cast second) as [v|].
    + intros [= <- <-]. exists []. split; [rewrite app_nil_r; reflexivity|].
      intros cerr0. rewrite app_nil_r. reflexivity.
    + intros [= <- <-]. exists [line]. split; [reflexivity|]. reflexivity.
  - intros [= <- <-]. exists [line]. split; [reflexivity|]. reflexivity.
Qed.

Lemma load_lines_reports (SEP : str) :
  forall lines (m m' : smap) (cerr cerr' : list str),
    load_lines key_eq_dec SEP lines (m, cerr) = Ok (m', cerr') ->
    exists reported,
      cerr' = cerr ++ reported
      /\ forall cerr0, load_lines key_eq_dec SEP lines (m, cerr0)
                       = Ok (m', cerr0 ++ reported).
Proof.
  induction lines as [|line lines IH]; intros m m' cerr cerr' Hrun;
    cbn [load_lines] in *.
  - injection Hrun as <- <-. exists []. split; [rewrite app_nil_r; reflexivity|].
    intros cerr0. rewrite app_nil_r. reflexivity.
  - destruct (load_line key_eq_dec SEP line (m, cerr)) as [[m1 cerr1]| | | |] eqn:E1;
      cbn [bind] in Hrun; try discriminate.
    destruct (load_line_reports _ _ _ _ _ _ E1) as (rep1 & -> & Hany1).
    destruct (IH _ _ _ _ Hrun) as (rep2 & -> & Hany2).
    exists (rep1 ++ rep2). split; [rewrite app_assoc; reflexivity|].
    intros cerr0. rewrite Hany1. cbn [bind]. rewrite Hany2, app_assoc. reflexivity.
Qed.

Lemma load_lines_app (SEP : str) (lines2 : list str) :
  forall lines1 (st : smap * list str),
    load_lines key_eq_dec SEP (lines1 ++ lines2) st
    = bind (load_lines key_eq_dec SEP lines1 st)
           (fun st' => load_lines key_eq_dec SEP lines2 st').
Proof.
  induction lines1 as [|line lines1 IH]; intros st; cbn [app load_lines].
  - reflexivity.
  - destruct (load_line key_eq_dec SEP line st); cbn [bind]; try reflexivity.
    apply IH.
Qed.

(** X12: loading a file that ends in a newline and then a second file
    into the same map is loading the two files written one behind the
    other: the map is the same and the reports follow each other. *)
Theorem loadMapFromFile_two_files (c1 c2 : str) (map_fill m1 m2 : smap)
    (SEP : str) (r1 r2 : list str) :
  loadMapFromFile key_eq_dec (c1 ++ [newline]) map_fill SEP = Ok (m1, r1) ->
  loadMapFromFile key_eq_dec c2 m1 SEP = Ok (m2, r2) ->
  loadMapFromFile key_eq_dec (c1 ++ newline :: c2) map_fill SEP = Ok (m2, r1 ++ r2).
Proof.
  unfold loadMapFromFile. intros Hone Htwo.
  rewrite getlines_app, load_lines_app, Hone. cbn [bind].
  destruct (load_lines_reports _ _ _ _ _ _ Htwo) as (rep & Hrep & Hany).
  simpl in Hrep. subst rep. apply Hany.
Qed.

End LoadMapFacts.

End LoadMapFacts.

(** ** BandFactor, once more *)

Section BandFactorMore.
Context {node : Type} `{TaxonomyInterface node}.

Lemma band_loop_descend (anchor : node) :
  forall data m last_rank bandfactor,
    ranks_descend anchor last_rank data ->
    band_loop anchor data m last_rank bandfactor = bandfactor.
Proof.
  induction data as [|[score n] data IH]; intros m last_rank bandfactor Hd;
    cbn [band_loop].
  - reflexivity.
  - destruct Hd as [Hle Hd].
    destruct (root_pathlength (getLCA n anchor) =? last_rank)%nat eqn:Eeq.
    + apply Nat.eqb_eq in Eeq. rewrite <- Eeq. apply IH. exact Hd.
    + apply Nat.eqb_neq in Eeq.
      replace (root_pathlength (getLCA n anchor) <? last_rank)%nat with true
        by (symmetry; apply Nat.ltb_lt; lia).
      apply IH. exact Hd.
Qed.

(** X13: when the entries behind the first, sorted by score, come with
    common ancestors with the anchor that never get deeper (scores and
    taxonomy agree), [getFactor] is exactly 1: the band is not widened. *)
Theorem getFactor_without_disorder (first : Z * node) (rest : list (Z * node)) :
  ranks_descend (snd first) (root_pathlength (snd first)) (sort_by_score rest) ->
  getFactor (first :: rest) = Ok 1%Q.
Proof.
  intros Hd. destruct first as [score anchor]. unfold getFactor.
  cbn [sort setBandFactor snd] in *.
  rewrite (band_loop_descend anchor _ _ _ _ Hd). reflexivity.
Qed.

Lemma insert_by_score_perm (x : Z * node) (l : list (Z * node)) :
  Permutation (insert_by_score x l) (x :: l).
Proof.
  induction l as [|y l IH]; simpl.
  - apply Permutation_refl.
  - destruct (fst y <? fst x).
    + eapply Permutation_trans; [apply perm_skip; exact IH | apply perm_swap].
    + apply Permutation_refl.
Qed.

Lemma sort_by_score_perm (l : list (Z * node)) : Permutation (sort_by_score l) l.
Proof.
  induction l as [|x l IH]; simpl.
  - apply Permutation_refl.
  - eapply Permutation_trans; [apply insert_by_score_perm|].
    apply perm_skip. exact IH.
Qed.

Lemma insert_by_score_sorted (x : Z * node) (l : list (Z * node)) :
  StronglySorted by_score l -> StronglySorted by_score (insert_by_score x l).
Proof.
  induction l as [|y l IH]; simpl; intros Hs.
  - constructor; [constructor | constructor].
  - inversion Hs as [|y' l' Hl Hy]; subst.
    destruct (fst y <? fst x) eqn:E.
    + apply Z.ltb_lt in E. constructor; [apply IH; exact Hl|].
      apply Forall_forall. intros z Hz.
      apply (Permutation_in _ (insert_by_score_perm x l)) in Hz.
      destruct Hz as [<- | Hz]; [unfold by_score; lia|].
      rewrite Forall_forall in Hy. apply Hy. exact Hz.
    + apply Z.ltb_ge in E. constructor; [exact Hs|].
      constructor; [unfold by_score; lia|].
      eapply Forall_impl; [|exact Hy]. unfold by_score. intros z Hz. lia.
Qed.

Lemma sort_by_score_sorted (l : list (Z * node)) :
  StronglySorted by_score (sort_by_score l).
Proof.
  induction l as [|x l IH]; simpl.
  - constructor.
  - apply insert_by_score_sorted. exact IH.
Qed.

(** X14: [sort()] leaves the first entry where it is, keeps every entry,
    and puts the entries behind the first in the order of increasing
    score. *)
Theorem sort_orders_the_rest (first : Z * node) (rest : list (Z * node)) :
  exists sorted,
    sort (first :: rest) = first :: sorted
    /\ Permutation sorted rest
    /\ StronglySorted by_score sorted.
Proof.
  exists (sort_by_score rest). split; [reflexivity|].
  split; [apply sort_by_score_perm | apply sort_by_score_sorted].
Qed.

(** Two lists in the order of increasing score that hold the same entries,
    all of different scores, are the same list. *)
Lemma sorted_unique (l1 : list (Z * node)) :
  forall l2,
    StronglySorted by_score l1 -> StronglySorted by_score l2 ->
    Permutation l1 l2 -> NoDup (map fst l1) -> l1 = l2.
Proof.
  induction l1 as [|a l1 IH]; intros l2 Hs1 Hs2 Hp Hnd.
  - apply Permutation_nil in Hp. subst. reflexivity.
  - destruct l2 as [|b l2]; [apply Permutation_sym, Permutation_nil in Hp; discriminate|].
    inversion Hs1 as [|a' l1' Hs1' Ha]; subst.
    inversion Hs2 as [|b' l2' Hs2' Hb]; subst.
    inversion Hnd as [|fa fl Hnotin Hnd']; subst.
    assert (Hab : a = b).
    { assert (Hina : In a (b :: l2)) by (apply (Permutation_in _ Hp); left; reflexivity).
      assert (Hinb : In b (a :: l1))
        by (apply (Permutation_in _ (Permutation_sym Hp)); left; reflexivity).
      destruct Hina as [-> | Hina]; [reflexivity|].
      destruct Hinb as [-> | Hinb]; [reflexivity|].
      exfalso. rewrite Forall_forall in Ha, Hb.
      pose proof (Ha b Hinb) as H1. pose proof (Hb a Hina) as H2.
      unfold by_score in *. apply Hnotin.
      replace (fst a) with (fst b) by lia. apply in_map. exact Hinb. }
    subst b. f_equal. apply IH; try assumption.
    eapply Permutation_cons_inv. exact Hp.
Qed.

(** X15: the factor does not depend on the order in which the entries
    behind the first were added, when their scores are all different. *)
Theorem getFactor_order (first : Z * node) (rest rest' : list (Z * node)) :
  Permutation rest rest' -> NoDup (map fst rest) ->
  getFactor (first :: rest) = getFactor (first :: rest').
Proof.
  intros Hp Hnd. unfold getFactor. cbn [sort]. do 2 f_equal.
  apply sorted_unique.
  - apply sort_by_score_sorted.
  - apply sort_by_score_sorted.
  - eapply Permutation_trans; [apply sort_by_score_perm|].
    eapply Permutation_trans; [exact Hp|].
    apply Permutation_sym, sort_by_score_perm.
  - eapply Permutation_NoDup; [|exact Hnd].
    apply Permutation_map, Permutation_sym, sort_by_score_perm.
Qed.


(** *** The object *)

Lemma addSequences_data (b : @BandFactorObject.BandFactor node)
    (entries : list (Z * node)) :
  BandFactorObject.data_ (BandFactorObject.addSequences b entries)
  = BandFactorObject.data_ b ++ entries
  /\ BandFactorObject.bandfactor_ (BandFactorObject.addSequences b entries)
     = BandFactorObject.bandfactor_ b.
Proof.
  revert b. induction entries as [|[score n] entries IH]; intros b; simpl.
  - rewrite app_nil_r. split; reflexivity.
  - destruct (IH (BandFactorObject.addSequence b score n)) as [Hd Hb].
    unfold BandFactorObject.addSequences in *. simpl in *.
    rewrite Hd, Hb, <- app_assoc. split; reflexivity.
Qed.

(** X17: [getFactor] computes the factor once: on an object that was fed
    [data] since its construction the first call returns the factor of
    [data], and every later call returns this same value, whatever was added
    in between. *)
Theorem getFactor_computed_once (data more : list (Z * node)) :
  data <> [] ->
  exists bandfactor b,
    BandFactorObject.getFactor
      (BandFactorObject.addSequences BandFactorObject.init data)
    = Ok (bandfactor, b)
    /\ getFactor data = Ok bandfactor
    /\ BandFactorObject.getFactor (BandFactorObject.addSequences b more)
       = Ok (bandfactor, BandFactorObject.addSequences b more).
Proof.
  intros Hne.
  destruct (setBandFactor_bounds (sort data) (sort_nonempty data Hne))
    as (f & Hset & Hlo & _).
  destruct (addSequences_data BandFactorObject.init data) as [Hd Hb]. simpl in Hd, Hb.
  unfold BandFactorObject.getFactor at 1. rewrite Hb, Hd.
  change (flt (-1)%Q 0%Q) with true. cbn iota.
  rewrite Hset. cbn [bind].
  do 2 eexists. split; [reflexivity|]. split; [exact Hset|].
  unfold BandFactorObject.getFactor.
  destruct (addSequences_data
              {| BandFactorObject.bandfactor_ := f;
                 BandFactorObject.data_ := sort data |} more) as [_ Hb'].
  rewrite Hb'. simpl.
  replace (flt f 0%Q) with false; [reflexivity|].
  symmetry. apply flt_false. unfold min_bandfactor in Hlo. lra.
Qed.

End BandFactorMore.

(** ** Screening, once more *)

Section ScreeningMore.
Context {node : Type}.
Local Abbreviation record := (AlignmentRecordTaxonomy node).

Lemma count_unmasked_upper (rs : list record) :
  forall n q r, In r (unmasked rs) -> (getScore r <= snd (count_unmasked rs n q))%Q.
Proof.
  induction rs as [|x rs IH]; intros n q r; simpl.
  - intros [].
  - destruct (isFiltered x); simpl.
    + apply IH.
    + intros [<- | Hin].
      * eapply Qle_trans; [|apply count_unmasked_lower].
        apply fmax_lower_r. apply Qle_refl.
      * apply IH. exact Hin.
Qed.

Lemma screen_record_fixed (threshold : float) (r : record) :
  isFiltered r = true \/ (threshold <= getScore r)%Q ->
  screen_record threshold r = r.
Proof.
  unfold screen_record. intros [-> | Hle]; [reflexivity|].
  apply flt_false in Hle. rewrite Hle, andb_false_r. reflexivity.
Qed.

(** The best score among the records screening leaves unmasked. *)
Lemma screened_best_score (factor : float) (rs : list record) :
  let q := snd (count_unmasked rs 0 0%Q) in
  let q' := snd (count_unmasked (screened factor rs) 0 0%Q) in
  (q' <= q)%Q /\ (unmasked (screened factor rs) = [] \/ (q <= q')%Q).
Proof.
  intros q q'. unfold screened in *.
  pose proof (screen_spec factor rs) as Hs. simpl in Hs. fold q in Hs.
  subst q'. rewrite Hs. cbn [fst].
  set (rs' := map (screen_record (q * factor)%Q) rs).
  pose proof (count_unmasked_lower rs 0 0%Q) as Hq0. fold q in Hq0.
  split.
  - destruct (count_unmasked_attained rs' 0 0%Q) as [-> | (r' & Hin & <-)];
      [exact Hq0|].
    apply unmasked_screen_In in Hin. destruct Hin as [Hin _].
    apply count_unmasked_upper. exact Hin.
  - destruct (Qlt_le_dec q (q * factor)) as [Hgt | Hle].
    + left. unfold rs'. rewrite unmasked_screen.
      rewrite <- (filter_ext_in (fun _ => false)).
      * clear. induction (unmasked rs); [reflexivity | assumption].
      * intros x Hx. symmetry. apply negb_false_iff, flt_true.
        pose proof (count_unmasked_upper rs 0 0%Q x Hx) as Hxq. fold q in Hxq. lra.
    + right.
      destruct (count_unmasked_attained rs 0 0%Q) as [Hz | (r & Hin & Hr)];
        fold q in Hz || fold q in Hr.
      * rewrite Hz. apply count_unmasked_lower.
      * rewrite <- Hr. apply count_unmasked_upper.
        apply unmasked_screen_In. split; [exact Hin|].
        apply flt_false. rewrite Hr. exact Hle.
Qed.

(** X18: screening twice is screening once: on the recordset a call of
    [predict] leaves behind, the screening of a second call masks nothing
    more. *)
Theorem screening_idempotent (factor : float) (rs : list record) :
  screened factor (screened factor rs) = screened factor rs.
Proof.
  destruct (screened_best_score factor rs) as [Hle Hge].
  set (q := snd (count_unmasked rs 0 0%Q)) in *.
  set (q' := snd (count_unmasked (screened factor rs) 0 0%Q)) in *.
  unfold screened at 1. rewrite (screen_spec factor (screened factor rs)).
  cbn [fst]. fold q'.
  rewrite <- (map_id (screened factor rs)) at 2.
  apply map_ext_in. intros r Hr.
  apply screen_record_fixed.
  destruct (isFiltered r) eqn:Ef; [left; reflexivity | right].
  assert (Hun : In r (unmasked (screened factor rs))).
  { apply filter_In. split; [exact Hr | rewrite Ef; reflexivity]. }
  destruct Hge as [Hnil | Hge]; [rewrite Hnil in Hun; destruct Hun|].
  unfold screened in Hun. rewrite (screen_spec factor rs) in Hun. cbn [fst] in Hun.
  fold q in Hun. apply unmasked_screen_In in Hun. destruct Hun as [_ Hflt].
  apply flt_false in Hflt.
  assert (Heq : (q' == q)%Q) by (apply Qle_antisym; assumption).
  rewrite Heq. exact Hflt.
Qed.


(** X19: with an exclusion factor of at most 1 the screening never loses
    the best hit: when some unfiltered record has a score of 0 or more,
    a record of the best score stays unfiltered, so that [predict] has a
    record to place. *)
Theorem screening_keeps_best (factor : float) (rs : list record) (r : record) :
  (factor <= 1)%Q -> In r (unmasked rs) -> (0 <= getScore r)%Q ->
  exists best, In best (unmasked (screened factor rs))
               /\ (getScore r <= getScore best)%Q.
Proof.
  intros Hf Hin Hpos. unfold screened. rewrite (screen_spec factor rs). cbn [fst].
  set (q := snd (count_unmasked rs 0 0%Q)).
  pose proof (count_unmasked_upper rs 0 0%Q r Hin) as Hrq. fold q in Hrq.
  destruct (count_unmasked_attained rs 0 0%Q) as [Hz | (b & Hb & Hbq)];
    fold q in Hz || fold q in Hbq.
  - exists r. split; [|apply Qle_refl].
    apply unmasked_screen_In. split; [exact Hin|].
    apply flt_false. rewrite Hz in *. lra.
  - exists b. split; [|rewrite Hbq; exact Hrq].
    apply unmasked_screen_In. split; [exact Hb|].
    apply flt_false. rewrite Hbq. nra.
Qed.

End ScreeningMore.

(** ** The paths of predict laid out *)

Section PredictRuns.
Context {node Seq : Type} `{Types} `{TaxonomyInterface node} `{Sequences Seq}
        `{PredictionModelBase node}.
Variables exclude_factor reeval_factor : float.
Local Abbreviation record := (AlignmentRecordTaxonomy node).

Lemma firstUnmaskedIter_first (rs : list record) (first : record)
    (behind : list record) :
  firstUnmaskedIter rs = Some (first, behind) ->
  unmasked rs = first :: unmasked behind.
Proof.
  induction rs as [|x rs IH]; simpl.
  - discriminate.
  - destruct (isFiltered x) eqn:Ef; simpl.
    + exact IH.
    + intros [= -> ->]. reflexivity.
Qed.

(** The path of [predict] with alignments, laid out: what is fetched, the
    three passes, and what the record is filled with. *)
Lemma predict_run (rs : list record) (p : PredictionRecord node)
    (out : @prediction node) :
  predict exclude_factor reeval_factor rs p = Ok out ->
  (2 <= List.length (unmasked (screened exclude_factor rs)))%nat ->
  exists first behind qrseq rrseqs_ordered r0 st1 st2,
    let records_ordered := unmasked (screened exclude_factor rs) in
    let n := List.length records_ordered in
    let range := query_range behind (getQueryStart first) (getQueryStop first) in
    firstUnmaskedIter (screened exclude_factor rs) = Some (first, behind)
    /\ retrieve_segments (fst range) (snd range) (screened exclude_factor rs)
       = Ok (records_ordered, rrseqs_ordered)
    /\ pass0 reeval_factor n (snd (count_unmasked rs 0 0%Q)) qrseq
         (to_large (snd range - fst range + 1)) records_ordered rrseqs_ordered
       = Ok r0
    /\ pass1_loop (List.length (r0_qgroup r0)) n records_ordered rrseqs_ordered
         (r0_rtax r0) (pass1_start r0) = Ok st1
    /\ pass2_loop (List.length (p1_outgroup st1)) n qrseq records_ordered
         rrseqs_ordered (r0_lca_allnodes r0) (p1_bandfactor_max st1)
         (pass2_start st1) = Ok st2
    /\ getQueryFeatureBegin (out_prec out) = fst range
    /\ getQueryFeatureEnd (out_prec out) = snd range
    /\ getLowerNode (out_prec out) = Some (p1_lnode_global st1)
    /\ getUpperNode (out_prec out) = Some (p2_unode_global st2)
    /\ getBestReferenceTaxon (out_prec out) = Some (r0_rtax r0)
    /\ getSignalStrength (out_prec out) = p1_anchors_taxsig st1
    /\ getAnchorsSupport (out_prec out) = r0_anchors_support r0
    /\ out_alignments out = (r0_counter r0 + p1_counter st1 + p2_counter st2)%nat
    /\ out_recordset out = screened exclude_factor rs.
Proof.
  unfold predict, screened. rewrite (screen_spec exclude_factor rs). cbn [fst snd].
  set (rs1 := map (screen_record
                     (snd (count_unmasked rs 0 0%Q) * exclude_factor)%Q) rs).
  intros Hrun Hn.
  destruct (List.length (unmasked rs1)) as [|[|n]] eqn:En; try lia.
  cbn [Nat.eqb] in Hrun.
  destruct (firstUnmaskedIter rs1) as [[first behind]|] eqn:Efirst; [|discriminate].
  destruct (query_range behind (getQueryStart first) (getQueryStop first))
    as [qrstart qrstop] eqn:Erange.
  bind_step Hrun. rename a into qrseq.
  destruct (retrieve_segments qrstart qrstop rs1)
    as [[records_ordered rrseqs_ordered]| | | |] eqn:Eret;
    cbn [bind] in Hrun; try discriminate.
  destruct (retrieve_segments_unmasked _ _ _ _ _ Eret) as [-> Hlen].
  bind_step Hrun. rename a into r0.
  bind_step Hrun. rename a into st1.
  bind_step Hrun. rename a into st2.
  injection Hrun as <-.
  exists first, behind, qrseq, rrseqs_ordered, r0, st1, st2.
  cbn zeta. rewrite Erange. cbn [fst snd].
  repeat (split; [first [reflexivity | assumption]|]). reflexivity.
Qed.

(** The path of [predict] with one unfiltered record. *)
Lemma predict_one (rs : list record) (p : PredictionRecord node)
    (out : @prediction node) (rec : record) :
  predict exclude_factor reeval_factor rs p = Ok out ->
  unmasked (screened exclude_factor rs) = [rec] ->
  getQueryFeatureBegin (out_prec out) = getQueryStart rec
  /\ getQueryFeatureEnd (out_prec out) = getQueryStop rec
  /\ getLowerNode (out_prec out) = Some (getReferenceNode rec)
  /\ getBestReferenceTaxon (out_prec out) = Some (getReferenceNode rec)
  /\ getAnchorsSupport (out_prec out) = getIdentities rec
  /\ out_alignments out = 0%nat
  /\ out_recordset out = screened exclude_factor rs.
Proof.
  unfold predict, screened. rewrite (screen_spec exclude_factor rs). cbn [fst snd].
  intros Hrun Hone. rewrite Hone in Hrun. cbn [List.length Nat.eqb] in Hrun.
  destruct (firstUnmaskedIter_unmasked _ _ _ Hone) as (behind & Hfirst & _).
  rewrite Hfirst in Hrun. injection Hrun as <-. cbn.
  repeat split; reflexivity.
Qed.

(** The path of [predict] without an unfiltered record. *)
Lemma predict_none (rs : list record) (p : PredictionRecord node) :
  unmasked (screened exclude_factor rs) = [] ->
  predict exclude_factor reeval_factor rs p
  = Ok {| out_recordset := screened exclude_factor rs;
          out_prec := setUnclassified (initPredictionRecord rs p);
          out_alignments := 0;
          out_fetches := 0 |}.
Proof.
  unfold screened, predict. rewrite (screen_spec exclude_factor rs). cbn [fst snd].
  intros ->. reflexivity.
Qed.

Lemma predict_recordset (rs : list record) (p : PredictionRecord node)
    (out : @prediction node) :
  predict exclude_factor reeval_factor rs p = Ok out ->
  out_recordset out = screened exclude_factor rs.
Proof.
  intros Hrun.
  destruct (unmasked (screened exclude_factor rs)) as [|rec [|rec' rest]] eqn:Eun.
  - rewrite (predict_none rs p Eun) in Hrun.
    injection Hrun as <-. reflexivity.
  - apply (predict_one rs p out rec Hrun Eun).
  - destruct (predict_run rs p out Hrun) as (? & ? & ? & ? & ? & ? & ? & Hr);
      [rewrite Eun; simpl; lia|].
    apply Hr.
Qed.


(** *** The query range *)

Lemma query_range_covers (rs : list record) :
  forall a b,
    let range := query_range rs a b in
    fst range <= a /\ b <= snd range
    /\ (forall r, In r (unmasked rs) ->
                  fst range <= getQueryStart r /\ getQueryStop r <= snd range)
    /\ (fst range = a \/ exists r, In r (unmasked rs) /\ fst range = getQueryStart r)
    /\ (snd range = b \/ exists r, In r (unmasked rs) /\ snd range = getQueryStop r).
Proof.
  induction rs as [|x rs IH]; intros a b; cbn [query_range unmasked filter].
  - cbn. split; [lia|]. split; [lia|]. split; [intros r []|].
    split; left; reflexivity.
  - destruct (isFiltered x) eqn:Ef; cbn [negb].
    + apply IH.
    + specialize (IH (Z.min (getQueryStart x) a) (Z.max (getQueryStop x) b)).
      destruct IH as (Hlo & Hhi & Hall & Hmin & Hmax).
      cbn zeta. split; [lia|]. split; [lia|]. split; [|split].
      * intros r [<- | Hin]; [lia | apply Hall; exact Hin].
      * destruct Hmin as [Hmin | (r & Hin & Hr)].
        -- destruct (Z.min_spec (getQueryStart x) a) as [[_ Hm] | [_ Hm]].
           ++ right. exists x. split; [left; reflexivity | rewrite Hmin; exact Hm].
           ++ left. rewrite Hmin. exact Hm.
        -- right. exists r. split; [right; exact Hin | exact Hr].
      * destruct Hmax as [Hmax | (r & Hin & Hr)].
        -- destruct (Z.max_spec (getQueryStop x) b) as [[_ Hm] | [_ Hm]].
           ++ left. rewrite Hmax. exact Hm.
           ++ right. exists x. split; [left; reflexivity | rewrite Hmax; exact Hm].
        -- right. exists r. split; [right; exact Hin | exact Hr].
Qed.

(** X20: the query feature range of the prediction spans the query ranges
    of all records left unfiltered, and no more: its begin is the smallest
    query start among them and its end the largest query stop. *)
Theorem predict_query_range (rs : list record) (p : PredictionRecord node)
    (out : @prediction node) :
  predict exclude_factor reeval_factor rs p = Ok out ->
  unmasked (screened exclude_factor rs) <> [] ->
  (forall rec, In rec (unmasked (screened exclude_factor rs)) ->
     getQueryFeatureBegin (out_prec out) <= getQueryStart rec
     /\ getQueryStop rec <= getQueryFeatureEnd (out_prec out))
  /\ (exists rec, In rec (unmasked (screened exclude_factor rs))
                  /\ getQueryFeatureBegin (out_prec out) = getQueryStart rec)
  /\ (exists rec, In rec (unmasked (screened exclude_factor rs))
                  /\ getQueryFeatureEnd (out_prec out) = getQueryStop rec).
Proof.
  intros Hrun Hne.
  destruct (unmasked (screened exclude_factor rs)) as [|rec [|rec' rest]] eqn:Eun;
    [congruence | |].
  - destruct (predict_one rs p out rec Hrun Eun) as (-> & -> & _).
    split; [|split].
    + intros r [<- | []]. lia.
    + exists rec. split; [left; reflexivity | reflexivity].
    + exists rec. split; [left; reflexivity | reflexivity].
  - destruct (predict_run rs p out Hrun) as
      (first & behind & qrseq & rr & r0 & st1 & st2 & Hfirst & _ & _ & _ & _
       & -> & -> & _); [rewrite Eun; simpl; lia|].
    apply firstUnmaskedIter_first in Hfirst. rewrite Eun in Hfirst.
    rewrite Hfirst.
    destruct (query_range_covers behind (getQueryStart first) (getQueryStop first))
      as (Hlo & Hhi & Hall & Hmin & Hmax).
    split; [|split].
    + intros r [<- | Hin]; [lia | apply Hall; exact Hin].
    + destruct Hmin as [Hmin | (r & Hin & Hr)].
      * exists first. split; [left; reflexivity | exact Hmin].
      * exists r. split; [right; exact Hin | exact Hr].
    + destruct Hmax as [Hmax | (r & Hin & Hr)].
      * exists first. split; [left; reflexivity | exact Hmax].
      * exists r. split; [right; exact Hin | exact Hr].
Qed.

(** *** The recordset a run leaves behind *)

(** X21: all [predict] does to the recordset is to filter out records: the
    records stay in their places, a record that was filtered stays so, and a
    record is newly filtered only when its score is below the best score
    times the exclusion factor. *)
Theorem predict_only_masks (rs : list record) (p : PredictionRecord node)
    (out : @prediction node) :
  predict exclude_factor reeval_factor rs p = Ok out ->
  Forall2 (fun r r' =>
             r' = r
             \/ (r' = filterOut r /\ isFiltered r = false
                 /\ (getScore r < snd (count_unmasked rs 0 0%Q) * exclude_factor)%Q))
          rs (out_recordset out).
Proof.
  intros Hrun. rewrite (predict_recordset rs p out Hrun).
  unfold screened. rewrite (screen_spec exclude_factor rs). cbn [fst].
  generalize (snd (count_unmasked rs 0 0%Q) * exclude_factor)%Q. intros threshold.
  clear Hrun.
  induction rs as [|r rs' IH]; cbn [map]; [constructor|].
  constructor; [|exact IH].
  unfold screen_record.
  destruct (isFiltered r) eqn:Ef; cbn [negb andb]; [left; reflexivity|].
  destruct (flt (getScore r) threshold) eqn:Et; [|left; reflexivity].
  right. apply flt_true in Et. repeat split; assumption.
Qed.



(** *** The signal strength *)

Lemma pass1_anchor_taxsig (n : nat) (records_ordered : list record)
    (rrseqs_ordered : list Seq) (rtax : node) (st st' : @pass1_state node) :
  pass1_anchor n records_ordered rrseqs_ordered rtax st = Ok st' ->
  p1_anchors_taxsig st' = fmin 0%Q (p1_anchors_taxsig st).
Proof.
  unfold pass1_anchor. intros Hrun.
  destruct (p1_qgroup st) as [|index_anchor qgroup]; [discriminate|].
  bind_step Hrun. rename a into qscore.
  bind_step Hrun. rename a into anchor.
  bind_step Hrun.
  bind_step Hrun. rename a0 into bandfactor.
  bind_step Hrun. rename a0 into qscore_ex.
  destruct (settle_min_upper_score qscore_ex (a_outgroup_tmp a) INT_MAX) as [tmp mus].
  destruct (push_outgroup records_ordered rtax mus tmp
              (if mus =? INT_MAX then None else Some (a_lnode a))
              (p1_outgroup st) (p1_lca_root_dist_min st))
    as [[[unode1 outgroup] dist]| | | |]; cbn [bind] in Hrun; try discriminate.
  destruct unode1 as [u|];
    [destruct ((if node_eq_dec u (a_lnode a) then false else true)
               && (a_lscore a <? qscore))|];
    injection Hrun as <-; reflexivity.
Qed.

Lemma pass1_loop_taxsig (n : nat) (records_ordered : list record)
    (rrseqs_ordered : list Seq) (rtax : node) :
  forall fuel (st st' : @pass1_state node),
    pass1_loop fuel n records_ordered rrseqs_ordered rtax st = Ok st' ->
    p1_anchors_taxsig st = 1%Q \/ p1_anchors_taxsig st = 0%Q ->
    p1_anchors_taxsig st' = 0%Q.
Proof.
  induction fuel as [|fuel IH]; intros st st' Hrun Hst; cbn [pass1_loop] in Hrun.
  - discriminate.
  - bind_step Hrun.
    assert (Ha : p1_anchors_taxsig a = 0%Q).
    { rewrite (pass1_anchor_taxsig _ _ _ _ _ _ E).
      destruct Hst as [-> | ->]; reflexivity. }
    destruct (p1_qgroup a); [injection Hrun as <-; exact Ha|].
    destruct (node_eq_dec (p1_lnode_global a) getRoot);
      [injection Hrun as <-; exact Ha|].
    eapply IH; [exact Hrun | right; exact Ha].
Qed.

(** X23: on the path with alignments (two or more records left unfiltered)
    the signal strength of the prediction is always 0: every anchor
    contributes the constant [taxsig = .0] to the minimum. *)
Theorem predict_signal_strength (rs : list record) (p : PredictionRecord node)
    (out : @prediction node) :
  predict exclude_factor reeval_factor rs p = Ok out ->
  (2 <= List.length (unmasked (screened exclude_factor rs)))%nat ->
  getSignalStrength (out_prec out) = 0%Q.
Proof.
  intros Hrun Hn.
  destruct (predict_run rs p out Hrun Hn) as
    (first & behind & qrseq & rr & r0 & st1 & st2 & _ & _ & _ & Hpass1 & _
     & _ & _ & _ & _ & _ & -> & _).
  eapply pass1_loop_taxsig; [exact Hpass1|]. left. reflexivity.
Qed.

End PredictRuns.

(** ** The support, and pass 2 *)

Section SupportAndPass2.
Context {node Seq : Type} `{Types} `{TaxonomyInterface node} `{Sequences Seq}
        `{PredictionModelBase node}.
Variables exclude_factor reeval_factor : float.
Local Abbreviation record := (AlignmentRecordTaxonomy node).

(** *** The support *)

Lemma pass0_body_support (qrseq : Seq) (qrlength : Z) (threshold : float)
    (records_ordered : list record) (rrseqs_ordered : list Seq) (i : nat)
    (st st' : @pass0_state node) (rec : record) :
  pass0_body qrseq qrlength threshold records_ordered rrseqs_ordered i st = Ok st' ->
  nth_error records_ordered i = Some rec ->
  p0_anchors_support st <= p0_anchors_support st'
  /\ (fle threshold (getScore rec) = true ->
      getIdentities rec <= p0_anchors_support st').
Proof.
  unfold pass0_body. intros Hrun Hrec.
  rewrite (idx_ok _ _ _ Hrec) in Hrun. cbn [bind] in Hrun.
  destruct (pass0_score qrseq qrlength threshold rrseqs_ordered i rec st)
    as [[[[qgroup score] matches] counter]| | | |] eqn:Escore;
    cbn [bind] in Hrun; try discriminate.
  do 2 bind_step Hrun. injection Hrun as <-. cbn.
  split; [lia|]. intros Hf.
  unfold pass0_score in Escore.
  destruct ((getAlignmentLength rec =? qrlength) && (getIdentities rec =? qrlength)).
  - injection Escore as _ _ <- _. lia.
  - rewrite Hf in Escore. bind_step Escore. injection Escore as _ _ <- _. lia.
Qed.

Lemma pass0_loop_support (qrseq : Seq) (qrlength : Z) (threshold : float)
    (records_ordered : list record) (rrseqs_ordered : list Seq) :
  forall k i (st st' : @pass0_state node),
    pass0_loop qrseq qrlength threshold records_ordered rrseqs_ordered k i st = Ok st' ->
    p0_anchors_support st <= p0_anchors_support st'
    /\ forall j rec, (i <= j < i + k)%nat ->
         nth_error records_ordered j = Some rec ->
         fle threshold (getScore rec) = true ->
         getIdentities rec <= p0_anchors_support st'.
Proof.
  induction k as [|k IH]; intros i st st' Hrun; cbn [pass0_loop] in Hrun.
  - injection Hrun as <-. split; [lia|]. intros j rec Hj. lia.
  - bind_step Hrun. destruct (IH _ _ _ Hrun) as [Hmono Hlater].
    assert (Hi : exists rec, nth_error records_ordered i = Some rec).
    { unfold pass0_body in E. bind_step E. eexists. apply idx_inv. exact E0. }
    destruct Hi as (reci & Hreci).
    destruct (pass0_body_support _ _ _ _ _ _ _ _ _ E Hreci) as [Hstep Hnow].
    split; [lia|]. intros j rec Hj Hrec Hf.
    destruct (Nat.eq_dec j i) as [-> | Hne].
    + rewrite Hreci in Hrec. injection Hrec as <-. specialize (Hnow Hf). lia.
    + apply (Hlater j rec); [lia | assumption | assumption].
Qed.

Lemma pass0_support (n : nat) (qmaxscore : float) (qrseq : Seq) (qrlength : Z)
    (records_ordered : list record) (rrseqs_ordered : list Seq)
    (r0 : @pass0_result node) (rec : record) :
  pass0 reeval_factor n qmaxscore qrseq qrlength records_ordered rrseqs_ordered
  = Ok r0 ->
  n = List.length records_ordered ->
  In rec records_ordered ->
  fle (reeval_factor * qmaxscore)%Q (getScore rec) = true ->
  getIdentities rec <= r0_anchors_support r0.
Proof.
  unfold pass0. intros Hrun -> Hin Hf.
  bind_step Hrun. bind_step Hrun. rename a0 into st. bind_step Hrun.
  destruct (keep_best records_ordered (p0_qscores st) (p0_matches st)
              (p0_index_best st) (p0_qgroup st) (getReferenceNode a0))
    as [[qgroup rtax]| | | |]; cbn [bind] in Hrun; try discriminate.
  destruct qgroup; [discriminate|]. injection Hrun as <-. cbn.
  apply In_nth_error in Hin. destruct Hin as (j & Hj).
  apply (proj2 (pass0_loop_support _ _ _ _ _ _ _ _ _ E0) j rec); try assumption.
  assert (j < List.length records_ordered)%nat by (apply nth_error_Some; congruence).
  lia.
Qed.

(** X24: the support of the prediction is at least the number of identities
    of every unfiltered record whose score reaches the threshold for
    re-alignment ([reeval_bandwidth_factor_] times the best score). *)
Theorem predict_support (rs : list record) (p : PredictionRecord node)
    (out : @prediction node) (rec : record) :
  predict exclude_factor reeval_factor rs p = Ok out ->
  In rec (unmasked (screened exclude_factor rs)) ->
  fle (reeval_factor * snd (count_unmasked rs 0 0%Q))%Q (getScore rec) = true ->
  getIdentities rec <= getAnchorsSupport (out_prec out).
Proof.
  intros Hrun Hin Hf.
  destruct (unmasked (screened exclude_factor rs)) as [|rec1 [|rec2 rest]] eqn:Eun.
  - destruct Hin.
  - destruct Hin as [<- | []].
    destruct (predict_one exclude_factor reeval_factor rs p out rec1 Hrun Eun)
      as (_ & _ & _ & _ & -> & _). lia.
  - destruct (predict_run exclude_factor reeval_factor rs p out Hrun) as
      (first & behind & qrseq & rr & r0 & st1 & st2 & _ & _ & Hpass0 & _ & _
       & _ & _ & _ & _ & _ & _ & -> & _); [rewrite Eun; simpl; lia|].
    rewrite Eun in Hpass0.
    eapply pass0_support; [exact Hpass0 | reflexivity | exact Hin | exact Hf].
Qed.

(** *** Pass 2 on an upper node that has reached the top *)

(** X25: when the upper node is the common ancestor of all reference nodes,
    pass 2 takes the anchors out of the outgroup one after the other and
    aligns nothing: scores, matches, upper node and the number of alignments
    stay as they are. *)
Theorem pass2_loop_skips (n : nat) (qrseq : Seq) (records_ordered : list record)
    (rrseqs_ordered : list Seq) (lca_allnodes : node) (bandfactor_max : float) :
  forall fuel (st : @pass2_state node),
    p2_unode_global st = lca_allnodes ->
    (List.length (p2_outgroup st) <= fuel)%nat ->
    pass2_loop fuel n qrseq records_ordered rrseqs_ordered lca_allnodes
      bandfactor_max st
    = Ok {| p2_outgroup := []; p2_qscores := p2_qscores st;
            p2_matches := p2_matches st; p2_unode_global := p2_unode_global st;
            p2_counter := p2_counter st |}.
Proof.
  induction fuel as [|fuel IH]; intros [outgroup qscores rmatches unode counter];
    cbn [p2_outgroup p2_qscores p2_matches p2_unode_global p2_counter];
    intros Hu Hfuel.
  - destruct outgroup; [reflexivity | simpl in Hfuel; lia].
  - destruct outgroup as [|index_anchor outgroup]; [reflexivity|].
    cbn [pass2_loop p2_outgroup p2_qscores p2_matches p2_unode_global p2_counter].
    unfold pass2_anchor. cbn [p2_unode_global].
    destruct (node_eq_dec unode lca_allnodes); [|contradiction].
    cbn [bind]. rewrite IH; [reflexivity | exact Hu | simpl in Hfuel; simpl; lia].
Qed.

End SupportAndPass2.

(** ** The reference segments and the lower node *)

Section SegmentsAndLowerNode.
Context {node Seq : Type} `{Types} `{TaxonomyInterface node} `{Sequences Seq}
        `{PredictionModelBase node}.
Variables exclude_factor reeval_factor : float.
Local Abbreviation record := (AlignmentRecordTaxonomy node).

(** *** The segment asked of the reference store *)

(** X26: for a record whose query range lies in the query range of the run,
    and as long as no coordinate leaves the range of [large_unsigned_int],
    the differences [left_ext] and [right_ext] do not wrap around, and the
    segment asked of the store is the aligned region of the reference,
    stretched by the two overhangs of the query and cut off at position 1;
    a record on the reverse strand is asked for as reverse complement. *)
Theorem retrieve_segment_region (qrstart qrstop : Z) (rec : record) :
  0 <= qrstart <= getQueryStart rec ->
  getQueryStart rec < large_unsigned_int_modulus ->
  0 <= getQueryStop rec <= qrstop -> qrstop < large_unsigned_int_modulus ->
  0 <= getReferenceStart rec < large_unsigned_int_modulus ->
  0 <= getReferenceStop rec < large_unsigned_int_modulus ->
  let left_ext := getQueryStart rec - qrstart in
  let right_ext := qrstop - getQueryStop rec in
  (getReferenceStart rec <= getReferenceStop rec ->
   getReferenceStop rec + right_ext < large_unsigned_int_modulus ->
   retrieve_segment qrstart qrstop rec
   = fetch (db_getSequence (getReferenceIdentifier rec)
              (Z.max 1 (getReferenceStart rec - left_ext))
              (getReferenceStop rec + right_ext)))
  /\ (getReferenceStop rec < getReferenceStart rec ->
      getReferenceStart rec + left_ext < large_unsigned_int_modulus ->
      retrieve_segment qrstart qrstop rec
      = fetch (db_getSequenceReverseComplement (getReferenceIdentifier rec)
                 (Z.max 1 (getReferenceStop rec - right_ext))
                 (getReferenceStart rec + left_ext))).
Proof.
  intros Hqs Hqs' Hqe Hqe' Hrs Hre left_ext right_ext.
  assert (Hl : to_large (getQueryStart rec - qrstart) = left_ext).
  { unfold to_large. apply Z.mod_small. subst left_ext. lia. }
  assert (Hr : to_large (qrstop - getQueryStop rec) = right_ext).
  { unfold to_large. apply Z.mod_small. subst right_ext. lia. }
  unfold retrieve_segment. rewrite Hl, Hr.
  split; intros Hdir Hfit.
  - replace (getReferenceStart rec <=? getReferenceStop rec) with true
      by (symmetry; apply Z.leb_le; exact Hdir).
    f_equal. f_equal.
    + destruct (left_ext <? getReferenceStart rec) eqn:E.
      * apply Z.ltb_lt in E. unfold to_large. rewrite Z.mod_small by lia. lia.
      * apply Z.ltb_ge in E. lia.
    + unfold to_large. apply Z.mod_small. subst right_ext. lia.
  - replace (getReferenceStart rec <=? getReferenceStop rec) with false
      by (symmetry; apply Z.leb_gt; exact Hdir).
    f_equal. f_equal.
    + destruct (right_ext <? getReferenceStop rec) eqn:E.
      * apply Z.ltb_lt in E. unfold to_large. rewrite Z.mod_small by lia. lia.
      * apply Z.ltb_ge in E. lia.
    + unfold to_large. apply Z.mod_small. subst left_ext. lia.
Qed.

(** *** Where the lower node lies *)

Section WithLaws.
Context `{!TaxonomyLaws node}.

Lemma spanned_by_record (records : list record) (rec : record) :
  In rec records -> spanned_by records (getReferenceNode rec).
Proof. intros Hin c Hc. apply Hc. exact Hin. Qed.

Lemma spanned_by_lca (records : list record) (x y : node) :
  spanned_by records x -> spanned_by records y -> spanned_by records (getLCA x y).
Proof.
  intros Hx Hy c Hc. apply getLCA_lowest; [apply Hx | apply Hy]; exact Hc.
Qed.

Lemma keep_best_spanned (records_ordered : list record) (qscores rmatches : list Z)
    (index_best : nat) :
  forall qgroup rtax kept rtax',
    keep_best records_ordered qscores rmatches index_best qgroup rtax
    = Ok (kept, rtax') ->
    spanned_by records_ordered rtax -> spanned_by records_ordered rtax'.
Proof.
  induction qgroup as [|it rest IH]; intros rtax kept rtax' Hrun Hs;
    cbn [keep_best] in Hrun.
  - injection Hrun as _ <-. exact Hs.
  - do 4 bind_step Hrun.
    destruct (negb (a =? a0) || negb (a1 =? a2)).
    + eapply IH; eassumption.
    + bind_step Hrun.
      destruct (keep_best records_ordered qscores rmatches index_best rest
                  (getLCA rtax (getReferenceNode a3)))
        as [[kept' rtax'']| | | |] eqn:Ek; cbn [bind] in Hrun; try discriminate.
      injection Hrun as _ <-.
      eapply IH; [exact Ek|].
      apply spanned_by_lca; [exact Hs|].
      apply spanned_by_record. eapply nth_error_In, idx_inv. exact E3.
Qed.

Lemma pass0_spanned (n : nat) (qmaxscore : float) (qrseq : Seq) (qrlength : Z)
    (records_ordered : list record) (rrseqs_ordered : list Seq)
    (r0 : @pass0_result node) :
  pass0 reeval_factor n qmaxscore qrseq qrlength records_ordered rrseqs_ordered
  = Ok r0 ->
  spanned_by records_ordered (r0_rtax r0).
Proof.
  unfold pass0. intros Hrun.
  bind_step Hrun. bind_step Hrun. rename a0 into st. bind_step Hrun.
  destruct (keep_best records_ordered (p0_qscores st) (p0_matches st)
              (p0_index_best st) (p0_qgroup st) (getReferenceNode a0))
    as [[qgroup rtax]| | | |] eqn:Ek; cbn [bind] in Hrun; try discriminate.
  destruct qgroup; [discriminate|]. injection Hrun as <-. cbn.
  eapply keep_best_spanned; [exact Ek|].
  apply spanned_by_record. eapply nth_error_In, idx_inv. exact E1.
Qed.

Lemma pass1_align_body_spanned (records_ordered : list record)
    (rrseqs_ordered : list Seq) (index_anchor : nat) (qscore : Z) (i : nat)
    (st st' : @anchor_state node) :
  pass1_align_body records_ordered rrseqs_ordered index_anchor qscore i st = Ok st' ->
  spanned_by records_ordered (a_lnode st) ->
  spanned_by records_ordered (a_lnode st').
Proof.
  unfold pass1_align_body. intros Hrun Hs.
  bind_step Hrun.
  destruct (pass1_score rrseqs_ordered index_anchor i st)
    as [[[[score qscores] rmatches] counter]| | | |];
    cbn [bind] in Hrun; try discriminate.
  destruct (score =? 0); [|destruct (score <=? qscore)];
    injection Hrun as <-; cbn; try exact Hs.
  apply spanned_by_lca; [exact Hs|].
  apply spanned_by_record. eapply nth_error_In, idx_inv. exact E.
Qed.

Lemma pass1_align_spanned (records_ordered : list record)
    (rrseqs_ordered : list Seq) (index_anchor : nat) (qscore : Z) :
  forall i (st a : @anchor_state node),
    pass1_align records_ordered rrseqs_ordered index_anchor qscore i st = Ok a ->
    spanned_by records_ordered (a_lnode st) ->
    spanned_by records_ordered (a_lnode a).
Proof.
  induction i as [|i IH]; intros st a Hrun Hs; cbn [pass1_align] in Hrun.
  - destruct (node_eq_dec (a_lnode st) getRoot); injection Hrun as <-; exact Hs.
  - destruct (node_eq_dec (a_lnode st) getRoot); [injection Hrun as <-; exact Hs|].
    bind_step Hrun. eapply IH; [exact Hrun|].
    eapply pass1_align_body_spanned; eassumption.
Qed.

(** The lower node an anchor contributes. *)
Lemma pass1_anchor_lower (n : nat) (records_ordered : list record)
    (rrseqs_ordered : list Seq) (rtax : node) (st st' : @pass1_state node) :
  pass1_anchor n records_ordered rrseqs_ordered rtax st = Ok st' ->
  exists index_anchor qscore rnode qgroup a,
    pass1_align records_ordered rrseqs_ordered index_anchor qscore n
      (anchor_start rtax rnode qgroup (p1_qscores st) (p1_matches st) (p1_counter st))
    = Ok a
    /\ p1_lnode_global st' = getLCA (p1_lnode_global st) (a_lnode a)
    /\ p1_counter st' = a_counter a
    /\ p1_qgroup st = index_anchor :: qgroup.
Proof.
  unfold pass1_anchor. intros Hrun.
  destruct (p1_qgroup st) as [|index_anchor qgroup]; [discriminate|].
  bind_step Hrun. rename a into qscore.
  bind_step Hrun. rename a into anchor.
  bind_step Hrun.
  bind_step Hrun. rename a0 into bandfactor.
  bind_step Hrun. rename a0 into qscore_ex.
  destruct (settle_min_upper_score qscore_ex (a_outgroup_tmp a) INT_MAX) as [tmp mus].
  destruct (push_outgroup records_ordered rtax mus tmp
              (if mus =? INT_MAX then None else Some (a_lnode a))
              (p1_outgroup st) (p1_lca_root_dist_min st))
    as [[[unode1 outgroup] dist]| | | |]; cbn [bind] in Hrun; try discriminate.
  exists index_anchor, qscore, (getReferenceNode anchor), qgroup, a.
  split; [exact E1|].
  destruct unode1 as [u|];
    [destruct ((if node_eq_dec u (a_lnode a) then false else true)
               && (a_lscore a <? qscore))|];
    injection Hrun as <-; repeat split; reflexivity.
Qed.

Lemma pass1_loop_lower (n : nat) (records_ordered : list record)
    (rrseqs_ordered : list Seq) (rtax : node) (fuel : nat)
    (st st' : @pass1_state node) :
  pass1_loop fuel n records_ordered rrseqs_ordered rtax st = Ok st' ->
  spanned_by records_ordered rtax ->
  spanned_by records_ordered (p1_lnode_global st)
  /\ isParentOf (p1_lnode_global st) rtax = true ->
  spanned_by records_ordered (p1_lnode_global st')
  /\ isParentOf (p1_lnode_global st') rtax = true.
Proof.
  intros Hrun Hrtax. revert st st' Hrun.
  apply (pass1_loop_preserves
           (fun s => spanned_by records_ordered (p1_lnode_global s)
                     /\ isParentOf (p1_lnode_global s) rtax = true)).
  intros s s' Hstep [Hs Hp].
  destruct (pass1_anchor_lower _ _ _ _ _ _ Hstep)
    as (ia & qscore & rnode & qgroup & a & Halign & -> & _).
  split.
  - apply spanned_by_lca; [exact Hs|].
    eapply pass1_align_spanned; [exact Halign | exact Hrtax].
  - eapply isParentOf_trans; [apply getLCA_left | exact Hp].
Qed.

(** X27: the lower node of the prediction is the best reference taxon or
    one of its ancestors, and it lies in every subtree that holds the
    reference nodes of all unfiltered records (so does the best reference
    taxon): the lower bound never leaves the part of the taxonomy the
    alignments point to. *)
Theorem predict_lower_node (rs : list record) (p : PredictionRecord node)
    (out : @prediction node) :
  predict exclude_factor reeval_factor rs p = Ok out ->
  unmasked (screened exclude_factor rs) <> [] ->
  exists lower best,
    getLowerNode (out_prec out) = Some lower
    /\ getBestReferenceTaxon (out_prec out) = Some best
    /\ isParentOf lower best = true
    /\ spanned_by (unmasked (screened exclude_factor rs)) lower.
Proof.
  intros Hrun Hne.
  destruct (unmasked (screened exclude_factor rs)) as [|rec [|rec' rest]] eqn:Eun;
    [congruence | |].
  - destruct (predict_one exclude_factor reeval_factor rs p out rec Hrun Eun)
      as (_ & _ & Hl & Hb & _).
    do 2 eexists. split; [exact Hl|]. split; [exact Hb|].
    split; [apply isParentOf_refl|].
    apply spanned_by_record. left. reflexivity.
  - destruct (predict_run exclude_factor reeval_factor rs p out Hrun) as
      (first & behind & qrseq & rr & r0 & st1 & st2 & _ & _ & Hpass0 & Hpass1 & _
       & _ & _ & Hl & _ & Hb & _); [rewrite Eun; simpl; lia|].
    rewrite Eun in Hpass0, Hpass1.
    do 2 eexists. split; [exact Hl|]. split; [exact Hb|].
    pose proof (pass0_spanned _ _ _ _ _ _ _ Hpass0) as Hrtax.
    destruct (pass1_loop_lower _ _ _ _ _ _ _ Hpass1 Hrtax) as [Hs Hp].
    { cbn. split; [exact Hrtax | apply isParentOf_refl]. }
    split; [exact Hp | exact Hs].
Qed.

End WithLaws.

End SegmentsAndLowerNode.

(** ** The number of alignments *)

Lemma set_insert_length (i : nat) (s : list nat) :
  (List.length (set_insert i s) <= S (List.length s))%nat.
Proof.
  induction s as [|j s IH]; simpl.
  - lia.
  - destruct (i <? j)%nat; [simpl; lia|].
    destruct (i =? j)%nat; simpl; lia.
Qed.

Lemma set_insert_index_set (n i : nat) (s : list nat) :
  (i < n)%nat -> index_set n s -> index_set n (set_insert i s).
Proof.
  intros Hi [Hs Hb]. split.
  - induction s as [|j s IH]; simpl.
    + constructor; constructor.
    + inversion Hs as [|j' s' Hs' Hj]; subst.
      inversion Hb as [|j' s' Hjn Hb']; subst.
      destruct (i <? j)%nat eqn:Elt.
      * apply Nat.ltb_lt in Elt. constructor; [exact Hs|].
        constructor; [exact Elt|].
        eapply Forall_impl; [|exact Hj]. intros x Hx. simpl in Hx. lia.
      * apply Nat.ltb_ge in Elt.
        destruct (i =? j)%nat eqn:Eeq; [exact Hs|].
        apply Nat.eqb_neq in Eeq.
        constructor; [apply IH; assumption|].
        apply Forall_forall. intros x Hx. apply set_insert_In in Hx.
        destruct Hx as [-> | Hx]; [lia|].
        rewrite Forall_forall in Hj. apply Hj. exact Hx.
  - apply Forall_forall. intros x Hx. apply set_insert_In in Hx.
    destruct Hx as [-> | Hx]; [exact Hi|].
    rewrite Forall_forall in Hb. apply Hb. exact Hx.
Qed.

Lemma index_set_nil (n : nat) : index_set n [].
Proof. split; constructor. Qed.

Lemma index_set_length (n : nat) (s : list nat) :
  index_set n s -> (List.length s <= n)%nat.
Proof.
  intros [Hs Hb].
  assert (Hgen : forall m, Forall (fun j => (m <= j)%nat) s ->
                           (List.length s <= n - m)%nat).
  { induction s as [|j s IH]; intros m Hm; simpl; [lia|].
    inversion Hs as [|j' s' Hs' Hj]; subst.
    inversion Hb as [|j' s' Hjn Hb']; subst.
    inversion Hm as [|j' s' Hmj Hm']; subst.
    specialize (IH Hs' Hb' (S j)).
    assert (Hnext : Forall (fun x => (S j <= x)%nat) s).
    { eapply Forall_impl; [|exact Hj]. intros x Hx. simpl in Hx. lia. }
    specialize (IH Hnext). lia. }
  specialize (Hgen 0%nat). rewrite Nat.sub_0_r in Hgen. apply Hgen.
  apply Forall_forall. intros x _. lia.
Qed.

Section Counting.
Context {node Seq : Type} `{Types} `{TaxonomyInterface node} `{Sequences Seq}
        `{PredictionModelBase node}.
Variables exclude_factor reeval_factor : float.
Local Abbreviation record := (AlignmentRecordTaxonomy node).

(** *** Pass 0 *)

Lemma pass0_body_counts (qrseq : Seq) (qrlength : Z) (threshold : float)
    (records_ordered : list record) (rrseqs_ordered : list Seq) (i : nat)
    (st st' : @pass0_state node) :
  pass0_body qrseq qrlength threshold records_ordered rrseqs_ordered i st = Ok st' ->
  (p0_counter st' <= S (p0_counter st))%nat
  /\ (List.length (p0_qgroup st') <= S (List.length (p0_qgroup st)))%nat.
Proof.
  unfold pass0_body. intros Hrun. bind_step Hrun. rename a into rec.
  destruct (pass0_score qrseq qrlength threshold rrseqs_ordered i rec st)
    as [[[[qgroup score] matches] counter]| | | |] eqn:Escore;
    cbn [bind] in Hrun; try discriminate.
  do 2 bind_step Hrun. injection Hrun as <-. cbn.
  unfold pass0_score in Escore.
  pose proof (set_insert_length i (p0_qgroup st)) as Hins.
  destruct ((getAlignmentLength rec =? qrlength) && (getIdentities rec =? qrlength)).
  - injection Escore as <- _ _ <-. lia.
  - destruct (fle threshold (getScore rec)).
    + bind_step Escore. injection Escore as <- _ _ <-. lia.
    + injection Escore as <- _ _ <-. lia.
Qed.

Lemma pass0_loop_counts (qrseq : Seq) (qrlength : Z) (threshold : float)
    (records_ordered : list record) (rrseqs_ordered : list Seq) :
  forall k i (st st' : @pass0_state node),
    pass0_loop qrseq qrlength threshold records_ordered rrseqs_ordered k i st = Ok st' ->
    (p0_counter st' <= p0_counter st + k)%nat
    /\ (List.length (p0_qgroup st') <= List.length (p0_qgroup st) + k)%nat.
Proof.
  induction k as [|k IH]; intros i st st' Hrun; cbn [pass0_loop] in Hrun.
  - injection Hrun as <-. lia.
  - bind_step Hrun. apply pass0_body_counts in E. apply IH in Hrun. lia.
Qed.

Lemma keep_best_length (records_ordered : list record) (qscores rmatches : list Z)
    (index_best : nat) :
  forall qgroup rtax kept rtax',
    keep_best records_ordered qscores rmatches index_best qgroup rtax
    = Ok (kept, rtax') ->
    (List.length kept <= List.length qgroup)%nat.
Proof.
  induction qgroup as [|it rest IH]; intros rtax kept rtax' Hrun;
    cbn [keep_best] in Hrun.
  - injection Hrun as <- _. simpl. lia.
  - do 4 bind_step Hrun.
    destruct (negb (a =? a0) || negb (a1 =? a2)).
    + apply IH in Hrun. simpl. lia.
    + bind_step Hrun.
      destruct (keep_best records_ordered qscores rmatches index_best rest
                  (getLCA rtax (getReferenceNode a3)))
        as [[kept' rtax'']| | | |] eqn:Ek; cbn [bind] in Hrun; try discriminate.
      injection Hrun as <- _. apply IH in Ek. simpl. lia.
Qed.

Lemma pass0_counts (n : nat) (qmaxscore : float) (qrseq : Seq) (qrlength : Z)
    (records_ordered : list record) (rrseqs_ordered : list Seq)
    (r0 : @pass0_result node) :
  pass0 reeval_factor n qmaxscore qrseq qrlength records_ordered rrseqs_ordered
  = Ok r0 ->
  (r0_counter r0 <= n)%nat /\ (List.length (r0_qgroup r0) <= n)%nat.
Proof.
  unfold pass0. intros Hrun.
  bind_step Hrun. bind_step Hrun. rename a0 into st. bind_step Hrun.
  destruct (keep_best records_ordered (p0_qscores st) (p0_matches st)
              (p0_index_best st) (p0_qgroup st) (getReferenceNode a0))
    as [[qgroup rtax]| | | |] eqn:Ek; cbn [bind] in Hrun; try discriminate.
  apply keep_best_length in Ek. apply pass0_loop_counts in E0. cbn in E0.
  destruct qgroup as [|q qgroup]; [discriminate|]. injection Hrun as <-. cbn in *.
  lia.
Qed.

(** *** Pass 1 *)

Lemma pass1_align_body_counts (n : nat) (records_ordered : list record)
    (rrseqs_ordered : list Seq) (index_anchor : nat) (qscore : Z) (i : nat)
    (st st' : @anchor_state node) :
  pass1_align_body records_ordered rrseqs_ordered index_anchor qscore i st = Ok st' ->
  (i < n)%nat ->
  Forall (fun e => (fst e < n)%nat) (a_outgroup_tmp st) ->
  (a_counter st' <= S (a_counter st))%nat
  /\ Forall (fun e => (fst e < n)%nat) (a_outgroup_tmp st').
Proof.
  unfold pass1_align_body. intros Hrun Hi Htmp. bind_step Hrun.
  destruct (pass1_score rrseqs_ordered index_anchor i st)
    as [[[[score qscores] rmatches] counter]| | | |] eqn:Escore;
    cbn [bind] in Hrun; try discriminate.
  assert (Hc : (counter <= S (a_counter st))%nat).
  { unfold pass1_score in Escore.
    destruct (i =? index_anchor)%nat; [injection Escore as _ _ _ <-; lia|].
    do 2 bind_step Escore.
    destruct ((a0 =? 0) && (a1 =? 0)); [injection Escore as _ _ _ <-; lia|].
    do 3 bind_step Escore.
    destruct ((a1 =? 0) && negb (a4 =? 0)); injection Escore as _ _ _ <-; lia. }
  destruct (score =? 0); [|destruct (score <=? qscore)];
    injection Hrun as <-; cbn; (split; [exact Hc|]); try exact Htmp.
  apply Forall_app. split; [exact Htmp|]. constructor; [exact Hi | constructor].
Qed.

Lemma pass1_align_counts (n : nat) (records_ordered : list record)
    (rrseqs_ordered : list Seq) (index_anchor : nat) (qscore : Z) :
  forall i (st a : @anchor_state node),
    pass1_align records_ordered rrseqs_ordered index_anchor qscore i st = Ok a ->
    (i <= n)%nat ->
    Forall (fun e => (fst e < n)%nat) (a_outgroup_tmp st) ->
    (a_counter a <= a_counter st + i)%nat
    /\ Forall (fun e => (fst e < n)%nat) (a_outgroup_tmp a).
Proof.
  induction i as [|i IH]; intros st a Hrun Hi Htmp; cbn [pass1_align] in Hrun.
  - destruct (node_eq_dec (a_lnode st) getRoot); injection Hrun as <-;
      (split; [lia | exact Htmp]).
  - destruct (node_eq_dec (a_lnode st) getRoot);
      [injection Hrun as <-; split; [lia | exact Htmp]|].
    bind_step Hrun.
    destruct (pass1_align_body_counts n _ _ _ _ _ _ _ E ltac:(lia) Htmp) as [Hc Htmp'].
    destruct (IH _ _ Hrun ltac:(lia) Htmp') as [Hc' Hout].
    split; [lia | exact Hout].
Qed.

Lemma settle_min_upper_score_keeps (P : nat * Z -> Prop) (qscore_ex : Z) :
  forall outgroup_tmp mus,
    Forall P outgroup_tmp ->
    Forall P (fst (settle_min_upper_score qscore_ex outgroup_tmp mus)).
Proof.
  induction outgroup_tmp as [|[i score] rest IH]; intros mus Hall;
    cbn [settle_min_upper_score].
  - constructor.
  - inversion Hall as [|e l He Hrest]; subst.
    destruct (qscore_ex <? score).
    + destruct (mus <? score); [apply IH; exact Hrest|].
      specialize (IH (if score <? mus then score else mus) Hrest).
      destruct (settle_min_upper_score qscore_ex rest
                  (if score <? mus then score else mus)) as [kept mus'].
      cbn [fst] in *. constructor; assumption.
    + specialize (IH (if qscore_ex <? mus then score else Z.max mus score) Hrest).
      destruct (settle_min_upper_score qscore_ex rest
                  (if qscore_ex <? mus then score else Z.max mus score))
        as [kept mus'].
      cbn [fst] in *. constructor; assumption.
Qed.

Lemma push_outgroup_index_set (n : nat) (records_ordered : list record)
    (rtax : node) (min_upper_score : Z) :
  forall outgroup_tmp unode outgroup dist unode' outgroup' dist',
    push_outgroup records_ordered rtax min_upper_score outgroup_tmp unode
      outgroup dist = Ok (unode', outgroup', dist') ->
    Forall (fun e => (fst e < n)%nat) outgroup_tmp ->
    index_set n outgroup -> index_set n outgroup'.
Proof.
  induction outgroup_tmp as [|[i score] rest IH];
    intros unode outgroup dist unode' outgroup' dist' Hrun Htmp Hset;
    cbn [push_outgroup] in Hrun.
  - injection Hrun as _ <- _. exact Hset.
  - inversion Htmp as [|e l Hi Hrest]; subst. cbn [fst] in Hi.
    bind_step Hrun.
    destruct (min_upper_score <? score); [eapply IH; eassumption|].
    destruct unode as [u|]; [|discriminate].
    destruct (dist <? root_pathlength (getLCA (getReferenceNode a) rtax))%nat;
      [eapply IH; eassumption|].
    destruct (root_pathlength (getLCA (getReferenceNode a) rtax) <? dist)%nat.
    + eapply IH; [exact Hrun | exact Hrest|].
      apply set_insert_index_set; [exact Hi | apply index_set_nil].
    + eapply IH; [exact Hrun | exact Hrest|].
      apply set_insert_index_set; assumption.
Qed.

Lemma pass1_anchor_counts (n : nat) (records_ordered : list record)
    (rrseqs_ordered : list Seq) (rtax : node) (st st' : @pass1_state node) :
  pass1_anchor n records_ordered rrseqs_ordered rtax st = Ok st' ->
  index_set n (p1_outgroup st) ->
  (p1_counter st' <= p1_counter st + n)%nat /\ index_set n (p1_outgroup st').
Proof.
  unfold pass1_anchor. intros Hrun Hset.
  destruct (p1_qgroup st) as [|index_anchor qgroup]; [discriminate|].
  bind_step Hrun. rename a into qscore.
  bind_step Hrun. rename a into anchor.
  bind_step Hrun.
  destruct (pass1_align_counts n _ _ _ _ _ _ _ E1 ltac:(lia)) as [Hc Htmp];
    [constructor|]. cbn in Hc.
  bind_step Hrun. rename a0 into bandfactor.
  bind_step Hrun. rename a0 into qscore_ex.
  pose proof (settle_min_upper_score_keeps _ qscore_ex _ INT_MAX Htmp) as Hkept.
  destruct (settle_min_upper_score qscore_ex (a_outgroup_tmp a) INT_MAX) as [tmp mus].
  cbn [fst] in Hkept.
  destruct (push_outgroup records_ordered rtax mus tmp
              (if mus =? INT_MAX then None else Some (a_lnode a))
              (p1_outgroup st) (p1_lca_root_dist_min st))
    as [[[unode1 outgroup] dist]| | | |] eqn:Epush;
    cbn [bind] in Hrun; try discriminate.
  pose proof (push_outgroup_index_set n _ _ _ _ _ _ _ _ _ _ Epush Hkept Hset) as Hout.
  destruct unode1 as [u|];
    [destruct ((if node_eq_dec u (a_lnode a) then false else true)
               && (a_lscore a <? qscore))|];
    injection Hrun as <-; cbn; split; assumption.
Qed.

Lemma pass1_loop_counts (n : nat) (records_ordered : list record)
    (rrseqs_ordered : list Seq) (rtax : node) :
  forall fuel (st st' : @pass1_state node),
    pass1_loop fuel n records_ordered rrseqs_ordered rtax st = Ok st' ->
    index_set n (p1_outgroup st) ->
    (p1_counter st' <= p1_counter st + fuel * n)%nat
    /\ index_set n (p1_outgroup st').
Proof.
  induction fuel as [|fuel IH]; intros st st' Hrun Hset; cbn [pass1_loop] in Hrun.
  - discriminate.
  - bind_step Hrun.
    destruct (pass1_anchor_counts _ _ _ _ _ _ E Hset) as [Hc Hset'].
    destruct (p1_qgroup a); [injection Hrun as <-; split; [lia | exact Hset']|].
    destruct (node_eq_dec (p1_lnode_global a) getRoot);
      [injection Hrun as <-; split; [lia | exact Hset']|].
    destruct (IH _ _ Hrun Hset') as [Hc' Hout]. split; [lia | exact Hout].
Qed.

(** *** Pass 2 *)

Lemma pass2_align_counts (records_ordered : list record)
    (rrseqs_ordered : list Seq) (index_anchor : nat) (qscore_ex : Z) :
  forall k i (st st' : @pass2_state node),
    pass2_align records_ordered rrseqs_ordered index_anchor qscore_ex k i st = Ok st' ->
    (p2_counter st' <= p2_counter st + k)%nat.
Proof.
  induction k as [|k IH]; intros i st st' Hrun; cbn [pass2_align] in Hrun.
  - injection Hrun as <-. lia.
  - bind_step Hrun. apply IH in Hrun.
    assert (Hc : (p2_counter a <= S (p2_counter st))%nat).
    { unfold pass2_align_body in E. bind_step E.
      destruct (pass2_score rrseqs_ordered index_anchor i (getReferenceNode a0) st)
        as [[[score qscores] counter]| | | |] eqn:Escore;
        cbn [bind] in E; try discriminate.
      injection E as <-. cbn. unfold pass2_score in Escore.
      destruct (i =? index_anchor)%nat; [injection Escore as _ _ <-; lia|].
      destruct (isParentOf (p2_unode_global st) (getReferenceNode a0)
                || (if node_eq_dec (getReferenceNode a0) (p2_unode_global st)
                    then true else false));
        [injection Escore as _ _ <-; lia|].
      do 2 bind_step Escore. injection Escore as _ _ <-. lia. }
    lia.
Qed.

Lemma pass2_anchor_counts (n : nat) (qrseq : Seq) (records_ordered : list record)
    (rrseqs_ordered : list Seq) (lca_allnodes : node) (bandfactor_max : float)
    (index_anchor : nat) (st st' : @pass2_state node) :
  pass2_anchor n qrseq records_ordered rrseqs_ordered lca_allnodes bandfactor_max
    index_anchor st = Ok st' ->
  (p2_counter st' <= p2_counter st + S n)%nat.
Proof.
  unfold pass2_anchor. intros Hrun.
  destruct (node_eq_dec (p2_unode_global st) lca_allnodes);
    [injection Hrun as <-; lia|].
  bind_step Hrun. rename a into st1.
  assert (Hc : (p2_counter st1 <= S (p2_counter st))%nat).
  { unfold pass2_align_query in E. bind_step E.
    destruct (a =? 0).
    - bind_step E. injection E as <-. cbn. lia.
    - injection E as <-. lia. }
  do 2 bind_step Hrun. apply pass2_align_counts in Hrun. lia.
Qed.

Lemma pass2_loop_counts (n : nat) (qrseq : Seq) (records_ordered : list record)
    (rrseqs_ordered : list Seq) (lca_allnodes : node) (bandfactor_max : float) :
  forall fuel (st st' : @pass2_state node),
    pass2_loop fuel n qrseq records_ordered rrseqs_ordered lca_allnodes
      bandfactor_max st = Ok st' ->
    (p2_counter st' <= p2_counter st + fuel * S n)%nat.
Proof.
  induction fuel as [|fuel IH]; intros st st' Hrun; cbn [pass2_loop] in Hrun.
  - destruct (p2_outgroup st); [injection Hrun as <-; lia | discriminate].
  - destruct (p2_outgroup st) as [|index_anchor outgroup];
      [injection Hrun as <-; lia|].
    bind_step Hrun. apply pass2_anchor_counts in E. apply IH in Hrun.
    cbn in E. lia.
Qed.

(** X28: with [n] records left unfiltered, [predict] computes at most
    [2 n (n + 1)] alignments: at most [n] in pass 0, at most [n] for each
    of the at most [n] anchors of pass 1, and at most [n + 1] for each of
    the at most [n] anchors of pass 2. *)
Theorem predict_alignments (rs : list record) (p : PredictionRecord node)
    (out : @prediction node) :
  predict exclude_factor reeval_factor rs p = Ok out ->
  let n := List.length (unmasked (screened exclude_factor rs)) in
  (out_alignments out <= 2 * n * (n + 1))%nat.
Proof.
  intros Hrun n.
  destruct (unmasked (screened exclude_factor rs)) as [|rec [|rec' rest]] eqn:Eun.
  - rewrite (predict_none exclude_factor reeval_factor rs p Eun) in Hrun.
    injection Hrun as <-. cbn. lia.
  - destruct (predict_one exclude_factor reeval_factor rs p out rec Hrun Eun)
      as (_ & _ & _ & _ & _ & -> & _). lia.
  - destruct (predict_run exclude_factor reeval_factor rs p out Hrun) as
      (first & behind & qrseq & rr & r0 & st1 & st2 & _ & _ & Hpass0 & Hpass1
       & Hpass2 & _ & _ & _ & _ & _ & _ & _ & -> & _); [rewrite Eun; simpl; lia|].
    rewrite Eun in Hpass0, Hpass1, Hpass2. fold n in Hpass0, Hpass1, Hpass2.
    destruct (pass0_counts _ _ _ _ _ _ _ Hpass0) as [Hc0 Hq0].
    destruct (pass1_loop_counts _ _ _ _ _ _ _ Hpass1) as [Hc1 Hset];
      [apply index_set_nil|].
    apply index_set_length in Hset.
    apply pass2_loop_counts in Hpass2.
    change (p1_counter (pass1_start r0)) with 0%nat in Hc1.
    change (p2_counter (pass2_start st1)) with 0%nat in Hpass2.
    pose proof (Nat.mul_le_mono_r _ _ n Hq0) as Hm1.
    pose proof (Nat.mul_le_mono_r _ _ (S n) Hset) as Hm2.
    clearbody n. lia.
Qed.

End Counting.

(** ** The upper score and the minimal outgroup *)

Section Settle.
Variable qscore_ex : Z.

(** Once [min_upper_score] is within the band it is the largest score
    within the band seen so far. *)
Lemma settle_within (outgroup_tmp : list (nat * Z)) :
  forall mus0,
    mus0 <= qscore_ex ->
    let mus := snd (settle_min_upper_score qscore_ex outgroup_tmp mus0) in
    mus0 <= mus <= qscore_ex
    /\ (forall e, In e outgroup_tmp -> in_band qscore_ex e -> snd e <= mus)
    /\ (mus = mus0 \/ exists e, In e outgroup_tmp /\ in_band qscore_ex e /\ snd e = mus).
Proof.
  induction outgroup_tmp as [|[i score] rest IH]; intros mus0 Hin;
    cbn [settle_min_upper_score].
  - cbn. split; [lia|]. split; [intros e []|]. left. reflexivity.
  - destruct (qscore_ex <? score) eqn:Eq.
    + apply Z.ltb_lt in Eq.
      replace (mus0 <? score) with true by (symmetry; apply Z.ltb_lt; lia).
      destruct (IH mus0 Hin) as (Hr & Hall & Hatt).
      cbn zeta in *. split; [exact Hr|]. split.
      * intros e [<- | He] Hb; [unfold in_band in Hb; simpl in Hb; lia|].
        apply Hall; assumption.
      * destruct Hatt as [Hatt | (e & He & Hb & Hs)]; [left; exact Hatt|].
        right. exists e. split; [right; exact He | split; assumption].
    + apply Z.ltb_ge in Eq.
      replace (qscore_ex <? mus0) with false by (symmetry; apply Z.ltb_ge; lia).
      destruct (IH (Z.max mus0 score) ltac:(lia)) as (Hr & Hall & Hatt).
      destruct (settle_min_upper_score qscore_ex rest (Z.max mus0 score))
        as [kept mus]. cbn [snd] in *.
      split; [lia|]. split.
      * intros e [<- | He] Hb; [simpl; lia | apply Hall; assumption].
      * destruct Hatt as [Hatt | (e & He & Hb & Hs)].
        -- destruct (Z.max_spec mus0 score) as [[_ Hm] | [_ Hm]].
           ++ right. exists (i, score). split; [left; reflexivity|].
              split; [exact Eq | simpl; lia].
           ++ left. lia.
        -- right. exists e. split; [right; exact He | split; assumption].
Qed.

(** While [min_upper_score] is above the band it is the smallest score
    seen so far; the first entry within the band brings it into the band. *)
Lemma settle_above (outgroup_tmp : list (nat * Z)) :
  forall mus0,
    qscore_ex < mus0 ->
    let mus := snd (settle_min_upper_score qscore_ex outgroup_tmp mus0) in
    (Exists (in_band qscore_ex) outgroup_tmp ->
     mus <= qscore_ex
     /\ (forall e, In e outgroup_tmp -> in_band qscore_ex e -> snd e <= mus)
     /\ exists e, In e outgroup_tmp /\ in_band qscore_ex e /\ snd e = mus)
    /\ (~ Exists (in_band qscore_ex) outgroup_tmp ->
        mus <= mus0
        /\ (forall e, In e outgroup_tmp -> mus <= snd e)
        /\ (mus = mus0 \/ exists e, In e outgroup_tmp /\ snd e = mus)).
Proof.
  induction outgroup_tmp as [|[i score] rest IH]; intros mus0 Hout;
    cbn [settle_min_upper_score].
  - cbn. split.
    + intros Hex. inversion Hex.
    + intros _. split; [lia|]. split; [intros e []|]. left. reflexivity.
  - destruct (qscore_ex <? score) eqn:Eq.
    + apply Z.ltb_lt in Eq.
      assert (Hnot : ~ in_band qscore_ex (i, score)) by (unfold in_band; simpl; lia).
      destruct (mus0 <? score) eqn:Em.
      * apply Z.ltb_lt in Em.
        destruct (IH mus0 Hout) as [Hsome Hnone]. cbn zeta in *. split.
        -- intros Hex. inversion Hex as [e l He | e l He]; subst; [contradiction|].
           destruct (Hsome He) as (Hle & Hall & (e & Hin & Hb & Hs)).
           split; [exact Hle|]. split.
           ++ intros x [<- | Hx] Hbx; [contradiction | apply Hall; assumption].
           ++ exists e. split; [right; exact Hin | split; assumption].
        -- intros Hno.
           assert (Hno' : ~ Exists (in_band qscore_ex) rest)
             by (intros Hex; apply Hno; right; exact Hex).
           destruct (Hnone Hno') as (Hle & Hall & Hatt).
           split; [exact Hle|]. split.
           ++ intros x [<- | Hx]; [simpl; lia | apply Hall; exact Hx].
           ++ destruct Hatt as [Hatt | (e & Hin & Hs)]; [left; exact Hatt|].
              right. exists e. split; [right; exact Hin | exact Hs].
      * apply Z.ltb_ge in Em.
        assert (Hmus1 : (if score <? mus0 then score else mus0) = score).
        { destruct (score <? mus0) eqn:E; [reflexivity|].
          apply Z.ltb_ge in E. lia. }
        rewrite Hmus1.
        destruct (IH score ltac:(lia)) as [Hsome Hnone].
        destruct (settle_min_upper_score qscore_ex rest score) as [kept mus].
        cbn [snd] in *. split.
        -- intros Hex. inversion Hex as [e l He | e l He]; subst; [contradiction|].
           destruct (Hsome He) as (Hle & Hall & (e & Hin & Hb & Hs)).
           split; [exact Hle|]. split.
           ++ intros x [<- | Hx] Hbx; [contradiction | apply Hall; assumption].
           ++ exists e. split; [right; exact Hin | split; assumption].
        -- intros Hno.
           assert (Hno' : ~ Exists (in_band qscore_ex) rest)
             by (intros Hex; apply Hno; right; exact Hex).
           destruct (Hnone Hno') as (Hle & Hall & Hatt).
           split; [lia|]. split.
           ++ intros x [<- | Hx]; [simpl; lia | apply Hall; exact Hx].
           ++ right. destruct Hatt as [Hatt | (e & Hin & Hs)].
              ** exists (i, score). split; [left; reflexivity | simpl; lia].
              ** exists e. split; [right; exact Hin | exact Hs].
    + apply Z.ltb_ge in Eq.
      replace (qscore_ex <? mus0) with true by (symmetry; apply Z.ltb_lt; lia).
      destruct (settle_within rest score Eq) as (Hr & Hall & Hatt).
      destruct (settle_min_upper_score qscore_ex rest score) as [kept mus].
      cbn [snd] in *. split.
      * intros _. split; [lia|]. split.
        -- intros x [<- | Hx] Hbx; [simpl; lia | apply Hall; assumption].
        -- destruct Hatt as [Hatt | (e & Hin & Hb & Hs)].
           ++ exists (i, score). split; [left; reflexivity|].
              split; [exact Eq | simpl; lia].
           ++ exists e. split; [right; exact Hin | split; assumption].
      * intros Hno. exfalso. apply Hno. left. exact Eq.
Qed.

(** X29: what the first walk over the temporary outgroup list settles:
    when some record's score is within the extended band [qscore_ex],
    [min_upper_score] is the largest score within the band; otherwise it is
    the smallest score of all (and stays [INT_MAX] on an empty list). *)
Theorem settle_min_upper_score_settles (outgroup_tmp : list (nat * Z)) :
  qscore_ex < INT_MAX ->
  Forall (fun e => snd e <= INT_MAX) outgroup_tmp ->
  let mus := snd (settle_min_upper_score qscore_ex outgroup_tmp INT_MAX) in
  (Exists (in_band qscore_ex) outgroup_tmp ->
   mus <= qscore_ex
   /\ (forall e, In e outgroup_tmp -> in_band qscore_ex e -> snd e <= mus)
   /\ exists e, In e outgroup_tmp /\ snd e = mus)
  /\ (~ Exists (in_band qscore_ex) outgroup_tmp ->
      (forall e, In e outgroup_tmp -> mus <= snd e)
      /\ (outgroup_tmp = [] -> mus = INT_MAX)
      /\ (outgroup_tmp <> [] -> exists e, In e outgroup_tmp /\ snd e = mus)).
Proof.
  intros Hq Hall.
  destruct (settle_above outgroup_tmp INT_MAX Hq) as [Hsome Hnone].
  cbn zeta in *. split.
  - intros Hex. destruct (Hsome Hex) as (Hle & Hmax & (e & Hin & _ & Hs)).
    split; [exact Hle|]. split; [exact Hmax|]. exists e. split; assumption.
  - intros Hno. destruct (Hnone Hno) as (Hle & Hmin & Hatt).
    split; [exact Hmin|]. split.
    + intros ->. reflexivity.
    + intros Hne. destruct Hatt as [Hatt | Hatt]; [|exact Hatt].
      destruct outgroup_tmp as [|e rest]; [congruence|].
      exists e. split; [left; reflexivity|].
      pose proof (Hmin e (or_introl eq_refl)) as H1.
      pose proof (Forall_inv Hall) as H2. simpl in H2. lia.
Qed.

End Settle.

Section Outgroup.
Context {node Seq : Type} `{Types} `{TaxonomyInterface node} `{Sequences Seq}.
Local Abbreviation record := (AlignmentRecordTaxonomy node).

Lemma push_outgroup_at (records_ordered : list record) (rtax : node)
    (min_upper_score : Z) :
  forall outgroup_tmp unode outgroup dist unode' outgroup' dist',
    push_outgroup records_ordered rtax min_upper_score outgroup_tmp unode
      outgroup dist = Ok (unode', outgroup', dist') ->
    outgroup_at records_ordered rtax outgroup dist ->
    outgroup_at records_ordered rtax outgroup' dist' /\ (dist' <= dist)%nat.
Proof.
  induction outgroup_tmp as [|[i score] rest IH];
    intros unode outgroup dist unode' outgroup' dist' Hrun Hat;
    cbn [push_outgroup] in Hrun.
  - injection Hrun as _ <- <-. split; [exact Hat | lia].
  - bind_step Hrun. rename a into rec. apply idx_inv in E.
    destruct (min_upper_score <? score); [eapply IH; eassumption|].
    destruct unode as [u|]; [|discriminate].
    destruct (dist <? root_pathlength (getLCA (getReferenceNode rec) rtax))%nat
      eqn:Egt; [eapply IH; eassumption|].
    apply Nat.ltb_ge in Egt.
    destruct (root_pathlength (getLCA (getReferenceNode rec) rtax) <? dist)%nat
      eqn:Elt.
    + apply Nat.ltb_lt in Elt.
      destruct (IH _ _ _ _ _ _ Hrun) as [Hat' Hle]; [|split; [exact Hat' | lia]].
      intros j Hj. apply set_insert_In in Hj. destruct Hj as [-> | []].
      exists rec. split; [exact E | reflexivity].
    + apply Nat.ltb_ge in Elt.
      destruct (IH _ _ _ _ _ _ Hrun) as [Hat' Hle]; [|split; [exact Hat' | lia]].
      intros j Hj. apply set_insert_In in Hj. destruct Hj as [-> | Hj].
      * exists rec. split; [exact E | lia].
      * apply Hat. exact Hj.
Qed.

Lemma pass1_anchor_outgroup_at (n : nat) (records_ordered : list record)
    (rrseqs_ordered : list Seq) (rtax : node) (st st' : @pass1_state node) :
  pass1_anchor n records_ordered rrseqs_ordered rtax st = Ok st' ->
  outgroup_at records_ordered rtax (p1_outgroup st) (p1_lca_root_dist_min st) ->
  outgroup_at records_ordered rtax (p1_outgroup st') (p1_lca_root_dist_min st').
Proof.
  unfold pass1_anchor. intros Hrun Hat.
  destruct (p1_qgroup st) as [|index_anchor qgroup]; [discriminate|].
  bind_step Hrun. rename a into qscore.
  bind_step Hrun. rename a into anchor.
  bind_step Hrun.
  bind_step Hrun. rename a0 into bandfactor.
  bind_step Hrun. rename a0 into qscore_ex.
  destruct (settle_min_upper_score qscore_ex (a_outgroup_tmp a) INT_MAX) as [tmp mus].
  destruct (push_outgroup records_ordered rtax mus tmp
              (if mus =? INT_MAX then None else Some (a_lnode a))
              (p1_outgroup st) (p1_lca_root_dist_min st))
    as [[[unode1 outgroup] dist]| | | |] eqn:Epush;
    cbn [bind] in Hrun; try discriminate.
  destruct (push_outgroup_at _ _ _ _ _ _ _ _ _ _ Epush Hat) as [Hat' _].
  destruct unode1 as [u|];
    [destruct ((if node_eq_dec u (a_lnode a) then false else true)
               && (a_lscore a <? qscore))|];
    injection Hrun as <-; exact Hat'.
Qed.

(** X30: the outgroup pass 1 hands to pass 2 is curated: all its records
    have their common ancestor with the best reference taxon at one and the
    same depth, the value of [lca_root_dist_min] at the end of the pass. *)
Theorem pass1_loop_outgroup (n : nat) (records_ordered : list record)
    (rrseqs_ordered : list Seq) (fuel : nat) (r0 : @pass0_result node)
    (st1 : @pass1_state node) :
  pass1_loop fuel n records_ordered rrseqs_ordered (r0_rtax r0) (pass1_start r0)
  = Ok st1 ->
  forall j, In j (p1_outgroup st1) ->
    exists rec, nth_error records_ordered j = Some rec
                /\ root_pathlength (getLCA (getReferenceNode rec) (r0_rtax r0))
                   = p1_lca_root_dist_min st1.
Proof.
  intros Hrun.
  apply (pass1_loop_preserves
           (fun s => outgroup_at records_ordered (r0_rtax r0) (p1_outgroup s)
                       (p1_lca_root_dist_min s))
           n records_ordered rrseqs_ordered (r0_rtax r0)
           (fun s s' => pass1_anchor_outgroup_at n _ _ _ s s')
           fuel _ _ Hrun).
  intros j [].
Qed.

End Outgroup.

(** ** The properties at work on the small taxonomy and on a small file *)

(** A tab, the separator of the map files. *)
Lemma loadMapFromFile_returns_witness :
  exists map_filled reported,
    UtilsFile.loadMapFromFile (list_eq_dec Ascii.ascii_dec) taxid_file
      ([] : UtilsFile.std_map (KeyT := Utils.str) (ValueT := N)) [tab]
    = Ok (map_filled, reported).
Proof.
  apply (LoadMapFacts.loadMapFromFile_returns (list_eq_dec Ascii.ascii_dec)
           taxid_file [] [tab]).
  vm_compute. reflexivity.
Defined.

Example taxid_file_loaded :
  UtilsFile.loadMapFromFile (list_eq_dec Ascii.ascii_dec) taxid_file
    ([] : UtilsFile.std_map (KeyT := Utils.str) (ValueT := N)) [tab]
  = Ok ([(Utils.of_string "eco1", 562%N)],
        [Utils.of_string "sal1" ++ tab :: Utils.of_string "x"]).
Proof. vm_compute. reflexivity. Qed.

Lemma loadMapFromFile_keeps_bindings_witness :
  exists map_filled reported,
    UtilsFile.loadMapFromFile (list_eq_dec Ascii.ascii_dec) taxid_file
      [(Utils.of_string "eco1", 1%N)] [tab]
    = Ok (map_filled, reported)
    /\ UtilsFile.std_map_find (list_eq_dec Ascii.ascii_dec) map_filled
         (Utils.of_string "eco1") = Some 1%N.
Proof.
  apply (LoadMapFacts.loadMapFromFile_keeps_bindings (list_eq_dec Ascii.ascii_dec)
           taxid_file [(Utils.of_string "eco1", 1%N)] [tab]
           (Utils.of_string "eco1") 1%N).
  - vm_compute. reflexivity.
  - vm_compute. reflexivity.
Defined.

Lemma load_line_binds_witness :
  exists map_filled,
    UtilsFile.load_line (list_eq_dec Ascii.ascii_dec) [tab]
      (Utils.of_string "eco1" ++ tab :: Utils.of_string "562")
      (([] : UtilsFile.std_map (KeyT := Utils.str) (ValueT := N)), [])
    = Ok (map_filled, [])
    /\ UtilsFile.std_map_find (list_eq_dec Ascii.ascii_dec) map_filled
         (Utils.of_string "eco1") = Some 562%N
    /\ forall k', k' <> Utils.of_string "eco1" ->
         UtilsFile.std_map_find (list_eq_dec Ascii.ascii_dec) map_filled k' = None.
Proof.
  apply (LoadMapFacts.load_line_binds (list_eq_dec Ascii.ascii_dec) [tab]
           (Utils.of_string "eco1") (Utils.of_string "562") tab
           (Utils.of_string "eco1") 562%N [] []).
  - vm_compute. reflexivity.
  - reflexivity.
  - intros c Hc. simpl in Hc.
    repeat (destruct Hc as [<- | Hc]; [reflexivity|]). contradiction.
  - intros c Hc. simpl in Hc.
    repeat (destruct Hc as [<- | Hc]; [reflexivity|]). contradiction.
  - reflexivity.
  - reflexivity.
  - reflexivity.
Defined.

Lemma loadMapFromFile_two_files_witness :
  UtilsFile.loadMapFromFile (list_eq_dec Ascii.ascii_dec)
    ((Utils.of_string "eco1" ++ tab :: Utils.of_string "562")
     ++ UtilsFile.newline :: (Utils.of_string "sal1" ++ tab :: Utils.of_string "x"))
    ([] : UtilsFile.std_map (KeyT := Utils.str) (ValueT := N)) [tab]
  = Ok ([(Utils.of_string "eco1", 562%N)],
        [] ++ [Utils.of_string "sal1" ++ tab :: Utils.of_string "x"]).
Proof.
  apply (LoadMapFacts.loadMapFromFile_two_files (list_eq_dec Ascii.ascii_dec)
           (Utils.of_string "eco1" ++ tab :: Utils.of_string "562")
           (Utils.of_string "sal1" ++ tab :: Utils.of_string "x")
           [] [(Utils.of_string "eco1", 562%N)] [(Utils.of_string "eco1", 562%N)]
           [tab] [] [Utils.of_string "sal1" ++ tab :: Utils.of_string "x"]).
  - vm_compute. reflexivity.
  - vm_compute. reflexivity.
Defined.

(** The anchor, its sister species and a distant node, with scores that
    grow with the distance: no disorder. *)
Lemma getFactor_without_disorder_witness :
  getFactor [(0, Ecoli); (2, Salmonella); (6, Firmicutes)] = Ok 1%Q.
Proof.
  apply (getFactor_without_disorder (0, Ecoli) [(2, Salmonella); (6, Firmicutes)]).
  simpl. repeat split; lia.
Defined.

Lemma getFactor_order_witness :
  getFactor [(0, Ecoli); (2, Firmicutes); (6, Salmonella)]
  = getFactor [(0, Ecoli); (6, Salmonella); (2, Firmicutes)].
Proof.
  apply (getFactor_order (0, Ecoli) [(2, Firmicutes); (6, Salmonella)]
           [(6, Salmonella); (2, Firmicutes)]).
  - apply perm_swap.
  - simpl. constructor; [|constructor; [|constructor]].
    + intros [Hin | []]. discriminate Hin.
    + intros [].
Defined.


(** The factor of the anchor and its sister species is 1, and stays 1 when
    a distant node with a smaller score is added, which makes a disorder
    of ratio 3 for an accumulator filled at once. *)
Lemma getFactor_computed_once_witness :
  exists bandfactor b,
    BandFactorObject.getFactor
      (BandFactorObject.addSequences BandFactorObject.init
         [(0, Ecoli); (6, Salmonella)])
    = Ok (bandfactor, b)
    /\ getFactor [(0, Ecoli); (6, Salmonella)] = Ok bandfactor
    /\ BandFactorObject.getFactor (BandFactorObject.addSequences b [(2, Firmicutes)])
       = Ok (bandfactor, BandFactorObject.addSequences b [(2, Firmicutes)]).
Proof.
  apply (getFactor_computed_once [(0, Ecoli); (6, Salmonella)] [(2, Firmicutes)]).
  discriminate.
Defined.

Lemma screening_keeps_best_witness :
  exists best,
    In best (unmasked (screened (1 # 2) three_hits))
    /\ (getScore (hit "fir1" Firmicutes 12 5) <= getScore best)%Q.
Proof.
  apply (screening_keeps_best (1 # 2) three_hits (hit "fir1" Firmicutes 12 5)).
  - unfold Qle. simpl. lia.
  - simpl. right. right. left. reflexivity.
  - unfold Qle. simpl. lia.
Defined.


Lemma predict_query_range_witness :
  exists out,
    predict (1 # 2) (9 # 10) three_hits blank = Ok out
    /\ (forall rec, In rec (unmasked (screened (1 # 2) three_hits)) ->
          getQueryFeatureBegin (out_prec out) <= getQueryStart rec
          /\ getQueryStop rec <= getQueryFeatureEnd (out_prec out)).
Proof.
  destruct (predict (1 # 2) (9 # 10) three_hits blank)
    as [out| | | |] eqn:Erun; try (vm_compute in Erun; discriminate Erun).
  exists out. split; [reflexivity|].
  apply (predict_query_range (1 # 2) (9 # 10) three_hits blank out Erun).
  vm_compute. discriminate.
Defined.

(** The distant hit is below half of the best score and is filtered out;
    the exact hit stays as it is. *)
Lemma predict_only_masks_witness :
  exists out,
    predict (1 # 2) (9 # 10) [hit "eco1" Ecoli 16 8; hit "fir1" Firmicutes 7 5] blank
    = Ok out
    /\ Forall2 (fun r r' =>
                  r' = r
                  \/ (r' = filterOut r /\ isFiltered r = false
                      /\ (getScore r
                          < snd (count_unmasked
                                   [hit "eco1" Ecoli 16 8; hit "fir1" Firmicutes 7 5]
                                   0 0%Q) * (1 # 2))%Q))
               [hit "eco1" Ecoli 16 8; hit "fir1" Firmicutes 7 5]
               (out_recordset out).
Proof.
  destruct (predict (1 # 2) (9 # 10)
              [hit "eco1" Ecoli 16 8; hit "fir1" Firmicutes 7 5] blank)
    as [out| | | |] eqn:Erun; try (vm_compute in Erun; discriminate Erun).
  exists out. split; [reflexivity|].
  apply (predict_only_masks (1 # 2) (9 # 10) _ blank out Erun).
Defined.

Lemma predict_signal_strength_witness :
  exists out,
    predict (1 # 2) (9 # 10) three_hits blank = Ok out
    /\ getSignalStrength (out_prec out) = 0%Q.
Proof.
  destruct (predict (1 # 2) (9 # 10) three_hits blank)
    as [out| | | |] eqn:Erun; try (vm_compute in Erun; discriminate Erun).
  exists out. split; [reflexivity|].
  apply (predict_signal_strength (1 # 2) (9 # 10) three_hits blank out Erun).
  vm_compute. lia.
Defined.

Lemma predict_support_witness :
  exists out,
    predict (1 # 2) (9 # 10) three_hits blank = Ok out
    /\ getIdentities (hit "eco1" Ecoli 16 8) <= getAnchorsSupport (out_prec out).
Proof.
  destruct (predict (1 # 2) (9 # 10) three_hits blank)
    as [out| | | |] eqn:Erun; try (vm_compute in Erun; discriminate Erun).
  exists out. split; [reflexivity|].
  apply (predict_support (1 # 2) (9 # 10) three_hits blank out
           (hit "eco1" Ecoli 16 8) Erun).
  - vm_compute. left. reflexivity.
  - reflexivity.
Defined.

Lemma pass2_loop_skips_witness :
  pass2_loop 2 3 query_sequence three_hits
    (map list_ascii_of_string ["ACGTACGT"; "ACGTACGA"; "ACGTTTGA"]%string)
    Bacteria 1%Q
    {| p2_outgroup := [1; 2]%nat; p2_qscores := [0; 1; 3]; p2_matches := [8; 7; 5];
       p2_unode_global := Bacteria; p2_counter := 0 |}
  = Ok {| p2_outgroup := []; p2_qscores := [0; 1; 3]; p2_matches := [8; 7; 5];
          p2_unode_global := Bacteria; p2_counter := 0 |}.
Proof.
  apply (pass2_loop_skips 3 query_sequence three_hits
           (map list_ascii_of_string ["ACGTACGT"; "ACGTACGA"; "ACGTTTGA"]%string)
           Bacteria 1%Q 2
           {| p2_outgroup := [1; 2]%nat; p2_qscores := [0; 1; 3];
              p2_matches := [8; 7; 5]; p2_unode_global := Bacteria;
              p2_counter := 0 |}).
  - reflexivity.
  - simpl. lia.
Defined.

(** A local alignment of positions 3 to 6 of the query to positions 5 to 8
    of a reference, in a run over the query range 1 to 8: the store is asked
    for positions 3 to 10. *)
Lemma retrieve_segment_region_witness :
  retrieve_segment (Seq := list ascii) 1 8
    {| getQueryStart := 3; getQueryStop := 6;
       getReferenceIdentifier := "eco1";
       getReferenceStart := 5; getReferenceStop := 8;
       getScore := 8%Q; getIdentities := 4; getAlignmentLength := 4;
       getReferenceNode := Ecoli; isFiltered := false |}
  = fetch (db_getSequence "eco1" 3 10).
Proof.
  refine (proj1 (retrieve_segment_region (Seq := list ascii) 1 8
            {| getQueryStart := 3; getQueryStop := 6;
               getReferenceIdentifier := "eco1";
               getReferenceStart := 5; getReferenceStop := 8;
               getScore := 8%Q; getIdentities := 4; getAlignmentLength := 4;
               getReferenceNode := Ecoli; isFiltered := false |}
            _ _ _ _ _ _) _ _); simpl; lia.
Defined.

Lemma predict_lower_node_witness :
  exists out lower best,
    predict (1 # 2) (9 # 10) three_hits blank = Ok out
    /\ getLowerNode (out_prec out) = Some lower
    /\ getBestReferenceTaxon (out_prec out) = Some best
    /\ isParentOf lower best = true
    /\ spanned_by (unmasked (screened (1 # 2) three_hits)) lower.
Proof.
  destruct (predict (1 # 2) (9 # 10) three_hits blank)
    as [out| | | |] eqn:Erun; try (vm_compute in Erun; discriminate Erun).
  destruct (predict_lower_node (1 # 2) (9 # 10) three_hits blank out Erun)
    as (lower & best & Hl & Hb & Hp & Hs).
  - vm_compute. discriminate.
  - exists out, lower, best. repeat split; assumption.
Defined.

Lemma predict_alignments_witness :
  exists out,
    predict (1 # 2) (9 # 10) three_hits blank = Ok out
    /\ (out_alignments out
        <= 2 * List.length (unmasked (screened (1 # 2) three_hits))
           * (List.length (unmasked (screened (1 # 2) three_hits)) + 1))%nat.
Proof.
  destruct (predict (1 # 2) (9 # 10) three_hits blank)
    as [out| | | |] eqn:Erun; try (vm_compute in Erun; discriminate Erun).
  exists out. split; [reflexivity|].
  apply (predict_alignments (1 # 2) (9 # 10) three_hits blank out Erun).
Defined.

Example three_hits_alignments :
  match predict (1 # 2) (9 # 10) three_hits blank with
  | Ok out => Some (out_alignments out)
  | _ => None
  end = Some 4%nat.
Proof. vm_compute. reflexivity. Qed.

(** With the band reaching to 3, the scores 5, 2 and 3 settle on 3, the
    largest score within the band. *)
Lemma settle_min_upper_score_settles_witness :
  let mus := snd (settle_min_upper_score 3 [(2%nat, 5); (1%nat, 2); (0%nat, 3)] INT_MAX) in
  (Exists (in_band 3) [(2%nat, 5); (1%nat, 2); (0%nat, 3)] ->
   mus <= 3
   /\ (forall e, In e [(2%nat, 5); (1%nat, 2); (0%nat, 3)] -> in_band 3 e -> snd e <= mus)
   /\ exists e, In e [(2%nat, 5); (1%nat, 2); (0%nat, 3)] /\ snd e = mus)
  /\ (~ Exists (in_band 3) [(2%nat, 5); (1%nat, 2); (0%nat, 3)] ->
      (forall e, In e [(2%nat, 5); (1%nat, 2); (0%nat, 3)] -> mus <= snd e)
      /\ ([(2%nat, 5); (1%nat, 2); (0%nat, 3)] = [] -> mus = INT_MAX)
      /\ ([(2%nat, 5); (1%nat, 2); (0%nat, 3)] <> [] ->
          exists e, In e [(2%nat, 5); (1%nat, 2); (0%nat, 3)] /\ snd e = mus)).
Proof.
  apply (settle_min_upper_score_settles 3 [(2%nat, 5); (1%nat, 2); (0%nat, 3)]).
  - reflexivity.
  - repeat constructor; simpl; unfold INT_MAX; lia.
Defined.

Lemma pass1_loop_outgroup_witness :
  exists st1,
    pass1_loop 1 3 three_hits
      (map list_ascii_of_string ["ACGTACGT"; "ACGTACGA"; "ACGTTTGA"]%string)
      Ecoli
      (pass1_start
         {| r0_qgroup := [0%nat]; r0_qscores := [0; 1; 3]; r0_matches := [8; 7; 5];
            r0_anchors_support := 8; r0_lca_allnodes := Bacteria; r0_rtax := Ecoli;
            r0_counter := 2 |})
    = Ok st1
    /\ forall j, In j (p1_outgroup st1) ->
         exists rec, nth_error three_hits j = Some rec
                     /\ root_pathlength (getLCA (getReferenceNode rec) Ecoli)
                        = p1_lca_root_dist_min st1.
Proof.
  destruct (pass1_loop 1 3 three_hits
              (map list_ascii_of_string ["ACGTACGT"; "ACGTACGA"; "ACGTTTGA"]%string)
              Ecoli
              (pass1_start
                 {| r0_qgroup := [0%nat]; r0_qscores := [0; 1; 3];
                    r0_matches := [8; 7; 5]; r0_anchors_support := 8;
                    r0_lca_allnodes := Bacteria; r0_rtax := Ecoli;
                    r0_counter := 2 |}))
    as [st1| | | |] eqn:Erun; try (vm_compute in Erun; discriminate Erun).
  exists st1. split; [reflexivity|].
  exact (pass1_loop_outgroup 3 three_hits _ 1
           {| r0_qgroup := [0%nat]; r0_qscores := [0; 1; 3]; r0_matches := [8; 7; 5];
              r0_anchors_support := 8; r0_lca_allnodes := Bacteria; r0_rtax := Ecoli;
              r0_counter := 2 |} st1 Erun).
Defined.
